(** * Kleptomove: the neural-network engine and the simulation driver

    A shallow embedding of [cine/ann.hpp] (activation and feedback
    families, [Neuron::feed]) and of [cine/simulation.cpp] (the
    constructor's item initialisation, [simulate_timestep],
    [resolve_grazing_and_attacks], [create_new_generation]).

    Conventions.
    - The templates of [ann.hpp] are generic in the value type [T]; the
      embedding is generic in a type [T] with the operations the templates
      use (class [Arithmetic]).  There are two instances: IEEE 754
      binary32, the type [float] of the program, with [std::exp] and
      [std::tanh] of the C library as parameters; and the field of real
      numbers, exact arithmetic, for evaluations that only add, multiply
      and compare small integers.
    - A pointer into a state array is an offset into a [list T]; a read or
      write outside the array has no defined behaviour in the source and is
      the failure [None] here.
    - The [float] layers of the landscape are exact rationals ([Q]).
    - The shared random engine [rnd::reng] is an explicit state: a tape of
      raw draws and a cursor. *)

From Stdlib Require Import ZArith QArith Qround Qminmax Reals Psatz List Sorted.
From Stdlib Require SpecFloat.
From stdpp Require Import base option list.

Set Default Proof Using "Type".

(** ** ann.hpp *)

Module ann.

(** The operations the templates apply to values of type [T]. *)
Class Arithmetic (T : Type) := {
  of_int : Z → T;        (* T(k) and static_cast<T>(k) for an int k *)
  half : T;              (* T(0.5) *)
  add : T → T → T;
  sub : T → T → T;
  mul : T → T → T;
  div : T → T → T;
  opp : T → T;           (* unary minus *)
  gt : T → T → bool;     (* operator> *)
  exp : T → T;           (* std::exp *)
  tanh : T → T;          (* std::tanh *)
}.

(** [std::max(a, b)] is [(a < b) ? b : a]. *)
Definition std_max {T} `{Arithmetic T} (a b : T) : T :=
  if gt b a then b else a.

(** [extra_state<size, scratch>] of the activation families. *)
Module activation.

Inductive Activation :=
  | zero
  | identity
  | sgn_bipolar
  | sgn_unipolar
  | rtlu
  | tanh_bipolar
  | tanh_unipolar
  | sig_bipolar (n d : Z)
  | sig_unipolar (n d : Z)
  | varsig_bipolar
  | varsig_unipolar.

Definition value (a : Activation) : nat :=
  match a with
  | varsig_bipolar | varsig_unipolar => 1
  | _ => 0
  end.

Section Apply.
Context {T : Type} `{Arithmetic T}.

(** [Activation::apply(u, ps)]; [ps] is the offset of the activation state
    in [state]. *)
Definition apply (a : Activation) (u : T) (state : list T) (ps : nat) : option T :=
  match a with
  | zero => Some (of_int 0)
  | identity => Some u
  | sgn_bipolar => Some (if gt u (of_int 0) then of_int (-1) else of_int 1)
  | sgn_unipolar => Some (if gt u (of_int 0) then of_int 0 else of_int 1)
  | rtlu => Some (std_max (of_int 0) u)
  | tanh_bipolar => Some (tanh u)
  | tanh_unipolar => Some (mul half (add (tanh u) (of_int 1)))
  | sig_bipolar n d =>
      let a := div (of_int (- n)) (of_int d) in
      let Exp := exp (mul a u) in
      Some (div (sub (of_int 1) Exp) (add (of_int 1) Exp))
  | sig_unipolar n d =>
      let a := div (of_int (- n)) (of_int d) in
      Some (div (of_int 1) (add (of_int 1) (exp (mul a u))))
  | varsig_bipolar =>
      p ← state !! ps;
      let Exp := exp (mul (opp p) u) in
      Some (div (sub (of_int 1) Exp) (add (of_int 1) Exp))
  | varsig_unipolar =>
      p ← state !! ps;
      Some (div (of_int 1) (add (of_int 1) (exp (mul (opp p) u))))
  end.

(** The declared output range [min], [max]; [identity] and [rtlu] use
    [std::numeric_limits<T>::max()], a parameter here. *)
Definition min (numeric_max : T) (a : Activation) : T :=
  match a with
  | zero | sgn_unipolar | rtlu | tanh_unipolar | sig_unipolar _ _
  | varsig_unipolar => of_int 0
  | identity => opp numeric_max
  | sgn_bipolar | tanh_bipolar | sig_bipolar _ _ | varsig_bipolar => of_int (-1)
  end.

Definition max (numeric_max : T) (a : Activation) : T :=
  match a with
  | zero => of_int 0
  | identity | rtlu => numeric_max
  | _ => of_int 1
  end.

End Apply.
End activation.

Module feedback.

Inductive Feedback := none | direct.

Definition value (f : Feedback) : nat :=
  match f with none => 0 | direct => 1 end.

Definition scratch (f : Feedback) : nat :=
  match f with none => 0 | direct => 1 end.

Section Apply.
Context {T : Type} `{Arithmetic T}.

(** [Feedback::apply(u, ps, scratch)]; [ps] and [scratch] are offsets in
    [state]; the result is the returned value and the state after the
    call. *)
Definition apply (f : Feedback) (u : T) (state : list T) (ps scratch : nat)
  : option (T * list T) :=
  match f with
  | none => Some (u, state)
  | direct =>
      p ← state !! ps;
      s ← state !! scratch;
      let r := add u (mul p s) in
      Some (r, <[scratch := r]> state)
  end.

End Apply.
End feedback.

Import activation feedback.

(** [Neuron<Input, Activation, Feedback, Biased>]. *)
Record Neuron := {
  Input : nat;
  Act : Activation;
  Fb : Feedback;
  Biased : bool;
}.

Section NeuronLayout.
Variable N : Neuron.

Definition biased : bool := Biased N.
Definition input_size : nat := Input N.
Definition input_weights : nat := input_size + (if biased then 1 else 0).
Definition activation_state : nat := activation.value (Act N).
Definition feedback_state : nat := feedback.value (Fb N).
Definition feedback_scratch : nat := feedback.scratch (Fb N).
Definition total_weights : nat := input_weights + activation_state + feedback_state.
Definition state_size : nat := total_weights + feedback_scratch.
Definition activation_begin : nat := input_weights.
Definition feedback_begin : nat := activation_begin + activation_state.
Definition feedback_scratch_begin : nat := feedback_begin + feedback_state.

End NeuronLayout.

Section Feed.
Context {T : Type} `{Arithmetic T}.

(** The accumulation loops of [feed]: [u += state[i] * in[i - shift]] for
    [i] from [i] on, [count] times. *)
Fixpoint accumulate (inp state : list T) (shift i count : nat) (u : T) : option T :=
  match count with
  | O => Some u
  | S count' =>
      w ← state !! i;
      x ← inp !! (i - shift);
      accumulate inp state shift (S i) count' (add u (mul w x))
  end.

Definition feed (N : Neuron) (inp state : list T) : option (T * list T) :=
  u ← (if biased N then
         u0 ← state !! 0;
         accumulate inp state 1 1 (input_size N) u0
       else
         accumulate inp state 0 0 (input_size N) (of_int 0));
  '(v, state') ← feedback.apply (Fb N) u state (feedback_begin N) (feedback_scratch_begin N);
  y ← activation.apply (Act N) v state' (activation_begin N);
  Some (y, state').

End Feed.

(** *** [Neuron::feed] in the words of its contract

    The state slice of a neuron is partitioned into the input weights
    (the bias weight first, when the neuron is biased), the activation
    parameters, the feedback parameters and the feedback scratch. *)

Section FeedContract.
Context {T : Type} `{Arithmetic T}.

Definition input_weights_range (N : Neuron) (state : list T) : list T :=
  take (input_weights N) state.

Definition activation_range (N : Neuron) (state : list T) : list T :=
  take (activation_state N) (drop (activation_begin N) state).

Definition feedback_range (N : Neuron) (state : list T) : list T :=
  take (feedback_state N) (drop (feedback_begin N) state).

Definition scratch_range (N : Neuron) (state : list T) : list T :=
  take (feedback_scratch N) (drop (feedback_scratch_begin N) state).

(** [u0 + Σ weight_i * input_i], summed from the left. *)
Definition sum_products (u0 : T) (ws inp : list T) : T :=
  foldl (λ u wx, add u (mul (fst wx) (snd wx))) u0 (zip ws inp).

(** The weighted sum: the bias weight leads the sum of a biased neuron;
    the sum of an unbiased neuron has no bias term. *)
Definition weighted_sum (N : Neuron) (inp state : list T) : option T :=
  if biased N then
    match input_weights_range N state with
    | bias_weight :: ws => Some (sum_products bias_weight ws inp)
    | [] => None
    end
  else Some (sum_products (of_int 0) (input_weights_range N state) inp).

(** The feedback function on its two sub-ranges; it returns its value and
    the scratch range after the call. *)
Definition feedback_on (f : Feedback) (u : T) (params scratch : list T)
  : option (T * list T) :=
  match f with
  | none => Some (u, scratch)
  | direct =>
      gain ← params !! 0;
      previous_output ← scratch !! 0;
      let r := add u (mul gain previous_output) in
      Some (r, <[0 := r]> scratch)
  end.

(** The contract of [feed]: weighted sum, then feedback, then activation;
    only the scratch range of the slice can change. *)
Definition feed_contract (N : Neuron) (inp state : list T) : option (T * list T) :=
  u ← weighted_sum N inp state;
  '(v, scratch') ← feedback_on (Fb N) u (feedback_range N state) (scratch_range N state);
  y ← activation.apply (Act N) v (activation_range N state) 0;
  Some (y, take (feedback_scratch_begin N) state ++ scratch').

End FeedContract.

(** *** [Layer], [Network], [visit_neurons] *)

(** [Layer<Neuron, N>]. *)
Record Layer := { neuron_t : Neuron; size : nat }.

Definition layer_input_size (L : Layer) : nat := input_size (neuron_t L).
Definition layer_state_size (L : Layer) : nat := size L * state_size (neuron_t L).
Definition layer_output_size (L : Layer) : nat := size L.

(** [detail::accum_state_size<I, C>], [detail::network_state_size<L...>]
    and [detail::accum_state_ofs<I, C>]; [std::tuple_element_t<I, C>] of a
    position outside the tuple is ill-formed. *)
Fixpoint accum_state_size (I : nat) (C : list Layer) : option nat :=
  match I with
  | O => L ← C !! 0; Some (layer_state_size L)
  | S I' =>
      L ← C !! I;
      a ← accum_state_size I' C;
      Some (layer_state_size L + a)
  end.

Definition network_state_size (C : list Layer) : option nat :=
  match C with
  | [] => None
  | _ :: _ => accum_state_size (length C - 1) C
  end.

Definition accum_state_ofs (I : nat) (C : list Layer) : option nat :=
  a ← accum_state_size I C;
  L ← C !! I;
  Some (a - layer_state_size L).

(** [detail::match_interface_impl<L0, L1, L...>], defined for two layers
    or more, and [detail::match_interface<I, L...>] with its
    specialisation for [I = 1]. *)
Fixpoint match_interface_impl (C : list Layer) : option bool :=
  match C with
  | L0 :: (L1 :: rest) as tl =>
      match rest with
      | [] => Some (layer_output_size L0 =? layer_input_size L1)
      | _ :: _ =>
          b ← match_interface_impl tl;
          Some ((layer_output_size L0 =? layer_input_size L1) && b)
      end
  | _ => None
  end.

Definition match_interface (I : nat) (C : list Layer) : option bool :=
  if I =? 1 then Some true else match_interface_impl C.

(** The [static_assert] of [Network] on the layer interfaces. *)
Definition network_well_formed (C : list Layer) : Prop :=
  match_interface (length C) C = Some true.

Definition output_layer (C : list Layer) : nat := length C - 1.

Definition network_input_size (C : list Layer) : option nat :=
  L ← C !! 0; Some (layer_input_size L).

Definition network_output_size (C : list Layer) : option nat :=
  L ← C !! output_layer C; Some (layer_output_size L).

(** The offset that [Network::get_neuron<I, J>] adds to [state_.data()];
    the two [static_assert]s bound [I] and [J]. *)
Definition get_neuron (C : list Layer) (I J : nat) : option (Neuron * nat) :=
  L ← C !! I;
  if decide (J < size L) then
    ofs ← accum_state_ofs I C;
    Some (neuron_t L, ofs + J * state_size (neuron_t L))
  else None.

Section NetworkFeed.
Context {T : Type} `{Arithmetic T}.

(** The state slice of the neuron [k] of a layer that starts at [p]. *)
Definition neuron_slice (N : Neuron) (p k : nat) (state : list T) : list T :=
  take (state_size N) (drop (p + k * state_size N) state).

(** The loop of [Layer::feed<Ofs>]: [pout[i] = neuron_t::feed(in, state)]
    with [state] advanced by [neuron_t::state_size] after each neuron; [p]
    is the offset of the pointer [state] in the state array, and the
    neuron sees the array from [p] on. *)
Fixpoint layer_loop (N : Neuron) (inp : list T) (p count : nat) (state : list T)
  : option (list T * list T) :=
  match count with
  | O => Some ([], state)
  | S n =>
      '(y, rest) ← feed N inp (drop p state);
      '(ys, state') ← layer_loop N inp (p + state_size N) n (take p state ++ rest);
      Some (y :: ys, state')
  end.

Definition layer_feed (L : Layer) (Ofs : nat) (inp state : list T)
  : option (list T * list T) :=
  layer_loop (neuron_t L) inp Ofs (size L) state.

(** [Network::do_feed_forward<I>], for the layers [I] to
    [output_layer = I + remaining]. *)
Fixpoint do_feed_forward (C : list Layer) (I remaining : nat) (inp state : list T)
  : option (list T * list T) :=
  L ← C !! I;
  ofs ← accum_state_ofs I C;
  '(out, state') ← layer_feed L ofs inp state;
  match remaining with
  | O => Some (out, state')
  | S r => do_feed_forward C (S I) r out state'
  end.

(** [Network::operator()(in)]. *)
Definition network_feed (C : list Layer) (inp state : list T)
  : option (list T * list T) :=
  do_feed_forward C 0 (output_layer C) inp state.

(** [Network::Network(val)]: every element of the state is [val]. *)
Definition Network_new (C : list Layer) (val : T) : option (list T) :=
  n ← network_state_size C; Some (replicate n val).

End NetworkFeed.

(** [detail::do_visit_neuron<I, J>], for the neurons [J] to
    [J + remaining - 1] of layer [I], and [detail::do_visit_layer<I>], for
    the layers [I] to [I + remaining]; the visitor is called with the
    offset of the neuron's state, the layer and the node, and [v] is what
    the visitor has accumulated. *)
Section Visit.
Context {V : Type} (visitor : V → Neuron → nat → nat → nat → V).

Fixpoint do_visit_neuron (C : list Layer) (I J remaining : nat) (v : V) : option V :=
  match remaining with
  | O => Some v
  | S r =>
      '(n, ofs) ← get_neuron C I J;
      do_visit_neuron C I (S J) r (visitor v n ofs I J)
  end.

Fixpoint do_visit_layer (C : list Layer) (I remaining : nat) (v : V) : option V :=
  L ← C !! I;
  v' ← do_visit_neuron C I 0 (size L) v;
  match remaining with
  | O => Some v'
  | S r => do_visit_layer C (S I) r v'
  end.

Definition visit_neurons (C : list Layer) (v : V) : option V :=
  do_visit_layer C 0 (output_layer C) v.

End Visit.

(** The neurons of a network in layer-then-neuron order. *)
Definition flat_neurons (C : list Layer) : list Neuron :=
  concat (map (λ L, replicate (size L) (neuron_t L)) C).

(** A visitor that records the neuron type, the offset, the layer and the
    node of every call, the latest first. *)
Definition record_visit (v : list (Neuron * nat * nat * nat)) (n : Neuron)
    (ofs I J : nat) : list (Neuron * nat * nat * nat) :=
  (n, ofs, I, J) :: v.

(** The state sizes of the layers add up. *)
Definition layers_size (C : list Layer) : nat := sum_list (layer_state_size <$> C).

(** Adjacent layers fit: the outputs of each layer are as many as the
    inputs of the next. *)
Definition interfaces_match (C : list Layer) : Prop :=
  ∀ I L0 L1, C !! I = Some L0 → C !! S I = Some L1 →
             layer_output_size L0 = layer_input_size L1.

(** The recorded visits [vs], in the order of the calls, tile the state
    from [start] to [stop]: each slice begins where the previous one
    ends. *)
Fixpoint tiles (start : nat) (vs : list (Neuron * nat * nat * nat)) (stop : nat) : Prop :=
  match vs with
  | [] => start = stop
  | (n, ofs, _, _) :: vs' => ofs = start ∧ tiles (start + state_size n) vs' stop
  end.

(** The calls of the visitor for the nodes [J] to [J + count - 1] of the
    layer [I], whose state begins at [o]. *)
Definition layer_visits (L : Layer) (o I J count : nat) : list (Neuron * nat * nat * nat) :=
  (λ j, (neuron_t L, o + j * state_size (neuron_t L), I, j)) <$> seq J count.

(** The real numbers as value type: exact arithmetic, without rounding,
    overflow or NaN. *)
#[export] Instance R_Arithmetic : Arithmetic R := {|
  of_int := IZR;
  half := (1 / 2)%R;
  add := Rplus;
  sub := Rminus;
  mul := Rmult;
  div := Rdiv;
  opp := Ropp;
  gt := λ a b, if Rlt_dec b a then true else false;
  exp := Rtrigo_def.exp;
  tanh := Rtrigo_def.tanh;
|}.

(** **** [float]

    IEEE 754 binary32 ([prec = 24], [emax = 128]): signed zeros,
    infinities, one NaN, and operations that round to nearest, ties to
    even. *)
Definition float : Type := SpecFloat.spec_float.

Definition float_zero (negative : bool) : float := SpecFloat.S754_zero negative.
Definition float_inf (negative : bool) : float := SpecFloat.S754_infinity negative.
Definition float_nan : float := SpecFloat.S754_nan.

(** [static_cast<float>(k)] for an integer [k]. *)
Definition float_of_Z (k : Z) : float := SpecFloat.binary_normalize 24 128 k 0 false.

(** [0.5f]. *)
Definition float_half : float := SpecFloat.binary_normalize 24 128 1 (-1) false.

(** Neither an infinity nor NaN. *)
Definition float_is_finite (v : float) : bool :=
  match v with
  | SpecFloat.S754_zero _ | SpecFloat.S754_finite _ _ _ => true
  | _ => false
  end.

(** [a <= b] on [float]; false when either is NaN. *)
Definition float_le (a b : float) : bool := SpecFloat.SFleb a b.

(** The operations on [float]. *)
Definition float_add : float → float → float := SpecFloat.SFadd 24 128.
Definition float_sub : float → float → float := SpecFloat.SFsub 24 128.
Definition float_mul : float → float → float := SpecFloat.SFmul 24 128.
Definition float_div : float → float → float := SpecFloat.SFdiv 24 128.

(** [float] as value type.  [std::exp] and [std::tanh] belong to the C
    library, not to the sources at hand: they are the parameters [c_exp]
    and [c_tanh]. *)
Definition float_Arithmetic (c_exp c_tanh : float → float) : Arithmetic float := {|
  of_int := float_of_Z;
  half := float_half;
  add := float_add;
  sub := float_sub;
  mul := float_mul;
  div := float_div;
  opp := SpecFloat.SFopp;
  gt := λ a b, SpecFloat.SFltb b a;
  exp := c_exp;
  tanh := c_tanh;
|}.

(** [Activation::apply] and the declared range at [T = float];
    [std::numeric_limits<float>::max()] is the largest finite [float]. *)
Definition float_apply (c_exp c_tanh : float → float)
  : activation.Activation → float → list float → nat → option float :=
  @activation.apply float (float_Arithmetic c_exp c_tanh).

Definition float_min (c_exp c_tanh : float → float) (a : activation.Activation) : float :=
  @activation.min float (float_Arithmetic c_exp c_tanh) (SpecFloat.SFmax_float 24 128) a.

Definition float_max (c_exp c_tanh : float → float) (a : activation.Activation) : float :=
  @activation.max float (float_Arithmetic c_exp c_tanh) (SpecFloat.SFmax_float 24 128) a.

(** The slope [static_cast<T>(-n) / d] of the fixed-slope sigmoids. *)
Definition float_slope (n d : Z) : float := float_div (float_of_Z (- n)) (float_of_Z d).

End ann.

(** ** simulation.cpp *)

Module cine2.

(** *** The random engine and the distributions drawn from it *)

(** [rnd::reng]: a tape of raw draws and the position of the next one. *)
Record reng := { tape : nat → Z; cursor : nat }.

Definition next (g : reng) : Z * reng :=
  (tape g (cursor g), {| tape := tape g; cursor := S (cursor g) |}).

(** A raw draw scaled to the unit interval [0, 1). *)
Definition canonical (k : Z) : Q := (k mod 2 ^ 32) # (2 ^ 32).

(** [std::bernoulli_distribution(p)(reng)]. *)
Definition bernoulli (p : Q) (g : reng) : bool * reng :=
  let '(k, g') := next g in
  ((if Qlt_le_dec (canonical k) p then true else false), g').

(** [std::uniform_int_distribution(lo, hi)(reng)] and
    [rndutils::uniform_signed_distribution(lo, hi)(reng)]. *)
Definition uniform_int (lo hi : Z) (g : reng) : Z * reng :=
  let '(k, g') := next g in
  (lo + k mod (hi - lo + 1), g')%Z.

(** Exchange of the elements at positions [i] and [j]. *)
Definition swap_at {A} (l : list A) (i j : nat) : list A :=
  match l !! i, l !! j with
  | Some a, Some b => <[j := a]> (<[i := b]> l)
  | _, _ => l
  end.

(** [std::shuffle(first, last, reng)]: exchanges position [i] with a drawn
    position of [0..i], for [i] from the last position down to 1. *)
Fixpoint shuffle {A} (l : list A) (i : nat) (g : reng) : list A * reng :=
  match i with
  | O => (l, g)
  | S i' =>
      let '(j, g') := uniform_int 0 (Z.of_nat i) g in
      shuffle (swap_at l i (Z.to_nat j)) i' g'
  end.

Definition std_shuffle {A} (l : list A) (g : reng) : list A * reng :=
  shuffle l (length l - 1) g.

(** *** Coordinates, agents, landscape *)

Record Coordinate := { x : Z; y : Z }.

#[export] Instance Coordinate_eq_dec : EqDecision Coordinate.
Proof. solve_decision. Defined.

Definition Coordinate_add (a b : Coordinate) : Coordinate :=
  {| x := x a + x b; y := y a + y b |}.

Record Individual := {
  pos : Coordinate;
  foraging : bool;
  handling : bool;
  handle_time : Z;
  food : Q;
  ancestor : nat;
}.

Definition set_pos (a : Individual) (p : Coordinate) : Individual :=
  {| pos := p; foraging := foraging a; handling := handling a;
     handle_time := handle_time a; food := food a; ancestor := ancestor a |}.

Definition set_handling (a : Individual) (h : bool) (t : Z) : Individual :=
  {| pos := pos a; foraging := foraging a; handling := h;
     handle_time := t; food := food a; ancestor := ancestor a |}.

(** Modelled from the spec: [Individual::handle()], which is not in the
    sources at hand; an agent "currently handling" is one whose [handling]
    flag is set. *)
Definition handle (a : Individual) : bool := handling a.

Abbreviation Layer := (list Q).

(** A kernel is a list of cell offsets with their weights. *)
Abbreviation Kernel := (list (Coordinate * Q)).

Record Landscape := {
  dim : Z;
  capacity : Layer;
  items : Layer;
  foragers_count : Layer;
  foragers : Layer;
  klepts_count : Layer;
  klepts : Layer;
  handlers_count : Layer;
  handlers : Layer;
  temp : Layer;
}.

Definition set_items (L : Landscape) (v : Layer) : Landscape :=
  {| dim := dim L; capacity := capacity L; items := v;
     foragers_count := foragers_count L; foragers := foragers L;
     klepts_count := klepts_count L; klepts := klepts L;
     handlers_count := handlers_count L; handlers := handlers L;
     temp := temp L |}.

Definition set_temp (L : Landscape) (v : Layer) : Landscape :=
  {| dim := dim L; capacity := capacity L; items := items L;
     foragers_count := foragers_count L; foragers := foragers L;
     klepts_count := klepts_count L; klepts := klepts L;
     handlers_count := handlers_count L; handlers := handlers L;
     temp := v |}.

(** Modelled from the spec: [Landscape::wrap], which is not in the sources
    at hand; coordinates wrap modulo [dim] on each axis. *)
Definition wrap (d : Z) (p : Coordinate) : Coordinate :=
  {| x := x p mod d; y := y p mod d |}.

(** Modelled from the spec: [LayerView::operator()(Coordinate)], which is
    not in the sources at hand; a layer is a [dim × dim] grid stored row by
    row in the flat array that [data()] returns. A coordinate outside the
    grid addresses no cell. *)
Definition cell (d : Z) (p : Coordinate) : option nat :=
  if decide (0 ≤ x p < d ∧ 0 ≤ y p < d)%Z
  then Some (Z.to_nat (y p * d + x p))
  else None.

Definition at_cell (d : Z) (l : Layer) (p : Coordinate) : option Q :=
  i ← cell d p; l !! i.

(** [floor] on the rationals, as a rational. *)
Definition floor (q : Q) : Q := inject_Z (Qfloor q).

(** [a >= b] on floats. *)
Definition geb (a b : Q) : bool := if Qlt_le_dec a b then false else true.


(** Indexed access through a raw pointer or [operator[]]: a position
    outside the array has no defined behaviour. *)
Definition store {A} (l : list A) (i : nat) (v : A) : option (list A) :=
  if decide (i < length l) then Some (<[i := v]> l) else None.

(** *** Parameters, populations, the simulation state *)

Record landscape_param := {
  max_item_cap : Q;
  item_growth : Q;
  detection_rate : Q;
  foragers_kernel : Kernel;
}.

Record ind_param := {
  agents_N : nat;           (* param.agents.N *)
  agents_L : Z;             (* param.agents.L *)
  sprout_radius : Z;
  flee_radius : Z;
  cmplx_penalty : Q;
}.

(** The state of a collection of networks: one state block per agent,
    each [type_size] values long. *)
Record AnyANN := { type_size : nat; blocks : list (list Q) }.

(** What [archive::iarch::extract] hands over for one generation. *)
Record Archive := { un : nat; usize : nat; data : list (list Q) }.

Record Param := {
  G : Z;
  initG : Z;
  landscape : landscape_param;
  agents : ind_param;
  init_agents_ann : option (Z → Archive);
}.

Record Population := {
  pop : list Individual;
  tmp_pop : list Individual;
  ann : AnyANN;
  tmp_ann : AnyANN;
  fitness : list Q;
  rdist : list Q;           (* the weights of the sampling distribution *)
}.

Record Simulation := {
  g_ : Z;
  t_ : Z;
  param_ : Param;
  landscape_ : Landscape;
  agents_ : Population;
}.

(** The parts of the program that the sources at hand only call:
    the remaining methods of [Individual], the batched network operations
    [move] and [mutate], the construction of a network collection (the
    network type that [param.agents.ann] names belongs to the instance),
    and [pow] of the C library.  [move] reads the landscape and returns the
    agents and the network states it leaves. *)
Class Collaborators := {
  Individual_new : Individual;
  pick_item : Individual → Individual;
  do_handle : Individual → Individual;
  flee : Landscape → Z → Individual → reng → Individual * reng;
  sprout : Individual → Coordinate → nat → Individual;
  make_any_ann : Z → nat → AnyANN;
  move : AnyANN → Landscape → list Individual → ind_param → reng
         → AnyANN * list Individual * reng;
  mutate : AnyANN → ind_param → bool → reng → AnyANN * reng;
  pow : Q → Q → Q;
}.

(** Modelled from the spec: [AnyANN::assign(src, s, d)], which is not in
    the sources at hand; it copies the full state block of individual [s]
    of [src] to slot [d]. *)
Definition assign (dst src : AnyANN) (s d : nat) : option AnyANN :=
  b ← blocks src !! s;
  bs ← store (blocks dst) d b;
  Some {| type_size := type_size dst; blocks := bs |}.

(** Modelled from the spec: sampling from the fitness-weighted
    distribution [rdist], whose class is not in the sources at hand;
    roulette-wheel selection, the probability of an index proportional to
    its weight. *)
Fixpoint roulette (ws : list Q) (t : Q) : nat :=
  match ws with
  | [] => 0
  | w :: ws' => if Qlt_le_dec t w then 0 else S (roulette ws' (t - w))
  end.

Definition Qsum (ws : list Q) : Q := foldr Qplus 0%Q ws.

Definition rdist_sample (ws : list Q) (g : reng) : nat * reng :=
  let '(k, g') := next g in
  (roulette ws (canonical k * Qsum ws), g').

(** *** Occupancy *)

Inductive Role := forager | klept | handler.

#[export] Instance Role_eq_dec : EqDecision Role.
Proof. solve_decision. Defined.

(** Modelled from the spec: the role of an agent at the time of the call;
    the attackers of [resolve_grazing_and_attacks] are the agents that
    neither handle nor forage. *)
Definition role (a : Individual) : Role :=
  if handling a then handler else if foraging a then forager else klept.

Definition count_at (d : Z) (r : Role) (agents : list Individual) (c : nat) : Q :=
  inject_Z (Z.of_nat (length
    (filter (λ a, role a = r ∧ cell d (pos a) = Some c) agents))).

Definition count_layer (d : Z) (r : Role) (agents : list Individual) : Layer :=
  map (count_at d r agents) (seq 0 (Z.to_nat (d * d))).

Definition convolve_at (d : Z) (k : Kernel) (l : Layer) (c : nat) : Q :=
  let p := {| x := Z.of_nat c mod d; y := Z.of_nat c / d |} in
  foldr (λ ow acc,
           snd ow * default 0 (at_cell d l (wrap d (Coordinate_add p (fst ow)))) + acc)%Q
        0%Q k.

Definition convolve (d : Z) (k : Kernel) (l : Layer) : Layer :=
  map (convolve_at d k l) (seq 0 (Z.to_nat (d * d))).

(** Modelled from the spec: [Landscape::update_occupancy], which is not
    in the sources at hand; the raw count layer of each role, then each
    count layer convolved with the kernel into the density layer. *)
Definition update_occupancy (L : Landscape) (agents : list Individual) (k : Kernel)
  : Landscape :=
  let fc := count_layer (dim L) forager agents in
  let kc := count_layer (dim L) klept agents in
  let hc := count_layer (dim L) handler agents in
  {| dim := dim L; capacity := capacity L; items := items L;
     foragers_count := fc; foragers := convolve (dim L) k fc;
     klepts_count := kc; klepts := convolve (dim L) k kc;
     handlers_count := hc; handlers := convolve (dim L) k hc;
     temp := temp L |}.

(** The per-cell bound: every item count lies between 0 and
    [floor(capacity × max_item_cap)]. *)
Definition within_cap (m : Q) (cap its : Layer) : Prop :=
  Forall2 (λ c it, (0 <= it)%Q ∧ (it <= floor (c * m))%Q) cap its.

(** *** The driver *)

Section Driver.
Context `{Collaborators}.

(** **** [Simulation::Simulation] *)

(** The loop [items[i] = floor(capacity[i] * param.landscape.max_item_cap)]
    for [i] from [i] on, [count] times. *)
Fixpoint init_items (cap : Layer) (m : Q) (i count : nat) (its : Layer)
  : option Layer :=
  match count with
  | O => Some its
  | S n =>
      c ← cap !! i;
      its' ← store its i (floor (c * m));
      init_items cap m (S i) n its'
  end.

Fixpoint init_positions (d : Z) (agents : list Individual) (g : reng)
  : list Individual * reng :=
  match agents with
  | [] => ([], g)
  | p :: rest =>
      let '(px, g1) := uniform_int 0 (d - 1) g in
      let '(py, g2) := uniform_int 0 (d - 1) g1 in
      let '(rest', g3) := init_positions d rest g2 in
      (set_pos p {| x := px; y := py |} :: rest', g3)
  end.

Definition set_ann (P : Population) (a : AnyANN) : Population :=
  {| pop := pop P; tmp_pop := tmp_pop P; ann := a; tmp_ann := tmp_ann P;
     fitness := fitness P; rdist := rdist P |}.

Definition set_pop (P : Population) (l : list Individual) : Population :=
  {| pop := l; tmp_pop := tmp_pop P; ann := ann P; tmp_ann := tmp_ann P;
     fitness := fitness P; rdist := rdist P |}.

(** [Simulation::init_anns_from_archive]; a mismatch throws. *)
Definition init_anns_from_archive (param : Param) (P : Population) (ia : Z → Archive)
  : option Population :=
  let cm := ia (if decide (0 ≤ initG param)%Z
                then Z.min (initG param) (G param - 1)
                else (G param - 1)%Z) in
  if decide (un cm ≠ length (blocks (ann P))) then None
  else if decide (usize cm ≠ type_size (ann P)) then None
  else Some (set_ann P {| type_size := type_size (ann P); blocks := data cm |}).

(** The constructor; [L0] is the landscape as [init_layer] leaves it, with
    the capacity layer read from the image. *)
Definition Simulation_new (param : Param) (L0 : Landscape) (g : reng)
  : option (Simulation * reng) :=
  let n := agents_N (agents param) in
  let P0 := {| pop := replicate n Individual_new;
               tmp_pop := replicate n Individual_new;
               ann := make_any_ann (agents_L (agents param)) n;
               tmp_ann := make_any_ann (agents_L (agents param)) n;
               fitness := replicate n 0%Q;
               rdist := [] |} in
  if decide (dim L0 < 32)%Z then None
  else
    let DD := Z.to_nat (dim L0 * dim L0) in
    its ← init_items (capacity L0) (max_item_cap (landscape param)) 0 DD (items L0);
    let L1 := set_items L0 its in
    let '(agents1, g1) := init_positions (dim L1) (pop P0) g in
    let P1 := set_pop P0 agents1 in
    let L2 := update_occupancy L1 (pop P1) (foragers_kernel (landscape param)) in
    P2 ← match init_agents_ann param with
          | Some ia => init_anns_from_archive param P1 ia
          | None => Some P1
          end;
    Some ({| g_ := -1; t_ := -1; param_ := param; landscape_ := L2; agents_ := P2 |}, g1).

(** **** [Simulation::simulate_timestep]: item growth *)

Fixpoint grow_items (cap : Layer) (m growth : Q) (i count : nat) (its : Layer) (g : reng)
  : option (Layer * reng) :=
  match count with
  | O => Some (its, g)
  | S n =>
      let '(b, g') := bernoulli growth g in
      if b then
        c ← cap !! i;
        it ← its !! i;
        its' ← store its i (Qmin (floor (c * m)) (floor (it + 1)));
        grow_items cap m growth (S i) n its' g'
      else grow_items cap m growth (S i) n its g'
  end.

(** **** [Simulation::resolve_grazing_and_attacks] *)

(** One step of the first loop: an agent that does not handle and forages
    searches its cell for items. *)
Definition forage_one (rate : Q) (d : Z) (a : Individual) (its : Layer) (g : reng)
  : option (Individual * Layer * reng) :=
  if negb (handle a) && foraging a then
    c ← cell d (pos a);
    it ← its !! c;
    if geb it 1 then
      let '(b, g') := bernoulli (1 - pow (1 - rate) it) g in
      if b then Some (pick_item a, <[c := (it - 1)%Q]> its, g')
      else Some (a, its, g')
    else Some (a, its, g)
  else Some (a, its, g).

Fixpoint forage (rate : Q) (d : Z) (agents : list Individual) (its : Layer) (g : reng)
  : option (list Individual * Layer * reng) :=
  match agents with
  | [] => Some ([], its, g)
  | a :: rest =>
      '(a', its1, g1) ← forage_one rate d a its g;
      '(rest', its2, g2) ← forage rate d rest its1 g1;
      Some (a' :: rest', its2, g2)
  end.

(** The second loop: the indices of the agents that neither handle nor
    forage and read at least 1 in the [handlers] layer at their cell;
    [i] is the index of the head of [rest]. *)
Fixpoint collect_attackers (d : Z) (hl : Layer) (i : nat) (rest : list Individual)
  : option (list nat) :=
  match rest with
  | [] => Some []
  | a :: rest' =>
      b ← (if negb (handling a) && negb (foraging a)
           then h ← at_cell d hl (pos a); Some (geb h 1)
           else Some false);
      tl ← collect_attackers d hl (S i) rest';
      Some (if b : bool then i :: tl else tl)
  end.

(** The inner loop of the third loop: the agents on the cell of attacker
    [i], itself excluded, that handle; an agent is named by its index
    ([j] is the index of the head of [rest]). *)
Fixpoint potentially_attacked (ai : Individual) (i j : nat) (rest : list Individual)
  : list nat :=
  match rest with
  | [] => []
  | aj :: rest' =>
      if bool_decide (pos ai = pos aj) && negb (i =? j) && handling aj
      then j :: potentially_attacked ai i (S j) rest'
      else potentially_attacked ai i (S j) rest'
  end.

(** The third loop: each attacker draws one of its potential victims, if
    it has any. *)
Fixpoint select_victims (agents : list Individual) (attackers : list nat) (g : reng)
  : option (list nat * reng) :=
  match attackers with
  | [] => Some ([], g)
  | i :: rest =>
      ai ← agents !! i;
      let attacked_potentially_ := potentially_attacked ai i 0 agents in
      match attacked_potentially_ with
      | [] => select_victims agents rest g
      | _ :: _ =>
          let '(focal_ind, g1) :=
            uniform_int 0 (Z.of_nat (length attacked_potentially_ - 1)) g in
          v ← attacked_potentially_ !! Z.to_nat focal_ind;
          '(vs, g2) ← select_victims agents rest g1;
          Some (v :: vs, g2)
      end
  end.

(** [conflicts_v[i] = { attacking_inds_[i], attacked_inds[i] }]. *)
Definition make_conflicts (attackers attacked : list nat) : option (list (nat * nat)) :=
  mapM (λ i, a ← attackers !! i; v ← attacked !! i; Some (a, v))
       (seq 0 (length attackers)).

(** The body of the last loop for attacker [ai] and victim [vi]. *)
Definition fight_one (L : Landscape) (radius : Z) (ai vi : nat)
    (agents : list Individual) (g : reng) : option (list Individual * reng) :=
  v ← agents !! vi;
  if handling v then
    let '(fights, g1) := bernoulli 1 g in
    if fights then
      let '(wins, g2) := bernoulli 1 g1 in
      if wins then
        a ← agents !! ai;
        agents1 ← store agents ai (set_handling a (handling v) (handle_time v));
        v1 ← agents1 !! vi;
        let '(v2, g3) := flee L radius v1 g2 in
        agents2 ← store agents1 vi v2;
        Some (agents2, g3)
      else
        a ← agents !! ai;
        let '(a1, g3) := flee L radius a g2 in
        agents1 ← store agents ai a1;
        Some (agents1, g3)
    else Some (agents, g1)
  else Some (agents, g).

(** The last loop, for [i] from [i] on, [count] times; it reads
    [attacking_inds_[i]] and [attacked_inds[i]]. *)
Fixpoint fights (L : Landscape) (radius : Z) (attackers attacked : list nat)
    (i count : nat) (agents : list Individual) (g : reng)
  : option (list Individual * reng) :=
  match count with
  | O => Some (agents, g)
  | S n =>
      vi ← attacked !! i;
      ai ← attackers !! i;
      '(agents', g') ← fight_one L radius ai vi agents g;
      fights L radius attackers attacked (S i) n agents' g'
  end.

Definition resolve_grazing_and_attacks (param : Param) (L : Landscape)
    (agents : list Individual) (g : reng)
  : option (Landscape * list Individual * reng) :=
  let L1 := set_temp L (handlers L) in
  '(agents1, its, g1) ←
    forage (detection_rate (landscape param)) (dim L1) agents (items L1) g;
  let L2 := set_items L1 its in
  attacking_inds_ ← collect_attackers (dim L2) (handlers L2) 0 agents1;
  '(attacked_inds, g2) ← select_victims agents1 attacking_inds_ g1;
  conflicts_v ← make_conflicts attacking_inds_ attacked_inds;
  let '(_, g3) := std_shuffle conflicts_v g2 in
  '(agents2, g4) ←
    fights L2 (flee_radius (cine2.agents param)) attacking_inds_ attacked_inds
           0 (length attacking_inds_) agents1 g3;
  Some (L2, agents2, g4).

(** **** [Simulation::simulate_timestep] *)

Definition set_landscape (S : Simulation) (L : Landscape) : Simulation :=
  {| g_ := g_ S; t_ := t_ S; param_ := param_ S; landscape_ := L;
     agents_ := agents_ S |}.

Definition set_agents (S : Simulation) (P : Population) : Simulation :=
  {| g_ := g_ S; t_ := t_ S; param_ := param_ S; landscape_ := landscape_ S;
     agents_ := P |}.

(** The grass-growth loop. *)
Definition growth_phase (S : Simulation) (g : reng) : option (Simulation * reng) :=
  let L := landscape_ S in
  let DD := Z.to_nat (dim L * dim L) in
  '(its, g') ← grow_items (capacity L) (max_item_cap (landscape (param_ S)))
                          (item_growth (landscape (param_ S))) 0 DD (items L) g;
  Some (set_landscape S (set_items L its), g').

(** The loop calling [do_handle] on every agent. *)
Definition handle_phase (S : Simulation) : Simulation :=
  set_agents S (set_pop (agents_ S) (map do_handle (pop (agents_ S)))).

(** [landscape_.update_occupancy(..., agents_.pop.cbegin(), agents_.pop.cend(),
    param_.landscape.foragers_kernel)]. *)
Definition occupancy_phase (S : Simulation) : Simulation :=
  set_landscape S
    (update_occupancy (landscape_ S) (pop (agents_ S))
                      (foragers_kernel (landscape (param_ S)))).

(** [agents_.ann->move(landscape_, agents_.pop, param_.agents)]. *)
Definition move_phase (S : Simulation) (g : reng) : Simulation * reng :=
  let '(a, agents', g') :=
    move (ann (agents_ S)) (landscape_ S) (pop (agents_ S)) (agents (param_ S)) g in
  (set_agents S (set_pop (set_ann (agents_ S) a) agents'), g').

(** [resolve_grazing_and_attacks()]. *)
Definition conflict_phase (S : Simulation) (g : reng) : option (Simulation * reng) :=
  '(L, agents', g') ←
    resolve_grazing_and_attacks (param_ S) (landscape_ S) (pop (agents_ S)) g;
  Some (set_agents (set_landscape S L) (set_pop (agents_ S) agents'), g').

(** The state in which [simulate_timestep] calls
    [resolve_grazing_and_attacks]. *)
Definition before_conflicts (S : Simulation) (g : reng) : option (Simulation * reng) :=
  '(S1, g1) ← growth_phase S g;
  Some (move_phase (occupancy_phase (handle_phase S1)) g1).

Definition simulate_timestep (S : Simulation) (g : reng) : option (Simulation * reng) :=
  '(S3, g3) ← before_conflicts S g;
  '(S4, g4) ← conflict_phase S3 g3;
  Some (occupancy_phase S4, g4).

(** **** [detail::create_new_generation] *)

(** The loop over the offspring slots, for [i] from [i] on, [count]
    times: it reads [pop], [ws] (the distribution [rdist]) and [src] (the
    live networks) and writes [tmp_pop] and [tmp_ann]. *)
Fixpoint reproduce (d radius : Z) (pop : list Individual) (ws : list Q) (src : AnyANN)
    (i count : nat) (tmp_pop : list Individual) (tmp_ann : AnyANN) (g : reng)
  : option (list Individual * AnyANN * reng) :=
  match count with
  | O => Some (tmp_pop, tmp_ann, g)
  | S n =>
      let '(ancestor, g1) := rdist_sample ws g in
      let '(dx, g2) := uniform_int (- radius) radius g1 in
      let '(dy, g3) := uniform_int (- radius) radius g2 in
      a ← pop !! ancestor;
      let newPos := Coordinate_add (pos a) {| x := dx; y := dy |} in
      t ← tmp_pop !! i;
      tmp_pop' ← store tmp_pop i (sprout t (wrap d newPos) ancestor);
      tmp_ann' ← assign tmp_ann src ancestor i;
      reproduce d radius pop ws src (S i) n tmp_pop' tmp_ann' g3
  end.

Definition set_staging (P : Population) (l : list Individual) (a : AnyANN) : Population :=
  {| pop := pop P; tmp_pop := l; ann := ann P; tmp_ann := a;
     fitness := fitness P; rdist := rdist P |}.

(** The parallel region: every offspring is written to the staging
    arrays. *)
Definition stage_offspring (L : Landscape) (P : Population) (iparam : ind_param)
    (g : reng) : option (Population * reng) :=
  '(tp, ta, g') ← reproduce (dim L) (sprout_radius iparam) (pop P) (rdist P) (ann P)
                            0 (length (pop P)) (tmp_pop P) (tmp_ann P) g;
  Some (set_staging P tp ta, g').

(** [population.tmp_ann->mutate(iparam, fixed)]. *)
Definition mutate_staging (P : Population) (iparam : ind_param) (fixed : bool)
    (g : reng) : Population * reng :=
  let '(ta, g') := mutate (tmp_ann P) iparam fixed g in
  (set_staging P (tmp_pop P) ta, g').

(** [swap(population.pop, population.tmp_pop);
     swap(population.ann, population.tmp_ann)]. *)
Definition swap_buffers (P : Population) : Population :=
  {| pop := tmp_pop P; tmp_pop := pop P; ann := tmp_ann P; tmp_ann := ann P;
     fitness := fitness P; rdist := rdist P |}.

Definition create_new_generation (L : Landscape) (P : Population) (iparam : ind_param)
    (fixed : bool) (g : reng) : option (Population * reng) :=
  '(P1, g1) ← stage_offspring L P iparam g;
  let '(P2, g2) := mutate_staging P1 iparam fixed g1 in
  Some (swap_buffers P2, g2).
End Driver.

(** *** Fitness assessment and the run of the simulation *)

(** The messages an observer is notified with. *)
Inductive msg_type :=
  | INITIALIZED | NEW_GENERATION | POST_TIMESTEP | WATCHDOG | GENERATION | FINISHED.

(** The fields of [param_] that only [run] reads. *)
Record run_param := { Gburnin : Z; T : Z; Tfix : Z }.

(** What [run] and [assess_fitness] call outside the sources at hand: the
    complexity of a network, the fitness function [Param::agents_fitness]
    and [Simulation::fixed()].  [analysis_.generation(this)] records a
    summary in [analysis_], which is not part of the state modelled
    here. *)
Class Surroundings := {
  complexity : AnyANN → nat → Q;
  agents_fitness : Individual → Q → Q → Q;
  fixed : Simulation → bool;
}.

Section Run.
Context `{Collaborators} `{Surroundings}.

(** **** [detail::assess_fitness] *)

(** The loop [fitness[i] = fitness_fun(pop[i], ann->complexity(i),
    cmplx_penalty)], for [i] from [i] on, [count] times. *)
Fixpoint assess_loop (fitness_fun : Individual → Q → Q → Q) (cmplx_penalty : Q)
    (pop : list Individual) (ann : AnyANN) (i count : nat) (fitness : list Q)
  : option (list Q) :=
  match count with
  | O => Some fitness
  | S n =>
      a ← pop !! i;
      fitness' ← store fitness i (fitness_fun a (complexity ann i) cmplx_penalty);
      assess_loop fitness_fun cmplx_penalty pop ann (S i) n fitness'
  end.

(** Modelled from the spec: [rdist.mutate(first, last)], whose class is
    not in the sources at hand; the sampling distribution is rebuilt from
    the fitness values. *)
Definition set_fitness (P : Population) (f : list Q) : Population :=
  {| pop := pop P; tmp_pop := tmp_pop P; ann := ann P; tmp_ann := tmp_ann P;
     fitness := f; rdist := f |}.

Definition detail_assess_fitness (P : Population) (iparam : ind_param)
    (fitness_fun : Individual → Q → Q → Q) : option Population :=
  f ← assess_loop fitness_fun (cmplx_penalty iparam) (pop P) (ann P)
                  0 (length (pop P)) (fitness P);
  Some (set_fitness P f).

(** [Simulation::assess_fitness] and [Simulation::create_new_generations]. *)
Definition assess_fitness (S : Simulation) : option Simulation :=
  P ← detail_assess_fitness (agents_ S) (agents (param_ S)) agents_fitness;
  Some (set_agents S P).

Definition create_new_generations (S : Simulation) (g : reng)
  : option (Simulation * reng) :=
  '(P, g') ← create_new_generation (landscape_ S) (agents_ S) (agents (param_ S))
                                   (fixed S) g;
  Some (set_agents S P, g').

(** **** [Simulation::run] *)

Definition set_g_ (S : Simulation) (v : Z) : Simulation :=
  {| g_ := v; t_ := t_ S; param_ := param_ S; landscape_ := landscape_ S;
     agents_ := agents_ S |}.

Definition set_t_ (S : Simulation) (v : Z) : Simulation :=
  {| g_ := g_ S; t_ := v; param_ := param_ S; landscape_ := landscape_ S;
     agents_ := agents_ S |}.

(** [agents_.fitness.assign(agents_.fitness.size(), 0.f)]. *)
Definition clear_fitness (S : Simulation) : Simulation :=
  set_agents S
    {| pop := pop (agents_ S); tmp_pop := tmp_pop (agents_ S);
       ann := ann (agents_ S); tmp_ann := tmp_ann (agents_ S);
       fitness := replicate (length (fitness (agents_ S))) 0%Q;
       rdist := rdist (agents_ S) |}.

Section Observed.
(** An observer: its own state and its answer to a notification. *)
Context {Obs : Type} (notify : Obs → Simulation → msg_type → bool * Obs).

(** The simulation, the observer (a null pointer is [None]) and the random
    engine. *)
Definition world : Type := Simulation * option Obs * reng.

(** How a part of [run] ends: it goes on, or [run] returns [false]. *)
Inductive flow := Next (w : world) | Returned (w : world).

(** The macro [simulation_observer_notify(msg)]:
    [if ((observer ? !observer->notify(this, msg) : true)) return false]. *)
Definition simulation_observer_notify (msg : msg_type) (w : world) : flow :=
  let '(sim, observer, g) := w in
  match observer with
  | Some o =>
      let '(ok, o') := notify o sim msg in
      if ok then Next (sim, Some o', g) else Returned (sim, Some o', g)
  | None => Returned w
  end.

(** The loop over the timesteps of a burn-in generation, [count]
    times. *)
Fixpoint burnin_timesteps (count : nat) (w : world) : option flow :=
  match count with
  | O => Some (Next w)
  | S n =>
      let '(S0, observer, g) := w in
      '(S1, g1) ← simulate_timestep S0 g;
      match simulation_observer_notify WATCHDOG (S1, observer, g1) with
      | Next w' => burnin_timesteps n w'
      | Returned w' => Some (Returned w')
      end
  end.

(** The loop over the burn-in generations, [count] times. *)
Fixpoint burnin_generations (rp : run_param) (count : nat) (w : world) : option flow :=
  match count with
  | O => Some (Next w)
  | S n =>
      f ← burnin_timesteps (Z.to_nat (T rp)) w;
      match f with
      | Next (S1, observer, g1) =>
          S2 ← assess_fitness (clear_fitness S1);
          '(S3, g3) ← create_new_generations S2 g1;
          burnin_generations rp n (S3, observer, g3)
      | Returned w' => Some (Returned w')
      end
  end.

(** The loop [for (t_ = 0; t_ < T; ++t_)] from the test [t_ < T] on, with
    [count] iterations to go. *)
Fixpoint main_timesteps (count : nat) (w : world) : option flow :=
  match count with
  | O => Some (Next w)
  | S n =>
      let '(S0, observer, g) := w in
      '(S1, g1) ← simulate_timestep S0 g;
      match simulation_observer_notify POST_TIMESTEP (S1, observer, g1) with
      | Next (S2, observer', g2) =>
          main_timesteps n (set_t_ S2 (t_ S2 + 1), observer', g2)
      | Returned w' => Some (Returned w')
      end
  end.

(** The loop [for (g_ = 0; g_ < G; ++g_)] from the test [g_ < G] on, with
    [count] iterations to go. *)
Fixpoint main_generations (rp : run_param) (count : nat) (w : world) : option flow :=
  match count with
  | O => Some (Next w)
  | S n =>
      match simulation_observer_notify NEW_GENERATION w with
      | Next (S0, observer, g) =>
          let Tg := if fixed S0 then Tfix rp else T rp in
          f ← main_timesteps (Z.to_nat Tg) (set_t_ S0 0, observer, g);
          match f with
          | Next (S1, observer1, g1) =>
              S2 ← assess_fitness S1;
              match simulation_observer_notify GENERATION (S2, observer1, g1) with
              | Next (S3, observer3, g3) =>
                  '(S4, g4) ← create_new_generations S3 g3;
                  main_generations rp n (set_g_ S4 (g_ S4 + 1), observer3, g4)
              | Returned w' => Some (Returned w')
              end
          | Returned w' => Some (Returned w')
          end
      | Returned w' => Some (Returned w')
      end
  end.

(** [Simulation::run(observer)]: the value returned and the world it
    leaves. *)
Definition run (rp : run_param) (w : world) : option (bool * world) :=
  match simulation_observer_notify INITIALIZED w with
  | Returned w' => Some (false, w')
  | Next w1 =>
      f ← burnin_generations rp (Z.to_nat (Gburnin rp)) w1;
      match f with
      | Returned w' => Some (false, w')
      | Next (S1, observer1, g1) =>
          f' ← main_generations rp (Z.to_nat (G (param_ S1))) (set_g_ S1 0, observer1, g1);
          match f' with
          | Returned w' => Some (false, w')
          | Next w2 =>
              match simulation_observer_notify FINISHED w2 with
              | Returned w' => Some (false, w')
              | Next w3 => Some (true, w3)
              end
          end
      end
  end.

End Observed.

End Run.

(** *** Notions that the properties of the driver are stated with *)

(** The agents that become attackers. *)
Definition attacks (d : Z) (hl : list Q) (a : Individual) : Prop :=
  handling a = false ∧ foraging a = false
  ∧ ∃ h, at_cell d hl (pos a) = Some h ∧ (1 <= h)%Q.

(** Attacker [i] has an agent to attack. *)
Definition has_victim (agents : list Individual) (i : nat) : Prop :=
  ∃ ai v av, agents !! i = Some ai ∧ agents !! v = Some av ∧ v ≠ i
             ∧ pos av = pos ai ∧ handling av = true.

(** The random engine after [n] more raw draws. *)
Definition advance (g : reng) (n : nat) : reng :=
  {| tape := tape g; cursor := cursor g + n |}.

Section Offspring.
Context `{Collaborators}.

(** What the loop of [create_new_generation] leaves in offspring slot [j]
    when it reaches the slot with the random engine in state [gj]: the
    ancestor is the index sampled from the distribution [ws] on [gj]; the
    offsets on the two axes are the next two draws from
    [uniform_signed_distribution(-radius, radius)]; the staged agent
    sprouts at the ancestor's position moved by the offsets and wrapped;
    the staged network state is a copy of the ancestor's. *)
Definition offspring_of (d radius : Z) (pop : list Individual) (ws : list Q)
    (src : AnyANN) (tp tp' : list Individual) (ta' : AnyANN) (gj : reng) (j : nat)
  : Prop :=
  let sampled := rdist_sample ws gj in
  let ancestor := fst sampled in
  let on_x := uniform_int (- radius) radius (snd sampled) in
  let on_y := uniform_int (- radius) radius (snd on_x) in
  ∃ (a t : Individual),
    pop !! ancestor = Some a
    ∧ tp !! j = Some t
    ∧ tp' !! j
      = Some (sprout t (wrap d (Coordinate_add (pos a) {| x := fst on_x; y := fst on_y |}))
                     ancestor)
    ∧ blocks ta' !! j = blocks src !! ancestor.

End Offspring.

(** An agent stands on a cell of the grid of side [d]. *)
Definition on_grid (d : Z) (a : Individual) : Prop :=
  (0 ≤ x (pos a) < d)%Z ∧ (0 ≤ y (pos a) < d)%Z.

(** The generation that [init_anns_from_archive] extracts. *)
Definition archive_generation (param : Param) : Z :=
  if decide (0 ≤ initG param)%Z then Z.min (initG param) (G param - 1)
  else (G param - 1)%Z.

(** The simulation keeps its parameters and the shape of its landscape. *)
Definition same_setup (S S' : Simulation) : Prop :=
  param_ S' = param_ S
  ∧ dim (landscape_ S') = dim (landscape_ S)
  ∧ capacity (landscape_ S') = capacity (landscape_ S).

Section Recorder.
Context {Obs : Type} (notify : Obs → Simulation → msg_type → bool * Obs).

(** An observer that answers as [notify] does and keeps the messages it
    was notified with, the oldest first. *)
Definition recorder (o : Obs * list msg_type) (sim : Simulation) (msg : msg_type)
  : bool * (Obs * list msg_type) :=
  let '(ok, o') := notify (fst o) sim msg in
  (ok, (o', snd o ++ [msg])).

End Recorder.

(** The messages of one generation with [t] timesteps. *)
Definition generation_messages (t : nat) : list msg_type :=
  NEW_GENERATION :: replicate t POST_TIMESTEP ++ [GENERATION].


Section Flows.
Context {Obs : Type}.

(** The world that a part of [run] leaves, and its simulation. *)
Definition flow_world (f : @flow Obs) : world :=
  match f with Next w => w | Returned w => w end.

Definition flow_sim (f : @flow Obs) : Simulation := fst (fst (flow_world f)).

End Flows.
End cine2.

(** ** Concrete data for evaluations *)

Module examples.
Import ann ann.activation ann.feedback cine2.

(** A biased neuron with identity activation and direct feedback, and an
    unbiased sigmoid neuron without feedback. *)
Definition recurrent_neuron : Neuron :=
  {| Input := 2; Act := identity; Fb := direct; Biased := true |}.

Definition plain_neuron : Neuron :=
  {| Input := 2; Act := sig_unipolar 1 1; Fb := none; Biased := false |}.

(** An instance of the collaborators, following the spec where it speaks:
    picking an item starts handling; a fleeing agent leaves the handling
    state and lands within the radius of its cell, wrapped; an offspring
    sprouts at the given cell.  Agents that do not handle step one cell
    along the x axis when they move; networks are left as they are. *)
Definition example_flee (L : Landscape) (radius : Z) (a : Individual) (g : reng)
  : Individual * reng :=
  let '(dx, g1) := uniform_int (- radius) radius g in
  let '(dy, g2) := uniform_int (- radius) radius g1 in
  (set_handling
     (set_pos a (wrap (dim L) (Coordinate_add (pos a) {| x := dx; y := dy |})))
     false 0,
   g2).

Definition example_sprout (t : Individual) (p : Coordinate) (k : nat) : Individual :=
  {| pos := p; foraging := true; handling := false; handle_time := 0;
     food := 0; ancestor := k |}.

Definition example_step (d : Z) (a : Individual) : Individual :=
  if handling a then a
  else set_pos a (wrap d (Coordinate_add (pos a) {| x := 1; y := 0 |})).

#[export] Instance example_collaborators : Collaborators := {|
  Individual_new := {| pos := {| x := 0; y := 0 |}; foraging := true;
                       handling := false; handle_time := 0; food := 0;
                       ancestor := 0 |};
  pick_item := λ a, set_handling a true 0;
  do_handle := λ a, a;
  flee := example_flee;
  sprout := example_sprout;
  make_any_ann := λ _ n, {| type_size := 1; blocks := replicate n [0%Q] |};
  move := λ a L agents _ g, (a, map (example_step (dim L)) agents, g);
  mutate := λ a _ _ g, (a, g);
  pow := λ b e, Qpower b (Qfloor e);
|}.

(** A landscape of side 32: capacity 1/2 everywhere, two items on every
    cell, and a handler density of 1 on the cell (0, 0). *)
Definition example_landscape : Landscape :=
  {| dim := 32;
     capacity := replicate 1024 (1 # 2);
     items := replicate 1024 2%Q;
     foragers_count := replicate 1024 0%Q;
     foragers := replicate 1024 0%Q;
     klepts_count := replicate 1024 0%Q;
     klepts := replicate 1024 0%Q;
     handlers_count := replicate 1024 0%Q;
     handlers := 1%Q :: replicate 1023 0%Q;
     temp := replicate 1024 0%Q |}.

(** The kernel averages a cell and its neighbour along the x axis. *)
Definition example_param : Param :=
  {| G := 10;
     initG := -1;
     landscape := {| max_item_cap := 5; item_growth := 0; detection_rate := 1 # 5;
                     foragers_kernel := [({| x := 0; y := 0 |}, 1 # 2);
                                         ({| x := 1; y := 0 |}, 1 # 2)] |};
     agents := {| agents_N := 3; agents_L := 3; sprout_radius := 2;
                  flee_radius := 1; cmplx_penalty := 0 |};
     init_agents_ann := None |}.

Definition example_reng : reng :=
  {| tape := λ i, (7919 * Z.of_nat i + 12)%Z; cursor := 0 |}.

(** An agent that neither forages nor handles, and an agent that handles
    with [t] on its timer, both on the cell [p]. *)
Definition klept_at (p : Coordinate) : Individual :=
  {| pos := p; foraging := false; handling := false; handle_time := 0;
     food := 0; ancestor := 0 |}.

Definition handler_at (p : Coordinate) (t : Z) : Individual :=
  {| pos := p; foraging := true; handling := true; handle_time := t;
     food := 0; ancestor := 0 |}.

Definition origin : Coordinate := {| x := 0; y := 0 |}.

(** Three agents: one that neither forages nor handles on the cell
    (31, 0), and two that handle on the cell (1, 0). *)
Definition example_population : Population :=
  {| pop := [klept_at {| x := 31; y := 0 |};
             handler_at {| x := 1; y := 0 |} 3;
             handler_at {| x := 1; y := 0 |} 4];
     tmp_pop := replicate 3 Individual_new;
     ann := make_any_ann 3 3;
     tmp_ann := make_any_ann 3 3;
     fitness := [1; 1; 2]%Q;
     rdist := [1; 1; 2]%Q |}.

Definition example_simulation : Simulation :=
  {| g_ := 0; t_ := 0; param_ := example_param;
     landscape_ := example_landscape; agents_ := example_population |}.


(** A network of two layers over the neurons above: two recurrent
    neurons, then one plain neuron that reads their outputs. *)
Definition example_network : list ann.Layer :=
  [ {| ann.neuron_t := recurrent_neuron; ann.size := 2 |};
    {| ann.neuron_t := plain_neuron; ann.size := 1 |} ].

(** A landscape of side 2 at full item cover, without handler density;
    a forager and a handler on it. *)
Definition small_landscape : Landscape :=
  {| dim := 2;
     capacity := replicate 4 (1 # 2);
     items := replicate 4 2%Q;
     foragers_count := replicate 4 0%Q;
     foragers := replicate 4 0%Q;
     klepts_count := replicate 4 0%Q;
     klepts := replicate 4 0%Q;
     handlers_count := replicate 4 0%Q;
     handlers := replicate 4 0%Q;
     temp := replicate 4 0%Q |}.

Definition forager_at (p : Coordinate) : Individual :=
  {| pos := p; foraging := true; handling := false; handle_time := 0;
     food := 0; ancestor := 0 |}.

Definition calm_population : Population :=
  {| pop := [forager_at origin; handler_at {| x := 1; y := 0 |} 3];
     tmp_pop := replicate 2 Individual_new;
     ann := make_any_ann 3 2;
     tmp_ann := make_any_ann 3 2;
     fitness := [0; 0]%Q;
     rdist := [1; 1]%Q |}.

Definition calm_param : Param :=
  {| G := 2;
     initG := -1;
     landscape := landscape example_param;
     agents := {| agents_N := 2; agents_L := 3; sprout_radius := 1;
                  flee_radius := 1; cmplx_penalty := 0 |};
     init_agents_ann := None |}.

Definition calm_simulation : Simulation :=
  {| g_ := -1; t_ := -1; param_ := calm_param;
     landscape_ := small_landscape; agents_ := calm_population |}.

(** One burn-in generation; generations of two timesteps. *)
Definition example_run_param : run_param := {| Gburnin := 1; T := 2; Tfix := 3 |}.

(** Every network has complexity 0; the fitness of an agent is its food
    plus 1, less the penalty for the complexity; no generation is
    fixed. *)
#[export] Instance example_surroundings : Surroundings := {|
  complexity := λ _ _, 0%Q;
  agents_fitness := λ a c p, (food a + 1 - p * c)%Q;
  fixed := λ _, false;
|}.

(** An observer without state that lets the run go on, and one that
    stops it. *)
Definition willing_observer (o : unit) (sim : Simulation) (msg : msg_type)
  : bool * unit := (true, o).

Definition unwilling_observer (o : unit) (sim : Simulation) (msg : msg_type)
  : bool * unit := (false, o).

(** A random engine whose raw draws are spread over the 32 bits. *)
Definition spread_reng : reng :=
  {| tape := λ i, (2654435761 * Z.of_nat (S i))%Z; cursor := 0 |}.

(** A stand-in for [std::exp] on [float] at the arguments where its
    result is beyond doubt: 1 at the zeros; the infinity above 89, where
    the exponential exceeds the largest [float]; 0 below -104, where it is
    less than half the least positive [float]; NaN at NaN.  In between it
    is the crude [1 + x]. *)
Definition example_exp (v : ann.float) : ann.float :=
  match v with
  | SpecFloat.S754_nan => ann.float_nan
  | SpecFloat.S754_zero _ => ann.float_of_Z 1
  | _ =>
      if SpecFloat.SFltb (ann.float_of_Z 89) v then ann.float_inf false
      else if SpecFloat.SFltb v (ann.float_of_Z (-104)) then ann.float_zero false
      else SpecFloat.SFadd 24 128 (ann.float_of_Z 1) v
  end.

(** A stand-in for [std::tanh] on [float]: the limits -1 and 1 away from
    0, the argument itself near 0. *)
Definition example_tanh (v : ann.float) : ann.float :=
  if SpecFloat.SFltb (ann.float_of_Z 1) v then ann.float_of_Z 1
  else if SpecFloat.SFltb v (ann.float_of_Z (-1)) then ann.float_of_Z (-1)
  else v.
End examples.

(** * Properties of the network engine *)

Section NeuronProperties.
Import ann ann.activation ann.feedback.
Context {T : Type} `{Arithmetic T}.

Lemma accumulate_sum_products (inp state : list T) (shift : nat) :
  ∀ (count i : nat) (u : T),
    shift ≤ i →
    i + count ≤ length state →
    i - shift + count ≤ length inp →
    accumulate inp state shift i count u
    = Some (sum_products u (take count (drop i state))
                           (take count (drop (i - shift) inp))).
Proof.
  induction count as [|count IH]; intros i u Hs Hst Hin; simpl.
  - by rewrite !take_0.
  - destruct (lookup_lt_is_Some_2 state i) as [w Hw]; [lia|].
    destruct (lookup_lt_is_Some_2 inp (i - shift)) as [v Hv]; [lia|].
    rewrite Hw, Hv. simpl.
    rewrite IH by lia.
    rewrite (drop_S _ _ _ Hw), (drop_S _ _ _ Hv). simpl.
    replace (S i - shift) with (S (i - shift)) by lia.
    reflexivity.
Qed.

Lemma activation_apply_range (a : Activation) (v : T) (state : list T) (ps : nat) :
  activation.apply a v state ps
  = activation.apply a v (take (activation.value a) (drop ps state)) 0.
Proof.
  destruct a; simpl; try reflexivity;
    rewrite lookup_take_lt, lookup_drop, Nat.add_0_r by lia; reflexivity.
Qed.

Lemma feed_weighted_sum (N : Neuron) (inp state : list T) :
  length inp = input_size N →
  input_weights N ≤ length state →
  (if biased N then
     u0 ← state !! 0; accumulate inp state 1 1 (input_size N) u0
   else accumulate inp state 0 0 (input_size N) (of_int 0))
  = weighted_sum N inp state
  ∧ is_Some (weighted_sum N inp state).
Proof.
  intros Hin Hst. unfold weighted_sum, input_weights_range.
  unfold input_weights in *. destruct (biased N).
  - destruct state as [|b state]; simpl in Hst; [lia|].
    replace (input_size N + 1) with (S (input_size N)) by lia. simpl.
    rewrite accumulate_sum_products by (simpl; lia). simpl.
    rewrite !drop_0, (take_ge inp) by lia. eauto.
  - rewrite accumulate_sum_products by lia. simpl.
    rewrite !drop_0, Nat.add_0_r, (take_ge inp) by lia. eauto.
Qed.

Lemma feedback_apply_ranges (N : Neuron) (u : T) (state : list T) :
  length state = state_size N →
  feedback.apply (Fb N) u state (feedback_begin N) (feedback_scratch_begin N)
  = ('(v, scratch') ← feedback_on (Fb N) u (feedback_range N state) (scratch_range N state);
     Some (v, take (feedback_scratch_begin N) state ++ scratch'))
  ∧ is_Some (feedback.apply (Fb N) u state (feedback_begin N) (feedback_scratch_begin N)).
Proof.
  intros Hlen. unfold feedback_range, scratch_range.
  unfold state_size, total_weights, feedback_scratch_begin, feedback_scratch,
    feedback_state, feedback_begin, activation_begin in *.
  set (fb := input_weights N + activation_state N) in *.
  destruct (Fb N); simpl in *.
  - rewrite take_0, app_nil_r, take_ge by lia. eauto.
  - rewrite !lookup_take_lt, !lookup_drop, !Nat.add_0_r by lia.
    destruct (lookup_lt_is_Some_2 state fb) as [p Hp]; [lia|].
    destruct (lookup_lt_is_Some_2 state (fb + 1)) as [q Hq]; [lia|].
    rewrite Hp, Hq. simpl. split; [|eauto].
    do 2 f_equal.
    rewrite <- (take_drop (fb + 1) state) at 1.
    rewrite insert_app_r_alt by (rewrite length_take; lia).
    rewrite length_take, Nat.min_l, Nat.sub_diag by lia.
    f_equal. rewrite take_ge by (rewrite length_drop; lia).
    reflexivity.
Qed.

Lemma take_drop_app_prefix {A} (l r : list A) (i k n : nat) :
  i + k ≤ n → n ≤ length l →
  take k (drop i (take n l ++ r)) = take k (drop i l).
Proof.
  intros Hik Hn.
  rewrite drop_app_le by (rewrite length_take; lia).
  rewrite take_app_le by (rewrite length_drop, length_take; lia).
  rewrite !take_drop_commute, take_take. do 2 f_equal. lia.
Qed.

Lemma activation_apply_is_Some (a : Activation) (v : T) (ps : list T) :
  activation.value a ≤ length ps → is_Some (activation.apply a v ps 0).
Proof.
  intros Hlen. destruct a; simpl in *; eauto;
    (destruct ps as [|p ps]; simpl in *; [lia | eauto]).
Qed.

(** C6. [Neuron::feed], for a neuron of any type, an input vector of
    [input_size] values and a state slice of [state_size] values, always
    returns, and what it returns is the contract's result: the weighted sum
    [u] (led by the bias weight exactly when the neuron is biased), the
    feedback function applied to [u] on the feedback-parameter and
    feedback-scratch sub-ranges, the activation function applied to that
    value on the activation sub-range. *)
Theorem feed_is_sum_feedback_activation (N : Neuron) (inp state : list T) :
  length inp = input_size N →
  length state = state_size N →
  feed N inp state = feed_contract N inp state ∧ is_Some (feed N inp state).
Proof.
  intros Hin Hst. unfold feed, feed_contract.
  destruct (feed_weighted_sum N inp state) as [-> [u ->]]; [done | |].
  { unfold state_size, total_weights in Hst. lia. }
  simpl.
  destruct (feedback_apply_ranges N u state Hst) as [-> Hsome].
  destruct (feedback_on (Fb N) u (feedback_range N state) (scratch_range N state))
    as [[v scratch']|] eqn:Hfb; simpl in *; [|by destruct Hsome].
  rewrite activation_apply_range.
  assert (activation_begin N + activation.value (Act N) ≤ feedback_scratch_begin N
          ∧ feedback_scratch_begin N ≤ length state) as [Hle Hle'].
  { unfold state_size, total_weights, feedback_scratch_begin, feedback_begin,
      activation_begin, activation_state in *. lia. }
  rewrite take_drop_app_prefix by done.
  fold (activation_state N). fold (activation_range N state).
  destruct (activation_apply_is_Some (Act N) v (activation_range N state)) as [y Hy].
  { unfold activation_range. rewrite length_take, length_drop.
    unfold activation_state in *. lia. }
  rewrite Hy. simpl. eauto.
Qed.

(** Without feedback [feed] returns, and returns the state it was given. *)
Lemma feed_none_state (N : Neuron) (inp state : list T) :
  Fb N = none →
  length inp = input_size N →
  length state = state_size N →
  ∃ y, feed N inp state = Some (y, state).
Proof.
  intros Hnone Hin Hst. unfold feed.
  destruct (feed_weighted_sum N inp state) as [-> [u ->]]; [done | |].
  { unfold state_size, total_weights in Hst. lia. }
  rewrite Hnone. cbn [feedback.apply mbind option_bind].
  rewrite activation_apply_range.
  destruct (activation_apply_is_Some (Act N) u
              (take (activation.value (Act N)) (drop (activation_begin N) state)))
    as [y ->]; [|by exists y].
  rewrite length_take, length_drop.
  unfold state_size, total_weights, activation_begin, activation_state in *. lia.
Qed.

(** C7. The feedback stage: with no feedback it returns [u] and leaves the
    state as it is; with direct feedback it returns
    [u + gain × previous_output], [previous_output] read from the scratch
    element, and overwrites the scratch element with that value.  For a
    neuron without feedback, whatever its activation, [feed] leaves the
    state unchanged, so a second call with the same input on the state
    left by the first returns the same output. *)
Theorem feedback_stage_and_repeatable_feed :
  (∀ (u : T) (state : list T) (ps scratch : nat),
      feedback.apply none u state ps scratch = Some (u, state))
  ∧ (∀ (u gain previous_output : T) (state : list T) (ps scratch : nat),
      state !! ps = Some gain →
      state !! scratch = Some previous_output →
      feedback.apply direct u state ps scratch
      = Some (add u (mul gain previous_output),
              <[scratch := add u (mul gain previous_output)]> state))
  ∧ (∀ (N : Neuron) (inp state : list T),
      Fb N = none →
      length inp = input_size N →
      length state = state_size N →
      ∃ y, feed N inp state = Some (y, state)
           ∧ ∀ y' state', feed N inp state = Some (y', state') →
                          state' = state ∧ feed N inp state' = Some (y', state')).
Proof.
  split; [done|]. split.
  - intros u gain prev state ps scratch Hp Hs. simpl. by rewrite Hp, Hs.
  - intros N inp state Hnone Hin Hst.
    destruct (feed_none_state N inp state Hnone Hin Hst) as [y Hy].
    exists y. split; [done|].
    intros y' state' Hy'. rewrite Hy in Hy'. by simplify_eq.
Qed.

End NeuronProperties.

(** ** The activations over the real numbers *)

Section RealActivations.
Import ann ann.activation ann.feedback examples.
Local Open Scope R_scope.

Lemma gt_R_true (a b : R) : b < a → gt a b = true.
Proof. intros Hlt. simpl. destruct (Rlt_dec b a); [done | lra]. Qed.

Lemma gt_R_false (a b : R) : a <= b → gt a b = false.
Proof. intros Hle. simpl. destruct (Rlt_dec b a); [lra | done]. Qed.

(** C4. What the hard-limit activations of the source return: for a
    positive net input the bipolar variant returns -1 and the unipolar
    variant 0; for every other net input both return 1.  This is the
    opposite of the sign step. *)
Theorem sgn_apply_is_inverted_step (u : R) (state : list R) (ps : nat) :
  (0 < u →
     activation.apply sgn_bipolar u state ps = Some (-1)
     ∧ activation.apply sgn_unipolar u state ps = Some 0)
  ∧ (u <= 0 →
     activation.apply sgn_bipolar u state ps = Some 1
     ∧ activation.apply sgn_unipolar u state ps = Some 1).
Proof.
  split; intros Hu; unfold activation.apply.
  - rewrite (gt_R_true u (of_int 0)) by (simpl; lra). done.
  - rewrite (gt_R_false u (of_int 0)) by (simpl; lra). done.
Qed.

Lemma sgn_apply_is_inverted_step_at_1 :
  activation.apply sgn_bipolar 1 [] 0 = Some (-1)
  ∧ activation.apply sgn_unipolar 1 [] 0 = Some 0.
Proof. apply (sgn_apply_is_inverted_step 1 [] 0). lra. Defined.

Lemma feed_is_sum_feedback_activation_witness :
  length [1; 1] = input_size recurrent_neuron
  ∧ length [1; 2; 3; 1 / 2; 4] = state_size recurrent_neuron
  ∧ feed recurrent_neuron [1; 1] [1; 2; 3; 1 / 2; 4]
    = feed_contract recurrent_neuron [1; 1] [1; 2; 3; 1 / 2; 4]
  ∧ is_Some (feed recurrent_neuron [1; 1] [1; 2; 3; 1 / 2; 4]).
Proof.
  split; [reflexivity|]. split; [reflexivity|].
  apply (feed_is_sum_feedback_activation recurrent_neuron); reflexivity.
Defined.

Lemma feedback_stage_and_repeatable_feed_witness :
  ∃ y, feed plain_neuron [1; 1] [2; 3] = Some (y, [2; 3])
       ∧ ∀ y' state', feed plain_neuron [1; 1] [2; 3] = Some (y', state') →
                      state' = [2; 3] ∧ feed plain_neuron [1; 1] state' = Some (y', state').
Proof.
  apply (proj2 (proj2 (@feedback_stage_and_repeatable_feed R _)) plain_neuron);
    reflexivity.
Defined.

(** With direct feedback two successive calls differ: the first leaves 8
    in the scratch element, the second returns 10. *)
Example feed_direct_twice :
  feed recurrent_neuron [1; 1] [1; 2; 3; 1 / 2; 4] = Some (1 + 2 * 1 + 3 * 1 + 1 / 2 * 4, [1; 2; 3; 1 / 2; 1 + 2 * 1 + 3 * 1 + 1 / 2 * 4])
  ∧ 1 + 2 * 1 + 3 * 1 + 1 / 2 * 4 = 8
  ∧ feed recurrent_neuron [1; 1] [1; 2; 3; 1 / 2; 8] = Some (1 + 2 * 1 + 3 * 1 + 1 / 2 * 8, [1; 2; 3; 1 / 2; 1 + 2 * 1 + 3 * 1 + 1 / 2 * 8])
  ∧ 1 + 2 * 1 + 3 * 1 + 1 / 2 * 8 = 10.
Proof. repeat split; try reflexivity; lra. Qed.

End RealActivations.

(** ** The sigmoid activations on [float] *)

Section FloatActivations.
Import ann ann.activation ann.feedback.
Variables c_exp c_tanh : float → float.

Lemma mul_finite_zero (a : float) (s : bool) :
  float_is_finite a = true →
  ∃ s', float_mul a (float_zero s) = float_zero s'.
Proof.
  destruct a as [sa| | |sa m e]; intros Hfin; try discriminate Hfin.
  - by exists (xorb sa s).
  - by exists (xorb sa s).
Qed.

Lemma sig_at_exp_one (n d : Z) (u : float) (state : list float) (ps : nat) :
  c_exp (float_mul (float_slope n d) u) = float_of_Z 1 →
  float_apply c_exp c_tanh (sig_bipolar n d) u state ps = Some (float_zero false)
  ∧ float_apply c_exp c_tanh (sig_unipolar n d) u state ps = Some float_half.
Proof.
  intros Hexp. unfold float_apply, activation.apply, float_slope in *. cbn.
  rewrite Hexp. split; reflexivity.
Qed.

Lemma sig_at_exp_overflow (n d : Z) (u : float) (state : list float) (ps : nat) :
  c_exp (float_mul (float_slope n d) u) = float_inf false →
  float_apply c_exp c_tanh (sig_bipolar n d) u state ps = Some float_nan
  ∧ float_apply c_exp c_tanh (sig_unipolar n d) u state ps = Some (float_zero false).
Proof.
  intros Hexp. unfold float_apply, activation.apply, float_slope in *. cbn.
  rewrite Hexp. split; reflexivity.
Qed.

Lemma float_le_nan (y : float) : float_le float_nan y = false ∧ float_le y float_nan = false.
Proof. split; [reflexivity|]. by destruct y. Qed.

(** C9. The fixed-slope sigmoids on [float].  At [u = 0], for every slope
    [n/d] that is a finite [float], they return the midpoint of their
    declared range: 0 for the bipolar variant (range [-1, 1]) and 0.5 for
    the unipolar variant (range [0, 1]).  Where [std::exp] overflows, the
    bipolar variant returns [(1 - inf) / (1 + inf)], which is NaN: a value
    outside the declared range that is not below or equal to any output,
    so the output is not monotonic in [u] over all inputs.  The unipolar
    variant returns 0 there. *)
Theorem sig_midpoint_and_overflow (n d : Z) (u : float) (state : list float) (ps : nat) :
  (c_exp (float_zero false) = float_of_Z 1 →
   c_exp (float_zero true) = float_of_Z 1 →
   float_is_finite (float_slope n d) = true →
   (float_apply c_exp c_tanh (sig_bipolar n d) (float_zero false) state ps
    = Some (float_zero false)
    ∧ float_div (float_add (float_min c_exp c_tanh (sig_bipolar n d))
                           (float_max c_exp c_tanh (sig_bipolar n d))) (float_of_Z 2)
      = float_zero false)
   ∧ (float_apply c_exp c_tanh (sig_unipolar n d) (float_zero false) state ps
      = Some float_half
      ∧ float_div (float_add (float_min c_exp c_tanh (sig_unipolar n d))
                             (float_max c_exp c_tanh (sig_unipolar n d))) (float_of_Z 2)
        = float_half))
  ∧ (c_exp (float_mul (float_slope n d) u) = float_inf false →
     float_apply c_exp c_tanh (sig_bipolar n d) u state ps = Some float_nan
     ∧ float_apply c_exp c_tanh (sig_unipolar n d) u state ps = Some (float_zero false)
     ∧ ∀ v yu yv,
         float_apply c_exp c_tanh (sig_bipolar n d) u state ps = Some yu →
         float_apply c_exp c_tanh (sig_bipolar n d) v state ps = Some yv →
         float_le yu yv = false ∧ float_le yv yu = false).
Proof.
  split.
  - intros Hpos Hneg Hfin.
    destruct (mul_finite_zero (float_slope n d) false Hfin) as [s' Hzero].
    assert (c_exp (float_mul (float_slope n d) (float_zero false)) = float_of_Z 1) as Hexp.
    { rewrite Hzero. by destruct s'. }
    destruct (sig_at_exp_one n d (float_zero false) state ps Hexp) as [Hbi Huni].
    split; (split; [done | reflexivity]).
  - intros Hover.
    destruct (sig_at_exp_overflow n d u state ps Hover) as [Hbi Huni].
    split; [done|]. split; [done|].
    intros v yu yv Hyu Hyv. rewrite Hbi in Hyu. injection Hyu as <-.
    apply float_le_nan.
Qed.

(** X10. The other sigmoids where [std::exp] saturates, on [float]: where
    it overflows, [varsig::unipolar] returns 0, the lower end of its
    range, and [varsig::bipolar] returns NaN, outside its range; where it
    underflows to 0, all four sigmoids return 1, the upper end of their
    range. *)
Theorem sigmoids_where_exp_saturates (n d : Z) (p u : float) (state : list float)
    (ps : nat) :
  state !! ps = Some p →
  (c_exp (float_mul (SpecFloat.SFopp p) u) = float_inf false →
   float_apply c_exp c_tanh varsig_bipolar u state ps = Some float_nan
   ∧ float_apply c_exp c_tanh varsig_unipolar u state ps = Some (float_zero false))
  ∧ (c_exp (float_mul (SpecFloat.SFopp p) u) = float_zero false →
     float_apply c_exp c_tanh varsig_bipolar u state ps = Some (float_of_Z 1)
     ∧ float_apply c_exp c_tanh varsig_unipolar u state ps = Some (float_of_Z 1))
  ∧ (c_exp (float_mul (float_slope n d) u) = float_zero false →
     float_apply c_exp c_tanh (sig_bipolar n d) u state ps = Some (float_of_Z 1)
     ∧ float_apply c_exp c_tanh (sig_unipolar n d) u state ps = Some (float_of_Z 1)).
Proof.
  intros Hp. unfold float_apply, activation.apply, float_slope. cbn.
  rewrite Hp. cbn [mbind option_bind].
  split; [|split]; intros ->; split; reflexivity.
Qed.

End FloatActivations.

(** * Properties of the simulation driver *)

Section Draws.
Import cine2.

Lemma canonical_range (k : Z) : (0 <= canonical k)%Q ∧ (canonical k < 1)%Q.
Proof.
  unfold canonical, Qle, Qlt. simpl.
  pose proof (Z.mod_pos_bound k (2 ^ 32) ltac:(lia)) as Hk.
  change (Z.pow_pos 2 32) with (2 ^ 32)%Z in *.
  split; lia.
Qed.

Lemma bernoulli_1 (g : reng) : bernoulli 1 g = (true, snd (next g)).
Proof.
  unfold bernoulli. simpl.
  destruct (Qlt_le_dec (canonical (tape g (cursor g))) 1) as [_|Hge]; [done|].
  destruct (canonical_range (tape g (cursor g))) as [_ Hlt]. lra.
Qed.

Lemma uniform_int_range (lo hi : Z) (g : reng) :
  (lo ≤ hi)%Z → (lo ≤ fst (uniform_int lo hi g) ≤ hi)%Z.
Proof.
  intros Hle. unfold uniform_int. simpl.
  pose proof (Z.mod_pos_bound (tape g (cursor g)) (hi - lo + 1) ltac:(lia)). lia.
Qed.

Lemma uniform_int_point (lo : Z) (g : reng) :
  uniform_int lo lo g = (lo, snd (next g)).
Proof.
  unfold uniform_int. simpl. f_equal.
  replace (lo - lo + 1)%Z with 1%Z by lia. rewrite Z.mod_1_r. lia.
Qed.

Lemma roulette_lt (ws : list Q) :
  ∀ t : Q, (0 <= t)%Q → (t < Qsum ws)%Q → roulette ws t < length ws.
Proof.
  induction ws as [|w ws IH]; intros t H0 Hlt; simpl in *.
  - lra.
  - destruct (Qlt_le_dec t w) as [_|Hge]; [lia|].
    apply -> Nat.succ_lt_mono. apply IH.
    + lra.
    + lra.
Qed.

Lemma rdist_sample_lt (ws : list Q) (g : reng) :
  (0 < Qsum ws)%Q → fst (rdist_sample ws g) < length ws.
Proof.
  intros Hpos. unfold rdist_sample. simpl.
  destruct (canonical_range (tape g (cursor g))) as [H0 H1].
  apply roulette_lt.
  - nra.
  - nra.
Qed.

Lemma advance_0 (g : reng) : advance g 0 = g.
Proof. destruct g. unfold advance. simpl. f_equal. lia. Qed.

Lemma advance_next (g : reng) (n : nat) : advance (snd (next g)) n = advance g (S n).
Proof. unfold advance. simpl. f_equal. lia. Qed.

Lemma advance_advance (g : reng) (n m : nat) : advance (advance g n) m = advance g (n + m).
Proof. unfold advance. simpl. f_equal. lia. Qed.

Lemma rdist_sample_draws (ws : list Q) (g : reng) :
  snd (rdist_sample ws g) = advance g 1.
Proof. unfold rdist_sample, advance. simpl. f_equal. lia. Qed.

Lemma uniform_int_advance (lo hi : Z) (g : reng) :
  snd (uniform_int lo hi g) = advance g 1.
Proof. unfold uniform_int, advance. simpl. f_equal. lia. Qed.

End Draws.

(** ** The item layer *)

Section Items.
Import cine2.
Context `{Collaborators}.

Lemma store_Some {A} (l l' : list A) (i : nat) (v : A) :
  store l i v = Some l' ↔ i < length l ∧ l' = <[i := v]> l.
Proof.
  unfold store. destruct (decide (i < length l)) as [Hlt|Hge]; split.
  - intros [= <-]. done.
  - intros [_ ->]. done.
  - done.
  - intros [Hlt _]. lia.
Qed.

Lemma store_lt {A} (l : list A) (i : nat) (v : A) :
  i < length l → store l i v = Some (<[i := v]> l).
Proof. intros Hlt. by apply store_Some. Qed.

Lemma init_items_spec (cap : Layer) (m : Q) :
  ∀ (count i : nat) (its : Layer),
    i + count ≤ length cap →
    i + count ≤ length its →
    ∃ its', init_items cap m i count its = Some its'
            ∧ length its' = length its
            ∧ ∀ j, its' !! j
                   = if decide (i ≤ j < i + count)
                     then (λ c, floor (c * m)) <$> cap !! j
                     else its !! j.
Proof.
  induction count as [|count IH]; intros i its Hcap Hits; simpl.
  - exists its. split; [done|]. split; [done|].
    intros j. case_decide; [lia | done].
  - destruct (lookup_lt_is_Some_2 cap i) as [c Hc]; [lia|].
    rewrite Hc. simpl. rewrite store_lt by lia. simpl.
    destruct (IH (S i) (<[i := floor (c * m)]> its)) as (its' & -> & Hlen & Hj).
    { lia. } { rewrite length_insert. lia. }
    exists its'. split; [done|]. rewrite length_insert in Hlen. split; [done|].
    intros j. rewrite Hj.
    destruct (decide (j = i)) as [->|Hne].
    + rewrite list_lookup_insert_eq, Hc by lia. repeat case_decide; (done || lia).
    + rewrite list_lookup_insert_ne by done. repeat case_decide; (done || lia).
Qed.

Lemma floor_nonneg (q : Q) : (0 <= q)%Q → (0 <= floor q)%Q.
Proof.
  intros Hq. unfold floor.
  change 0%Q with (inject_Z 0). rewrite <- Zle_Qle.
  rewrite <- (Qfloor_Z 0). by apply Qfloor_resp_le.
Qed.

(** C10. The constructor sets the item count of every cell to
    [floor(capacity × max_item_cap)] of that cell, so no cell exceeds that
    bound, and no cell is negative where [capacity × max_item_cap] is not
    negative; the constructor returns for a landscape of side 32 or more
    when no archive is given. *)
Theorem items_start_at_full_cover (param : Param) (L0 : Landscape) (g : reng) :
  length (capacity L0) = Z.to_nat (dim L0 * dim L0) →
  length (items L0) = Z.to_nat (dim L0 * dim L0) →
  (∀ S g', Simulation_new param L0 g = Some (S, g') →
     capacity (landscape_ S) = capacity L0
     ∧ length (items (landscape_ S)) = length (capacity L0)
     ∧ ∀ i c, capacity L0 !! i = Some c →
         let full := floor (c * max_item_cap (landscape param)) in
         items (landscape_ S) !! i = Some full
         ∧ (full <= floor (c * max_item_cap (landscape param)))%Q
         ∧ ((0 <= c * max_item_cap (landscape param))%Q → (0 <= full)%Q))
  ∧ ((32 ≤ dim L0)%Z → init_agents_ann param = None →
     is_Some (Simulation_new param L0 g)).
Proof.
  intros Hcap Hits. unfold Simulation_new.
  destruct (init_items_spec (capacity L0) (max_item_cap (landscape param))
              (Z.to_nat (dim L0 * dim L0)) 0 (items L0))
    as (its & -> & Hlen & Hj); [lia | lia |].
  split.
  - intros S g'. case_decide; [done|]. simpl.
    destruct (init_positions _ _ _) as [agents1 g1].
    destruct (match init_agents_ann param with Some _ => _ | None => _ end)
      as [P2|]; simpl; [|done].
    intros Heq. injection Heq as <- <-. simpl.
    split; [done|]. split; [lia|].
    intros i c Hc. split; [|split].
    + rewrite Hj, Hc. apply lookup_lt_Some in Hc.
      case_decide; [done | lia].
    + apply Qle_refl.
    + apply floor_nonneg.
  - intros Hdim ->. case_decide; [lia|]. simpl.
    destruct (init_positions _ _ _) as [agents1 g1]. simpl. eauto.
Qed.

Lemma floor_le (q : Q) : (floor q <= q)%Q.
Proof. apply Qfloor_le. Qed.

Lemma floor_gt (q : Q) : (q < floor q + 1)%Q.
Proof.
  unfold floor. change 1%Q with (inject_Z 1). rewrite <- inject_Z_plus.
  apply Qlt_floor.
Qed.

Lemma grown_bounds (m c it it' : Q) :
  (0 <= it)%Q → (it <= floor (c * m))%Q →
  it' = it ∨ it' = Qmin (floor (c * m)) (floor (it + 1)) →
  ((0 <= it')%Q ∧ (it' <= floor (c * m))%Q) ∧ (it <= it')%Q ∧ (it' <= it + 1)%Q.
Proof.
  intros H0 Hcap [->| ->]; [lra|].
  pose proof (floor_le (it + 1)) as Hle.
  pose proof (floor_gt (it + 1)) as Hgt.
  destruct (Q.min_spec (floor (c * m)) (floor (it + 1))) as [[? Heq]|[? Heq]]; lra.
Qed.

Lemma grow_items_spec (cap : Layer) (m growth : Q) :
  ∀ (count i : nat) (its : Layer) (g : reng),
    i + count ≤ length cap →
    i + count ≤ length its →
    ∃ its' g', grow_items cap m growth i count its g = Some (its', g')
      ∧ length its' = length its
      ∧ ∀ j,
          (¬ (i ≤ j < i + count) → its' !! j = its !! j)
          ∧ (i ≤ j < i + count →
             ∃ c it it', cap !! j = Some c ∧ its !! j = Some it
               ∧ its' !! j = Some it'
               ∧ (it' = it ∨ it' = Qmin (floor (c * m)) (floor (it + 1)))).
Proof.
  induction count as [|count IH]; intros i its g Hcap Hits; cbn [grow_items].
  - exists its, g. split; [done|]. split; [done|]. intros j. split; [done | lia].
  - destruct (lookup_lt_is_Some_2 cap i) as [c Hc]; [lia|].
    destruct (lookup_lt_is_Some_2 its i) as [it0 Hit0]; [lia|].
    destruct (bernoulli growth g) as [[|] g1].
    + rewrite Hc, Hit0. cbn [mbind option_bind].
      rewrite store_lt by lia. cbn [mbind option_bind].
      assert (∃ v, v = Qmin (floor (c * m)) (floor (it0 + 1))) as [v Hv] by eauto.
      rewrite <- Hv.
      destruct (IH (S i) (<[i := v]> its) g1) as (its' & g' & -> & Hlen & Hj).
      { lia. } { rewrite length_insert. lia. }
      exists its', g'. split; [done|]. rewrite length_insert in Hlen. split; [done|].
      intros j. destruct (Hj j) as [Hout Hin]. split.
      * intros Hj'. rewrite Hout by lia. apply list_lookup_insert_ne. lia.
      * intros Hj'. destruct (decide (j = i)) as [->|Hne].
        -- exists c, it0, v. rewrite Hout by lia.
           rewrite list_lookup_insert_eq by lia. subst v. eauto.
        -- destruct Hin as (c' & it & it' & ? & Hit & ? & ?); [lia|].
           rewrite list_lookup_insert_ne in Hit by done.
           exists c', it, it'. eauto.
    + destruct (IH (S i) its g1) as (its' & g' & -> & Hlen & Hj); [lia | lia |].
      exists its', g'. split; [done|]. split; [done|].
      intros j. destruct (Hj j) as [Hout Hin]. split.
      * intros Hj'. apply Hout. lia.
      * intros Hj'. destruct (decide (j = i)) as [->|Hne].
        -- exists c, it0, it0. rewrite Hout by lia. eauto.
        -- apply Hin. lia.
Qed.

Lemma grow_items_within_cap (cap : Layer) (m growth : Q) (its : Layer) (g : reng) :
  within_cap m cap its →
  ∃ its' g', grow_items cap m growth 0 (length cap) its g = Some (its', g')
    ∧ within_cap m cap its'
    ∧ Forall2 (λ it it', (it <= it')%Q ∧ (it' <= it + 1)%Q) its its'.
Proof.
  intros Hcap. pose proof (Forall2_length _ _ _ Hcap) as Hlen.
  destruct (grow_items_spec cap m growth (length cap) 0 its g)
    as (its' & g' & Hrun & Hlen' & Hj); [lia | lia |].
  exists its', g'. split; [done|].
  assert (∀ j c it it', cap !! j = Some c → its !! j = Some it → its' !! j = Some it' →
            ((0 <= it')%Q ∧ (it' <= floor (c * m))%Q)
            ∧ (it <= it')%Q ∧ (it' <= it + 1)%Q) as Hcell.
  { intros j c it it' Hc Hit Hit'.
    destruct (Hj j) as [_ Hin].
    destruct Hin as (c0 & it0 & it0' & ? & ? & ? & Hrel).
    { apply lookup_lt_Some in Hc. lia. }
    simplify_eq.
    destruct (Forall2_lookup_lr _ _ _ _ _ _ Hcap Hc Hit) as [? ?].
    by apply grown_bounds. }
  split.
  - apply Forall2_same_length_lookup. split; [lia|].
    intros j c it' Hc Hit'.
    destruct (lookup_lt_is_Some_2 its j) as [it Hit].
    { apply lookup_lt_Some in Hc. lia. }
    by destruct (Hcell j c it it').
  - apply Forall2_same_length_lookup. split; [lia|].
    intros j it it' Hit Hit'.
    destruct (lookup_lt_is_Some_2 cap j) as [c Hc].
    { apply lookup_lt_Some in Hit. lia. }
    by destruct (Hcell j c it it').
Qed.

Lemma within_cap_insert (m : Q) (cap its : Layer) (i : nat) (c v : Q) :
  within_cap m cap its →
  cap !! i = Some c →
  (0 <= v)%Q → (v <= floor (c * m))%Q →
  within_cap m cap (<[i := v]> its).
Proof.
  intros Hcap Hc H0 Hle. unfold within_cap.
  rewrite <- (list_insert_id cap i c Hc).
  by apply Forall2_insert.
Qed.

Lemma grow_items_preserves (cap : Layer) (m growth : Q) :
  ∀ (count i : nat) (its its' : Layer) (g g' : reng),
    grow_items cap m growth i count its g = Some (its', g') →
    within_cap m cap its → within_cap m cap its'.
Proof.
  induction count as [|count IH]; intros i its its' g g'; cbn [grow_items].
  - by intros [= <- <-].
  - destruct (bernoulli growth g) as [[|] g1]; [|by apply IH].
    destruct (cap !! i) as [c|] eqn:Hc; [|done].
    destruct (its !! i) as [it|] eqn:Hit; [|done].
    cbn [mbind option_bind].
    destruct (store its i _) as [its1|] eqn:Hst; [|done].
    apply store_Some in Hst as [_ ->].
    cbn [mbind option_bind]. intros Hrun Hcap.
    apply (IH _ _ _ _ _ Hrun).
    destruct (Forall2_lookup_lr _ _ _ _ _ _ Hcap Hc Hit) as [? ?].
    destruct (grown_bounds m c it (Qmin (floor (c * m)) (floor (it + 1))))
      as [[? ?] _]; [done | done | by right |].
    by apply (within_cap_insert m cap its i c).
Qed.

Lemma geb_true (a b : Q) : geb a b = true → (b <= a)%Q.
Proof. unfold geb. by destruct (Qlt_le_dec a b). Qed.

(** The first loop touches the item layer only by taking one item from a
    cell that holds at least one. *)
Lemma forage_one_items (rate : Q) (d : Z) (a a' : Individual) (its its' : Layer)
    (g g' : reng) :
  forage_one rate d a its g = Some (a', its', g') →
  its' = its
  ∨ ∃ c it, cell d (pos a) = Some c ∧ its !! c = Some it ∧ (1 <= it)%Q
            ∧ its' = <[c := (it - 1)%Q]> its.
Proof.
  unfold forage_one.
  destruct (negb (handle a) && foraging a); [|intros [= _ <- _]; by left].
  destruct (cell d (pos a)) as [c|]; [|done]. cbn [mbind option_bind].
  destruct (its !! c) as [it|] eqn:Hit; [|done]. cbn [mbind option_bind].
  destruct (geb it 1) eqn:Hge; [|intros [= _ <- _]; by left].
  destruct (bernoulli _ g) as [[|] g1]; intros [= _ <- _]; [|by left].
  right. exists c, it. eauto using geb_true.
Qed.

Lemma forage_one_within_cap (m rate : Q) (d : Z) (cap : Layer) (a a' : Individual)
    (its its' : Layer) (g g' : reng) :
  forage_one rate d a its g = Some (a', its', g') →
  within_cap m cap its →
  within_cap m cap its' ∧ Forall2 (λ it it', (it' <= it)%Q) its its'.
Proof.
  intros Hrun Hcap.
  assert (Forall2 (λ it it', (it' <= it)%Q) its its) as Hrefl.
  { apply Forall2_same_length_lookup. split; [done|].
    intros i x y Hx Hy. assert (x = y) as -> by congruence. lra. }
  destruct (forage_one_items _ _ _ _ _ _ _ _ Hrun) as [->|(c & it & _ & Hit & Hge & ->)];
    [done|].
  destruct (lookup_lt_is_Some_2 cap c) as [cv Hcv].
  { rewrite (Forall2_length _ _ _ Hcap). by apply lookup_lt_Some in Hit. }
  destruct (Forall2_lookup_lr _ _ _ _ _ _ Hcap Hcv Hit) as [? ?].
  split.
  - apply (within_cap_insert m cap its c cv); [done | done | lra | lra].
  - rewrite <- (list_insert_id its c it Hit) at 1.
    apply Forall2_insert; [done | lra].
Qed.

Lemma forage_within_cap (m rate : Q) (d : Z) (cap : Layer) :
  ∀ (agents agents' : list Individual) (its its' : Layer) (g g' : reng),
    forage rate d agents its g = Some (agents', its', g') →
    within_cap m cap its →
    within_cap m cap its' ∧ Forall2 (λ it it', (it' <= it)%Q) its its'
    ∧ length agents' = length agents.
Proof.
  intros agents. induction agents as [|a agents IH]; intros agents' its its' g g'; cbn [forage].
  - intros [= <- <- <-] Hcap. split; [done|]. split; [|done].
    apply Forall2_same_length_lookup. split; [done|].
    intros i x y Hx Hy. assert (x = y) as -> by congruence. lra.
  - destruct (forage_one rate d a its g) as [[[a1 its1] g1]|] eqn:Hone; [|done].
    cbn [mbind option_bind].
    destruct (forage rate d agents its1 g1) as [[[rest its2] g2]|] eqn:Hrest; [|done].
    cbn [mbind option_bind]. intros [= <- <- <-] Hcap.
    destruct (forage_one_within_cap m _ _ cap _ _ _ _ _ _ Hone Hcap) as [Hcap1 Hle1].
    destruct (IH _ _ _ _ _ Hrest Hcap1) as (Hcap2 & Hle2 & Hlen).
    split; [done|]. split; [|simpl; lia].
    apply Forall2_same_length_lookup.
    split; [rewrite (Forall2_length _ _ _ Hle1); by apply Forall2_length in Hle2|].
    intros i x z Hx Hz.
    destruct (lookup_lt_is_Some_2 its1 i) as [y Hy].
    { rewrite <- (Forall2_length _ _ _ Hle1). by apply lookup_lt_Some in Hx. }
    pose proof (Forall2_lookup_lr _ _ _ _ _ _ Hle1 Hx Hy).
    pose proof (Forall2_lookup_lr _ _ _ _ _ _ Hle2 Hy Hz). simpl in *. lra.
Qed.

Lemma cell_lt (d : Z) (p : Coordinate) (c : nat) :
  cell d p = Some c → c < Z.to_nat (d * d).
Proof.
  unfold cell. case_decide as Hin; [|done]. intros [= <-]. nia.
Qed.

Lemma forage_one_total (rate : Q) (d : Z) (a : Individual) (its : Layer) (g : reng) :
  is_Some (cell d (pos a)) → length its = Z.to_nat (d * d) →
  ∃ a' its' g', forage_one rate d a its g = Some (a', its', g')
                ∧ length its' = length its.
Proof.
  intros [c Hc] Hlen. unfold forage_one.
  destruct (negb (handle a) && foraging a); [|eauto 6].
  rewrite Hc. cbn [mbind option_bind].
  destruct (lookup_lt_is_Some_2 its c) as [it ->].
  { apply cell_lt in Hc. lia. }
  cbn [mbind option_bind].
  destruct (geb it 1); [|eauto 6].
  destruct (bernoulli _ g) as [[|] g1]; [|eauto 6].
  eexists _, _, _. split; [done|]. by rewrite length_insert.
Qed.

Lemma forage_total (rate : Q) (d : Z) :
  ∀ (agents : list Individual) (its : Layer) (g : reng),
    Forall (λ a, is_Some (cell d (pos a))) agents →
    length its = Z.to_nat (d * d) →
    is_Some (forage rate d agents its g).
Proof.
  intros agents. induction agents as [|a agents IH]; intros its g Hgrid Hlen; cbn [forage].
  - eauto.
  - inversion Hgrid as [|? ? Ha Hrest]; subst.
    destruct (forage_one_total rate d a its g Ha Hlen) as (a1 & its1 & g1 & -> & Hlen1).
    cbn [mbind option_bind].
    destruct (IH its1 g1 Hrest) as [[[rest its2] g2] ->]; [lia|].
    cbn [mbind option_bind]. eauto.
Qed.

(** Case analysis on the next step of a computation that returned. *)
Ltac step_some H :=
  match type of H with
  | (?o ≫= _) = Some _ =>
      let E := fresh "Hstep" in
      destruct o as [?|] eqn:E; cbn [mbind option_bind] in H; [|discriminate H]
  | (let '(_, _) := ?p in _) = Some _ => destruct p
  | (match ?p with (_, _) => _ end) = Some _ => destruct p
  end.

Lemma resolve_items (param : Param) (L L' : Landscape)
    (agents agents' : list Individual) (g g' : reng) :
  resolve_grazing_and_attacks param L agents g = Some (L', agents', g') →
  capacity L' = capacity L ∧ dim L' = dim L
  ∧ ∀ m, within_cap m (capacity L) (items L) → within_cap m (capacity L) (items L').
Proof.
  unfold resolve_grazing_and_attacks. intros Hrun.
  repeat step_some Hrun.
  injection Hrun as <- <- <-. simpl. split; [done|]. split; [done|].
  intros m Hcap.
  match goal with
  | Hf : forage _ _ _ _ _ = Some _ |- _ =>
      by destruct (forage_within_cap m _ _ (capacity L) _ _ _ _ _ _ Hf Hcap)
  end.
Qed.

(** C5. The item count of every cell stays within
    [0, floor(capacity × max_item_cap)] under the updates of a timestep.
    The growth loop returns, leaves every cell within the bound and adds
    at most one item to a cell; the foraging loop returns when every agent
    is on the grid, leaves every cell within the bound and lowers no cell
    below 0; each of its steps leaves the item layer as it is or takes
    one item from a cell that holds at least one; a whole timestep that
    returns leaves every cell within the bound. *)
Theorem items_stay_within_cap :
  (∀ (S : Simulation) (g : reng),
     let L := landscape_ S in
     let m := max_item_cap (landscape (param_ S)) in
     Z.to_nat (dim L * dim L) = length (capacity L) →
     within_cap m (capacity L) (items L) →
     ∃ S' g', growth_phase S g = Some (S', g')
       ∧ capacity (landscape_ S') = capacity L
       ∧ within_cap m (capacity L) (items (landscape_ S'))
       ∧ Forall2 (λ it it', (it <= it')%Q ∧ (it' <= it + 1)%Q)
                 (items L) (items (landscape_ S')))
  ∧ (∀ (m rate : Q) (d : Z) (cap its : Layer) (agents : list Individual) (g : reng),
       Forall (λ a, is_Some (cell d (pos a))) agents →
       length its = Z.to_nat (d * d) →
       within_cap m cap its →
       ∃ agents' its' g', forage rate d agents its g = Some (agents', its', g')
         ∧ within_cap m cap its'
         ∧ Forall2 (λ it it', (it' <= it)%Q) its its')
  ∧ (∀ (rate : Q) (d : Z) (a a' : Individual) (its its' : Layer) (g g' : reng),
       forage_one rate d a its g = Some (a', its', g') →
       its' = its
       ∨ ∃ c it, cell d (pos a) = Some c ∧ its !! c = Some it ∧ (1 <= it)%Q
                 ∧ its' = <[c := (it - 1)%Q]> its)
  ∧ (∀ (S S' : Simulation) (g g' : reng),
       let m := max_item_cap (landscape (param_ S)) in
       simulate_timestep S g = Some (S', g') →
       within_cap m (capacity (landscape_ S)) (items (landscape_ S)) →
       capacity (landscape_ S') = capacity (landscape_ S)
       ∧ within_cap m (capacity (landscape_ S)) (items (landscape_ S'))).
Proof.
  split; [|split; [|split]].
  - intros S g L m Hdim Hcap. unfold growth_phase. fold L. rewrite Hdim.
    destruct (grow_items_within_cap (capacity L) m
                (item_growth (landscape (param_ S))) (items L) g Hcap)
      as (its' & g' & Hrun & Hcap' & Hstep).
    fold m. rewrite Hrun. cbn [mbind option_bind]. eauto 6.
  - intros m rate d cap its agents g Hgrid Hlen Hcap.
    destruct (forage_total rate d agents its g Hgrid Hlen) as [[[agents' its'] g'] Hrun].
    destruct (forage_within_cap m rate d cap _ _ _ _ _ _ Hrun Hcap) as (? & ? & _).
    eauto 8.
  - apply forage_one_items.
  - intros S S' g g' m Hrun Hcap.
    unfold simulate_timestep, before_conflicts in Hrun.
    destruct (growth_phase S g) as [[S1 g1]|] eqn:Hgrow;
      cbn [mbind option_bind] in Hrun; [|done].
    destruct (move_phase _ g1) as [S3 g3] eqn:Hmove.
    cbn [mbind option_bind] in Hrun.
    destruct (conflict_phase S3 g3) as [[S4 g4]|] eqn:Hconf;
      cbn [mbind option_bind] in Hrun; [|done].
    injection Hrun as <- <-.
    (* growth *)
    unfold growth_phase in Hgrow.
    destruct (grow_items _ _ _ _ _ _ _) as [[its1 g1']|] eqn:Hgi;
      cbn [mbind option_bind] in Hgrow; [|done].
    injection Hgrow as <- <-.
    pose proof (grow_items_preserves _ _ _ _ _ _ _ _ _ Hgi Hcap) as Hcap1.
    (* movement reads the landscape *)
    unfold move_phase in Hmove. simpl in Hmove.
    destruct (move _ _ _ _ _) as [[a agents3] g3'].
    injection Hmove as <- <-.
    (* conflicts *)
    unfold conflict_phase in Hconf. simpl in Hconf.
    destruct (resolve_grazing_and_attacks _ _ _ _) as [[[L4 agents4] g4']|] eqn:Hres;
      cbn [mbind option_bind] in Hconf; [|done].
    injection Hconf as <- <-.
    destruct (resolve_items _ _ _ _ _ _ _ Hres) as (Hc & _ & Hit).
    simpl in *. split; [done|]. by apply Hit.
Qed.

End Items.

(** ** Conflict resolution *)

Section Conflicts.
Import cine2 examples.
Context `{Collaborators}.

(** C1 (what the source does). An agent that neither forages nor handles
    stands alone on a cell where the [handlers] density layer reads 1.  It
    is collected as an attacker; it has no potential victim, so nothing is
    appended to the attacked list; the attacked list is then read at index
    0, past its end, and the call has no defined result. *)
Theorem resolve_reads_past_attacked_list (param : Param) (g : reng) :
  collect_attackers 32 (handlers example_landscape) 0 [klept_at origin] = Some [0]
  ∧ select_victims [klept_at origin] [0] g = Some ([], g)
  ∧ make_conflicts [0] [] = None
  ∧ fights example_landscape (flee_radius (agents param)) [0] [] 0 1
           [klept_at origin] g = None
  ∧ resolve_grazing_and_attacks param example_landscape [klept_at origin] g = None.
Proof. repeat split; reflexivity. Qed.

(** The part of the selection that holds: every potential victim of an
    attacker is another agent, on the attacker's cell, that handles. *)
Lemma potentially_attacked_sound (ai : Individual) (i : nat) :
  ∀ (rest : list Individual) (j v : nat),
    v ∈ potentially_attacked ai i j rest →
    ∃ av, rest !! (v - j) = Some av ∧ j ≤ v ∧ v ≠ i
          ∧ pos av = pos ai ∧ handling av = true.
Proof.
  induction rest as [|aj rest IH]; intros j v; cbn [potentially_attacked].
  - by intros ?%elem_of_nil.
  - assert (v ∈ potentially_attacked ai i (S j) rest →
            ∃ av, (aj :: rest) !! (v - j) = Some av ∧ j ≤ v ∧ v ≠ i
                  ∧ pos av = pos ai ∧ handling av = true) as Htail.
    { intros Hv. destruct (IH _ _ Hv) as (av & Hav & Hle & Hrest).
      exists av. replace (v - j) with (S (v - S j)) by lia.
      split; [done|]. split; [lia | done]. }
    destruct (bool_decide (pos ai = pos aj) && negb (i =? j) && handling aj) eqn:Hc;
      [|done].
    intros [->|Hv]%elem_of_cons; [|by apply Htail].
    apply andb_prop in Hc as [Hc Hh]. apply andb_prop in Hc as [Hp Hne].
    apply bool_decide_eq_true in Hp. apply negb_true_iff, Nat.eqb_neq in Hne.
    exists aj. rewrite Nat.sub_diag. eauto 6.
Qed.

Lemma select_victims_sound (agents : list Individual) :
  ∀ (attackers victims : list nat) (g g' : reng),
    select_victims agents attackers g = Some (victims, g') →
    length victims ≤ length attackers
    ∧ Forall (λ v, ∃ i ai av, i ∈ attackers ∧ agents !! i = Some ai
                     ∧ agents !! v = Some av ∧ v ≠ i
                     ∧ pos av = pos ai ∧ handling av = true) victims.
Proof.
  induction attackers as [|i attackers IH]; intros victims g g'; cbn [select_victims].
  - intros [= <- <-]. split; [done | constructor].
  - destruct (agents !! i) as [ai|] eqn:Hai; [|done]. cbn [mbind option_bind].
    destruct (potentially_attacked ai i 0 agents) as [|p ps] eqn:Hpot.
    + intros Hrest. destruct (IH _ _ _ Hrest) as [Hlen Hall].
      split; [simpl; lia|].
      eapply Forall_impl; [exact Hall|]. simpl.
      intros v (i' & ai' & av & ? & ?). exists i', ai', av. split; [by right | done].
    + destruct (uniform_int 0 _ g) as [focal g1].
      destruct ((p :: ps) !! Z.to_nat focal) as [v|] eqn:Hv; [|done].
      cbn [mbind option_bind].
      destruct (select_victims agents attackers g1) as [[vs g2]|] eqn:Hrest; [|done].
      cbn [mbind option_bind]. intros [= <- <-].
      destruct (IH _ _ _ Hrest) as [Hlen Hall].
      split; [simpl; lia|]. constructor.
      * assert (v ∈ potentially_attacked ai i 0 agents) as Hin.
        { rewrite Hpot. by eapply list_elem_of_lookup_2. }
        destruct (potentially_attacked_sound ai i agents 0 v Hin)
          as (av & Hav & _ & Hne & Hp & Hh).
        rewrite Nat.sub_0_r in Hav.
        exists i, ai, av. split; [by left | done].
      * eapply Forall_impl; [exact Hall|]. simpl.
        intros v' (i' & ai' & av & ? & ?). exists i', ai', av. split; [by right | done].
Qed.

(** The mechanism behind it: whenever fewer victims than attackers were
    selected, the pairing of [attacking_inds_[i]] with [attacked_inds[i]]
    reads past the end of the attacked list. *)
Lemma make_conflicts_short (attackers attacked : list nat) :
  length attacked < length attackers → make_conflicts attackers attacked = None.
Proof.
  intros Hlt. unfold make_conflicts.
  destruct (mapM _ _) as [cv|] eqn:Hcv; [|done].
  assert (is_Some (mapM
            (λ i, a ← attackers !! i; v ← attacked !! i; Some (a, v))
            (seq 0 (length attackers)))) as Hsome by (rewrite Hcv; eauto).
  apply mapM_is_Some in Hsome.
  rewrite Forall_forall in Hsome.
  destruct (Hsome (length attacked)) as [av Hav].
  { apply elem_of_seq. lia. }
  simpl in Hav.
  destruct (attackers !! length attacked); simpl in Hav; [|done].
  rewrite (lookup_ge_None_2 attacked (length attacked)) in Hav by lia. done.
Qed.

Lemma resolve_undefined_when_victim_missing (param : Param) (L : Landscape)
    (agents agents1 : list Individual) (its : list Q) (attackers victims : list nat)
    (g g1 g2 : reng) :
  forage (detection_rate (landscape param)) (dim L) agents (items L) g
  = Some (agents1, its, g1) →
  collect_attackers (dim L) (handlers L) 0 agents1 = Some attackers →
  select_victims agents1 attackers g1 = Some (victims, g2) →
  length victims < length attackers →
  resolve_grazing_and_attacks param L agents g = None.
Proof.
  intros Hforage Hcollect Hselect Hlt. unfold resolve_grazing_and_attacks.
  cbn [dim items handlers set_temp set_items].
  rewrite Hforage. cbn [mbind option_bind].
  rewrite Hcollect. cbn [mbind option_bind].
  rewrite Hselect. cbn [mbind option_bind].
  by rewrite make_conflicts_short.
Qed.

(** A fight against a victim that handles: both draws succeed, the
    attacker takes the victim's handling state and timer, the victim
    flees. *)
Lemma fight_one_taken (L : Landscape) (r : Z) (ai vi : nat) (a v : Individual)
    (agents : list Individual) (g : reng) :
  agents !! vi = Some v → handling v = true →
  agents !! ai = Some a → ai ≠ vi →
  fight_one L r ai vi agents g
  = (let '(v2, g3) := flee L r v (snd (next (snd (next g)))) in
     Some (<[vi := v2]> (<[ai := set_handling a true (handle_time v)]> agents), g3)).
Proof.
  intros Hv Hh Ha Hne. unfold fight_one.
  rewrite Hv. cbn [mbind option_bind]. rewrite Hh, !bernoulli_1, Ha.
  cbn [mbind option_bind].
  rewrite store_lt by (by eapply lookup_lt_Some). cbn [mbind option_bind].
  rewrite list_lookup_insert_ne, Hv by done. cbn [mbind option_bind].
  destruct (flee _ _ _ _) as [v2 g3].
  rewrite store_lt; [done|].
  rewrite length_insert. by eapply lookup_lt_Some.
Qed.

(** No fight against a victim that does not handle any more. *)
Lemma fight_one_skipped (L : Landscape) (r : Z) (ai vi : nat) (v : Individual)
    (agents : list Individual) (g : reng) :
  agents !! vi = Some v → handling v = false →
  fight_one L r ai vi agents g = Some (agents, g).
Proof. intros Hv Hh. unfold fight_one. rewrite Hv. simpl. by rewrite Hh. Qed.

(** C2 (what the source does). Two agents that neither forage nor handle
    share the cell (0, 0) with one handling agent.  Both are collected as
    attackers of that agent, and the pair list is shuffled; the fights are
    then resolved from [attacking_inds_] and [attacked_inds], in the order
    of collection.  When a fleeing agent no longer handles, the attacker of
    lower index takes the item over for every state of the random engine,
    hence for every outcome of the shuffle, and the other attacker gets
    nothing. *)
Theorem fights_follow_collection_order (param : Param) (t : Z) (g : reng) :
  (∀ L r a g0, handling (fst (flee L r a g0)) = false) →
  ∃ L' a0 a1 v g',
    resolve_grazing_and_attacks param example_landscape
      [klept_at origin; klept_at origin; handler_at origin t] g
    = Some (L', [a0; a1; v], g')
    ∧ a0 = set_handling (klept_at origin) true t
    ∧ a1 = klept_at origin
    ∧ handling v = false.
Proof.
  intros Hflee. unfold resolve_grazing_and_attacks.
  cbn [forage forage_one handle handling foraging klept_at handler_at negb andb
       mbind option_bind].
  change (collect_attackers _ _ 0 _) with (Some [0; 1]).
  cbn [mbind option_bind select_victims lookup list_lookup].
  change (potentially_attacked (klept_at origin) 0 0 _) with [2].
  change (potentially_attacked (klept_at origin) 1 0 _) with [2].
  cbn [length Nat.sub Z.of_nat].
  rewrite !uniform_int_point.
  change (Z.to_nat (Z.of_nat 0)) with 0.
  cbn [lookup list_lookup mbind option_bind].
  change (make_conflicts [0; 1] [2; 2]) with (Some [(0, 2); (1, 2)]).
  cbn [mbind option_bind].
  destruct (std_shuffle [(0, 2); (1, 2)] _) as [conflicts_v g3].
  cbn [length fights lookup list_lookup mbind option_bind].
  rewrite (fight_one_taken _ _ 0 2 (klept_at origin) (handler_at origin t))
    by done.
  set (L2 := set_items _ _) in *.
  pose proof (Hflee L2 (flee_radius (agents param))
                (handler_at origin t) (snd (next (snd (next g3))))) as Hv.
  destruct (flee _ _ _ _) as [v2 g4]. simpl in Hv.
  cbn [mbind option_bind list_insert insert].
  rewrite (fight_one_skipped _ _ 1 2 v2) by done.
  cbn [mbind option_bind].
  eexists _, _, _, _, _. split; [reflexivity|]. done.
Qed.

End Conflicts.

(** ** The order of the phases of a timestep *)

Section Phases.
Import cine2 examples.
Context `{Collaborators}.

(** C3 (what the source does). The landscape with which
    [simulate_timestep] calls [resolve_grazing_and_attacks] is the one that
    [update_occupancy] computed from the agents before the movement phase;
    the layers are not recomputed between movement and conflict
    resolution.  Whenever movement changes the count layer of some role,
    the layers that conflict resolution consults are not those of the
    agents' positions after movement. *)
Theorem occupancy_not_recomputed_after_move (S S3 : Simulation) (g g3 : reng) :
  before_conflicts S g = Some (S3, g3) →
  ∃ S1 g1 before_move,
    growth_phase S g = Some (S1, g1)
    ∧ before_move = map do_handle (pop (agents_ S1))
    ∧ landscape_ S3
      = update_occupancy (landscape_ S1) before_move
                         (foragers_kernel (landscape (param_ S1)))
    ∧ pop (agents_ S3)
      = snd (fst (move (ann (agents_ S1)) (landscape_ S3) before_move
                       (agents (param_ S1)) g1))
    ∧ ∀ r, count_layer (dim (landscape_ S3)) r before_move
           ≠ count_layer (dim (landscape_ S3)) r (pop (agents_ S3)) →
           landscape_ S3
           ≠ update_occupancy (landscape_ S3) (pop (agents_ S3))
                              (foragers_kernel (landscape (param_ S3))).
Proof.
  unfold before_conflicts. intros Hrun.
  destruct (growth_phase S g) as [[S1 g1]|]; cbn [mbind option_bind] in Hrun; [|done].
  injection Hrun as Hmove.
  exists S1, g1, (map do_handle (pop (agents_ S1))).
  split; [done|]. split; [done|].
  unfold move_phase in Hmove. simpl in Hmove.
  destruct (move _ _ _ _ _) as [[a agents3] g3'] eqn:Hmv.
  injection Hmove as <- <-. simpl.
  split; [done|]. split; [by rewrite Hmv|].
  intros r Hne Heq.
  destruct r.
  - apply (f_equal foragers_count) in Heq. simpl in Heq. done.
  - apply (f_equal klepts_count) in Heq. simpl in Heq. done.
  - apply (f_equal handlers_count) in Heq. simpl in Heq. done.
Qed.

End Phases.

(** ** Reproduction *)

Section Generation.
Import cine2 examples.
Context `{Collaborators}.

Lemma reproduce_spec (d radius : Z) (pop : list Individual) (ws : list Q) (src : AnyANN) :
  (0 < Qsum ws)%Q →
  length ws = length pop →
  length (blocks src) = length pop →
  ∀ (count i : nat) (tp : list Individual) (ta : AnyANN) (g : reng),
    i + count ≤ length tp →
    i + count ≤ length (blocks ta) →
    ∃ tp' ta',
      reproduce d radius pop ws src i count tp ta g
      = Some (tp', ta', advance g (3 * count))
      ∧ length tp' = length tp
      ∧ length (blocks ta') = length (blocks ta)
      ∧ type_size ta' = type_size ta
      ∧ ∀ j, (¬ (i ≤ j < i + count) →
                tp' !! j = tp !! j ∧ blocks ta' !! j = blocks ta !! j)
             ∧ (i ≤ j < i + count →
                offspring_of d radius pop ws src tp tp' ta' (advance g (3 * (j - i))) j).
Proof.
  intros Hws Hlen Hsrc.
  induction count as [|count IH]; intros i tp ta g Htp Hta; cbn [reproduce].
  - exists tp, ta. rewrite advance_0. repeat split; try done. lia.
  - pose proof (rdist_sample_lt ws g Hws) as Hanc.
    assert (advance g (3 * S count)
            = advance (snd (uniform_int (- radius) radius
                        (snd (uniform_int (- radius) radius (snd (rdist_sample ws g))))))
                      (3 * count)) as Hdraws.
    { rewrite !uniform_int_advance, rdist_sample_draws, !advance_advance. f_equal. lia. }
    assert (∀ j, i < j →
              advance g (3 * (j - i))
              = advance (snd (uniform_int (- radius) radius
                          (snd (uniform_int (- radius) radius (snd (rdist_sample ws g))))))
                        (3 * (j - S i))) as Hlater.
    { intros j Hj. rewrite !uniform_int_advance, rdist_sample_draws, !advance_advance.
      f_equal. lia. }
    rewrite Hdraws.
    assert (offspring_of d radius pop ws src tp
              (<[i := sprout (default Individual_new (tp !! i))
                        (wrap d (Coordinate_add
                                   (pos (default Individual_new
                                           (pop !! fst (rdist_sample ws g))))
                                   {| x := fst (uniform_int (- radius) radius
                                                  (snd (rdist_sample ws g)));
                                      y := fst (uniform_int (- radius) radius
                                                  (snd (uniform_int (- radius) radius
                                                          (snd (rdist_sample ws g))))) |}))
                        (fst (rdist_sample ws g))]> tp)
              {| type_size := type_size ta;
                 blocks := <[i := default [] (blocks src !! fst (rdist_sample ws g))]>
                             (blocks ta) |}
              g i) as Hhere.
    { destruct (lookup_lt_is_Some_2 pop (fst (rdist_sample ws g))) as [a Ha]; [lia|].
      destruct (lookup_lt_is_Some_2 tp i) as [t Ht]; [lia|].
      destruct (lookup_lt_is_Some_2 (blocks src) (fst (rdist_sample ws g))) as [b Hb];
        [lia|].
      unfold offspring_of. cbv zeta. exists a, t. rewrite Ha, Ht, Hb. cbn [default blocks].
      rewrite !list_lookup_insert_eq by lia. done. }
    destruct (rdist_sample ws g) as [ancestor g1]. cbn [fst snd] in *.
    destruct (uniform_int (- radius) radius g1) as [dx g2]. cbn [fst snd] in *.
    destruct (uniform_int (- radius) radius g2) as [dy g3]. cbn [fst snd] in *.
    destruct (lookup_lt_is_Some_2 pop ancestor) as [a Ha]; [lia|].
    destruct (lookup_lt_is_Some_2 tp i) as [t Ht]; [lia|].
    destruct (lookup_lt_is_Some_2 (blocks src) ancestor) as [b Hb]; [lia|].
    rewrite Ha, Ht, Hb in Hhere. cbn [default] in Hhere.
    rewrite Ha, Ht. cbn [mbind option_bind].
    rewrite store_lt by lia. cbn [mbind option_bind].
    unfold assign. rewrite Hb. cbn [mbind option_bind].
    rewrite store_lt by lia. cbn [mbind option_bind].
    set (o := sprout t _ ancestor) in *.
    destruct (IH (S i) (<[i := o]> tp)
                {| type_size := type_size ta; blocks := <[i := b]> (blocks ta) |} g3)
      as (tp' & ta' & -> & Hlt & Hla & Hts & Hj).
    { rewrite length_insert. lia. }
    { simpl. rewrite length_insert. lia. }
    cbn [blocks type_size] in Hla, Hts. rewrite length_insert in Hlt.
    rewrite length_insert in Hla.
    exists tp', ta'. do 4 (split; [done|]).
    intros j. split.
    + intros Hout. destruct (Hj j) as [[-> ->] _]; [lia|]. simpl.
      rewrite !list_lookup_insert_ne by lia. done.
    + intros Hin. destruct (decide (j = i)) as [->|Hne].
      * destruct (Hj i) as [[Hi Hbi] _]; [lia|].
        replace (i - i) with 0 by lia. rewrite advance_0.
        unfold offspring_of in *. cbv zeta in *.
        destruct Hhere as (a' & t' & Ha' & Ht' & Ho' & Hb').
        exists a', t'. rewrite Hi, Hbi. done.
      * destruct (Hj j) as [_ Hslot]. specialize (Hslot ltac:(lia)).
        rewrite (Hlater j) by lia.
        unfold offspring_of in *. cbv zeta in *.
        destruct Hslot as (a' & t' & Ha' & Ht' & Ho' & Hb').
        rewrite list_lookup_insert_ne in Ht' by done.
        by exists a', t'.
Qed.

(** C8. [create_new_generation] on a population whose arrays have one
    slot per agent and whose distribution has positive total weight.  The
    loop returns after three draws per slot.  For every offspring slot
    [i], with the random engine as the [3 i] draws before have left it: the
    ancestor is the index sampled from the distribution; the offsets on
    the two axes are the next two draws, each within
    [[-sprout_radius, sprout_radius]]; the staged offspring sprouts, and
    stands, at the ancestor's position moved by the offsets and wrapped;
    staging network slot [i] holds the ancestor's network state.  The loop
    and the mutation write the staging arrays only, the live population
    and the live networks are as before until the swap; the swap exchanges
    live and staging arrays. *)
Theorem offspring_staged_then_swapped (L : Landscape) (P : Population)
    (iparam : ind_param) (fixed : bool) (g : reng) :
  (0 ≤ sprout_radius iparam)%Z →
  (0 < Qsum (rdist P))%Q →
  length (rdist P) = length (pop P) →
  length (tmp_pop P) = length (pop P) →
  length (blocks (ann P)) = length (pop P) →
  length (blocks (tmp_ann P)) = length (pop P) →
  (∀ t p k, pos (sprout t p k) = p) →
  let r := sprout_radius iparam in
  let g1 := advance g (3 * length (pop P)) in
  ∃ P1 P2 g2,
    stage_offspring L P iparam g = Some (P1, g1)
    ∧ mutate_staging P1 iparam fixed g1 = (P2, g2)
    ∧ create_new_generation L P iparam fixed g = Some (swap_buffers P2, g2)
    ∧ (pop P1 = pop P ∧ ann P1 = ann P ∧ pop P2 = pop P ∧ ann P2 = ann P)
    ∧ (length (tmp_pop P1) = length (pop P)
       ∧ ∀ i, i < length (pop P) →
           let sampled := rdist_sample (rdist P) (advance g (3 * i)) in
           let on_x := uniform_int (- r) r (snd sampled) in
           let on_y := uniform_int (- r) r (snd on_x) in
           offspring_of (dim L) r (pop P) (rdist P) (ann P)
                        (tmp_pop P) (tmp_pop P1) (tmp_ann P1) (advance g (3 * i)) i
           ∧ fst sampled < length (pop P)
           ∧ (- r ≤ fst on_x ≤ r)%Z ∧ (- r ≤ fst on_y ≤ r)%Z
           ∧ ∃ o a,
               tmp_pop P1 !! i = Some o ∧ pop P !! fst sampled = Some a
               ∧ pos o = wrap (dim L)
                           (Coordinate_add (pos a) {| x := fst on_x; y := fst on_y |})
               ∧ blocks (tmp_ann P1) !! i = blocks (ann P) !! fst sampled)
    ∧ (tmp_pop P2 = tmp_pop P1
       ∧ tmp_ann P2 = fst (mutate (tmp_ann P1) iparam fixed g1))
    ∧ (pop (swap_buffers P2) = tmp_pop P2
       ∧ tmp_pop (swap_buffers P2) = pop P
       ∧ ann (swap_buffers P2) = tmp_ann P2
       ∧ tmp_ann (swap_buffers P2) = ann P).
Proof.
  intros Hr Hws Hlw Hltp Hla Hlta Hsprout r g1.
  destruct (reproduce_spec (dim L) r (pop P) (rdist P) (ann P)
              Hws Hlw Hla (length (pop P)) 0 (tmp_pop P) (tmp_ann P) g)
    as (tp & ta & Hrun & Hlt & _ & _ & Hj); [lia | lia |].
  fold g1 in Hrun.
  destruct (mutate ta iparam fixed g1) as [ta2 g2] eqn:Hmut.
  assert (mutate_staging (set_staging P tp ta) iparam fixed g1
          = (set_staging (set_staging P tp ta) tp ta2, g2)) as Hms.
  { unfold mutate_staging. cbn [tmp_ann tmp_pop set_staging]. by rewrite Hmut. }
  exists (set_staging P tp ta), (set_staging (set_staging P tp ta) tp ta2), g2.
  unfold create_new_generation, stage_offspring. fold r. rewrite Hrun.
  cbn [mbind option_bind]. rewrite Hms.
  do 4 (split; [done|]).
  split; [|split; [|done]; split; [done|];
           cbn [tmp_ann set_staging]; by rewrite Hmut].
  split; [cbn [tmp_pop set_staging]; lia|].
  intros i Hi. destruct (Hj i) as [_ Hslot].
  specialize (Hslot ltac:(lia)). replace (i - 0) with i in Hslot by lia.
  cbn [tmp_pop tmp_ann set_staging].
  split; [exact Hslot|].
  split; [rewrite <- Hlw; by apply rdist_sample_lt|].
  split; [apply uniform_int_range; lia|].
  split; [apply uniform_int_range; lia|].
  unfold offspring_of in Hslot. cbv zeta in Hslot.
  destruct Hslot as (a & t & Ha & _ & Ho & Hb).
  eexists _, a. split; [exact Ho|]. split; [exact Ha|]. split; [|exact Hb].
  by rewrite Hsprout.
Qed.

End Generation.

(** * The theorems at concrete inputs *)

Section Concrete.
Import cine2 examples.

Lemma example_flee_leaves_handling :
  ∀ L r a g0, handling (fst (flee L r a g0)) = false.
Proof.
  intros L r a g0. simpl. unfold example_flee.
  destruct (uniform_int (- r) r g0) as [dx g1].
  destruct (uniform_int (- r) r g1) as [dy g2]. reflexivity.
Defined.

Lemma example_within_cap :
  within_cap 5 (capacity example_landscape) (items example_landscape).
Proof.
  apply Forall2_replicate. unfold floor. split; [lra|].
  vm_compute. discriminate.
Defined.

Lemma items_start_at_full_cover_witness :
  length (capacity example_landscape) = Z.to_nat (32 * 32)
  ∧ length (items example_landscape) = Z.to_nat (32 * 32)
  ∧ (32 ≤ 32)%Z
  ∧ init_agents_ann example_param = None
  ∧ is_Some (Simulation_new example_param example_landscape example_reng)
  ∧ ∀ S g', Simulation_new example_param example_landscape example_reng = Some (S, g') →
      items (landscape_ S) !! 0 = Some (floor ((1 # 2) * 5)).
Proof.
  assert (length (capacity example_landscape) = Z.to_nat (32 * 32)) as Hcap
    by reflexivity.
  assert (length (items example_landscape) = Z.to_nat (32 * 32)) as Hits
    by reflexivity.
  destruct (items_start_at_full_cover example_param example_landscape example_reng
              Hcap Hits) as [Hfull Hret].
  split; [exact Hcap|]. split; [exact Hits|]. split; [lia|]. split; [reflexivity|].
  split; [apply Hret; [simpl; lia | reflexivity]|].
  intros S g' Hnew.
  destruct (Hfull S g' Hnew) as (_ & _ & Hcell).
  exact (proj1 (Hcell 0 (1 # 2) eq_refl)).
Defined.

Lemma items_stay_within_cap_witness :
  ∃ S' g', growth_phase example_simulation example_reng = Some (S', g')
    ∧ within_cap 5 (capacity example_landscape) (items (landscape_ S')).
Proof.
  destruct (proj1 (@items_stay_within_cap example_collaborators)
              example_simulation example_reng eq_refl example_within_cap)
    as (S' & g' & Hrun & _ & Hcap & _).
  exists S', g'. split; [exact Hrun | exact Hcap].
Defined.

Lemma fights_follow_collection_order_witness :
  ∃ L' a0 a1 v g',
    resolve_grazing_and_attacks example_param example_landscape
      [klept_at origin; klept_at origin; handler_at origin 5] example_reng
    = Some (L', [a0; a1; v], g')
    ∧ a0 = set_handling (klept_at origin) true 5
    ∧ a1 = klept_at origin
    ∧ handling v = false.
Proof.
  exact (fights_follow_collection_order example_param 5 example_reng
           example_flee_leaves_handling).
Defined.

(** The shuffle does exchange the two pairs of that input: the resolution
    still serves the attacker of index 0. *)
Example shuffle_exchanges_the_pairs :
  fst (std_shuffle [(0, 2); (1, 2)] (snd (next (snd (next example_reng)))))
  = [(1, 2); (0, 2)].
Proof. reflexivity. Qed.

(** A whole timestep on three agents.  The agent that neither forages nor
    handles steps from (31, 0) to (0, 0); the density of the two handlers
    on (1, 0), averaged over the two cells, is 1 on (0, 0); the agent is
    collected as an attacker without any handler on its cell, and the
    timestep has no defined result. *)
Example timestep_reads_past_attacked_list :
  simulate_timestep example_simulation example_reng = None.
Proof. vm_compute. reflexivity. Qed.

Lemma offspring_staged_then_swapped_witness :
  ∃ P' g', create_new_generation example_landscape example_population
             (agents example_param) false spread_reng = Some (P', g')
           ∧ g' = advance spread_reng 9
           ∧ tmp_pop P' = pop example_population
           ∧ tmp_ann P' = ann example_population
           ∧ ∃ o a, pop P' !! 1 = Some o
                    ∧ pop example_population
                        !! fst (rdist_sample [1; 1; 2]%Q (advance spread_reng 3))
                      = Some a
                    ∧ pos o
                      = wrap 32
                          (Coordinate_add (pos a)
                             {| x := fst (uniform_int (-2) 2 (advance spread_reng 4));
                                y := fst (uniform_int (-2) 2 (advance spread_reng 5)) |}).
Proof.
  destruct (offspring_staged_then_swapped example_landscape example_population
              (agents example_param) false spread_reng)
    as (P1 & P2 & g2 & _ & Hmut & Hrun & _ & (_ & Hslots) & (Hkeep & _)
        & (Hlive & Htp & _ & Hta)).
  - simpl. lia.
  - vm_compute. reflexivity.
  - reflexivity.
  - reflexivity.
  - reflexivity.
  - reflexivity.
  - reflexivity.
  - exists (swap_buffers P2), g2. split; [exact Hrun|].
    split; [exact (eq_sym (f_equal snd Hmut))|].
    split; [exact Htp|]. split; [exact Hta|].
    destruct (Hslots 1 ltac:(simpl; lia)) as (_ & _ & _ & _ & o & a & Ho & Ha & Hpos & _).
    exists o, a. rewrite Hlive, Hkeep. split; [exact Ho|]. split; [exact Ha | exact Hpos].
Defined.

(** The offspring of that generation, with their ancestors and their
    cells: the agents 2, 1 and 1, who stand on (1, 0), moved by (0, 1),
    (-2, -1) and (1, 2). *)
Example offspring_drawn :
  (λ r, (λ o, (ancestor o, x (pos o), y (pos o))) <$> pop (fst r))
    <$> create_new_generation example_landscape example_population
          (agents example_param) false spread_reng
  = Some [(2, 1%Z, 1%Z); (1, 31%Z, 31%Z); (1, 2%Z, 2%Z)].
Proof. vm_compute. reflexivity. Qed.

Lemma occupancy_not_recomputed_after_move_witness :
  ∃ S3 g3,
    before_conflicts example_simulation example_reng = Some (S3, g3)
    ∧ landscape_ S3
      ≠ update_occupancy (landscape_ S3) (pop (agents_ S3))
                         (foragers_kernel (landscape (param_ S3))).
Proof.
  destruct (before_conflicts example_simulation example_reng) as [[S3 g3]|] eqn:E.
  2: { vm_compute in E. discriminate E. }
  exists S3, g3. split; [reflexivity|].
  destruct (occupancy_not_recomputed_after_move _ _ _ _ E)
    as (S1 & g1 & before_move & Hgrow & -> & _ & _ & Hne).
  apply (Hne klept).
  vm_compute in Hgrow. injection Hgrow as <- _.
  vm_compute in E. injection E as <- _.
  intros Heq. apply (f_equal (λ l, l !! 0)) in Heq.
  vm_compute in Heq. discriminate Heq.
Defined.

End Concrete.

(** * Further properties of the network engine *)

Section NeuronBounds.
Import ann ann.activation ann.feedback.
Context {T : Type} `{Arithmetic T}.

Lemma accumulate_defined (inp state : list T) (shift : nat) :
  ∀ (count i : nat) (u : T),
    shift ≤ i →
    is_Some (accumulate inp state shift i count u)
    ↔ count = 0 ∨ (i + count ≤ length state ∧ i - shift + count ≤ length inp).
Proof.
  induction count as [|count IH]; intros i u Hs; cbn [accumulate].
  - split; [by left | eauto].
  - destruct (state !! i) as [w|] eqn:Hw; cbn [mbind option_bind].
    + destruct (inp !! (i - shift)) as [x|] eqn:Hx; cbn [mbind option_bind].
      * rewrite IH by lia.
        apply lookup_lt_Some in Hw. apply lookup_lt_Some in Hx.
        replace (S i - shift) with (S (i - shift)) by lia.
        split; [intros [->|[? ?]]; right; lia | intros [?|[? ?]]; [lia|]].
        destruct count; [by left | right; lia].
      * apply lookup_ge_None in Hx.
        split; [by intros [? ?] | intros [?|[? ?]]; lia].
    + apply lookup_ge_None in Hw.
      split; [by intros [? ?] | intros [?|[? ?]]; lia].
Qed.

Lemma accumulate_app (inp state rest : list T) (shift : nat) :
  ∀ (count i : nat) (u : T),
    i + count ≤ length state →
    accumulate inp (state ++ rest) shift i count u
    = accumulate inp state shift i count u.
Proof.
  induction count as [|count IH]; intros i u Hlen; cbn [accumulate]; [done|].
  rewrite lookup_app_l by lia.
  destruct (state !! i) as [w|]; cbn [mbind option_bind]; [|done].
  destruct (inp !! (i - shift)) as [x|]; cbn [mbind option_bind]; [|done].
  apply IH. lia.
Qed.

Lemma feed_changes_scratch_only (N : Neuron) (inp state state' : list T) (y : T) :
  feed N inp state = Some (y, state') →
  state' = state
  ∨ (Fb N = direct ∧ ∃ r, state' = <[feedback_scratch_begin N := r]> state).
Proof.
  unfold feed.
  destruct (if biased N then _ else _) as [u|]; cbn [mbind option_bind]; [|done].
  destruct (Fb N); cbn [feedback.apply mbind option_bind].
  - destruct (activation.apply _ _ _ _); cbn [mbind option_bind]; [|done].
    intros [= _ <-]. by left.
  - destruct (state !! feedback_begin N); cbn [mbind option_bind]; [|done].
    destruct (state !! feedback_scratch_begin N); cbn [mbind option_bind]; [|done].
    destruct (activation.apply _ _ _ _); cbn [mbind option_bind]; [|done].
    intros [= _ <-]. right. eauto.
Qed.

Lemma activation_apply_defined (a : Activation) (v : T) (state : list T) (ps : nat) :
  is_Some (activation.apply a v state ps)
  ↔ activation.value a = 0 ∨ ps < length state.
Proof.
  destruct a; cbn [activation.apply activation.value];
    try (split; [intros _; by left | eauto]).
  all: destruct (state !! ps) as [p|] eqn:Hp; cbn [mbind option_bind];
    [apply lookup_lt_Some in Hp | apply lookup_ge_None in Hp].
  all: split; [intros Hx | intros [Hx|Hx]]; try lia; try eauto.
  all: by destruct Hx.
Qed.

Lemma feed_defined (N : Neuron) (inp state : list T) :
  is_Some (feed N inp state)
  ↔ state_size N ≤ length state ∧ input_size N ≤ length inp.
Proof.
  unfold feed, state_size, total_weights, feedback_scratch_begin, feedback_begin,
    activation_begin, feedback_scratch, feedback_state, activation_state,
    input_weights.
  set (n := input_size N).
  assert (is_Some (if biased N then
                     u0 ← state !! 0; accumulate inp state 1 1 n u0
                   else accumulate inp state 0 0 n (of_int 0))
          ↔ n + (if biased N then 1 else 0) ≤ length state ∧ n ≤ length inp) as Hsum.
  { destruct (biased N).
    - destruct (state !! 0) as [u0|] eqn:H0; cbn [mbind option_bind].
      + rewrite accumulate_defined by lia. apply lookup_lt_Some in H0.
        split; [intros [->|[? ?]]; lia | intros [? ?]; right; lia].
      + apply lookup_ge_None in H0. split; [by intros [? ?] | lia].
    - rewrite accumulate_defined by lia.
      split; [intros [->|[? ?]]; lia | intros [? ?]; right; lia]. }
  destruct (if biased N then _ else _) as [u|]; cbn [mbind option_bind].
  2: { split; [by intros [? ?]|]. intros [? ?].
       destruct Hsum as [_ Hsum]. destruct Hsum as [? ?]; [lia | done]. }
  assert (n + (if biased N then 1 else 0) ≤ length state ∧ n ≤ length inp)
    as [Hw Hin] by (apply Hsum; eauto).
  assert (activation.value (Act N) ≤ 1) as Hv1
    by (destruct (Act N); cbn [activation.value]; lia).
  destruct (Fb N); cbn [feedback.apply feedback.value feedback.scratch
                         mbind option_bind].
  - pose proof (activation_apply_defined (Act N) u state
                  (n + (if biased N then 1 else 0))) as Hact.
    destruct (activation.apply _ _ _ _) as [y|]; cbn [mbind option_bind].
    + split; [intros _ | eauto]. assert (is_Some (Some y)) as Hy by eauto.
      apply Hact in Hy. lia.
    + split; [by intros [? ?]|]. intros [? ?].
      assert (is_Some (@None T)) as [? ?]; [apply Hact; lia | done].
  - set (a := n + (if biased N then 1 else 0)) in *.
    destruct (state !! (a + activation.value (Act N))) as [p|] eqn:Hp;
      cbn [mbind option_bind].
    2: { apply lookup_ge_None in Hp. split; [by intros [? ?] | lia]. }
    destruct (state !! (a + activation.value (Act N) + 1)) as [s|] eqn:Hs;
      cbn [mbind option_bind].
    2: { apply lookup_ge_None in Hs. split; [by intros [? ?] | lia]. }
    apply lookup_lt_Some in Hs.
    pose proof (activation_apply_defined (Act N) (add u (mul p s))
                  (<[a + activation.value (Act N) + 1 := add u (mul p s)]> state) a)
      as Hact.
    rewrite length_insert in Hact.
    destruct (activation.apply _ _ _ _) as [y|]; cbn [mbind option_bind].
    + split; [intros _; lia | eauto].
    + split; [by intros [? ?]|]. intros [? ?].
      assert (is_Some (@None T)) as [? ?]; [apply Hact; lia | done].
Qed.

Lemma activation_apply_app (a : Activation) (v : T) (state rest : list T) (ps : nat) :
  activation.value a = 0 ∨ ps < length state →
  activation.apply a v (state ++ rest) ps = activation.apply a v state ps.
Proof.
  intros Hps. destruct a; cbn [activation.apply activation.value] in *; try done.
  all: destruct Hps as [?|?]; [done|]; by rewrite lookup_app_l.
Qed.

(** A neuron sees only the first [state_size] values behind its pointer. *)
Lemma feed_app (N : Neuron) (inp state rest : list T) :
  state_size N ≤ length state →
  feed N inp (state ++ rest)
  = ('(y, state') ← feed N inp state; Some (y, state' ++ rest)).
Proof.
  unfold feed, state_size, total_weights, feedback_scratch_begin, feedback_begin,
    activation_begin, feedback_scratch, feedback_state, activation_state,
    input_weights.
  set (n := input_size N). intros Hlen.
  assert ((if biased N then
             u0 ← (state ++ rest) !! 0; accumulate inp (state ++ rest) 1 1 n u0
           else accumulate inp (state ++ rest) 0 0 n (of_int 0))
          = (if biased N then
               u0 ← state !! 0; accumulate inp state 1 1 n u0
             else accumulate inp state 0 0 n (of_int 0))) as ->.
  { destruct (biased N).
    - rewrite lookup_app_l by lia.
      destruct (state !! 0); cbn [mbind option_bind]; [|done].
      apply accumulate_app. lia.
    - apply accumulate_app. lia. }
  set (a := n + (if biased N then 1 else 0)) in *.
  destruct (if biased N then
              u0 ← state !! 0; accumulate inp state 1 1 n u0
            else accumulate inp state 0 0 n (of_int 0)) as [u|];
    cbn [mbind option_bind]; [|done].
  destruct (Fb N); cbn [feedback.apply feedback.value feedback.scratch
                         mbind option_bind] in *.
  - rewrite activation_apply_app.
    + by destruct (activation.apply _ _ _ _).
    + destruct (Act N); cbn [activation.value] in *; (by left) || (right; lia).
  - rewrite !lookup_app_l by lia.
    destruct (state !! (a + activation.value (Act N))) as [p|];
      cbn [mbind option_bind]; [|done].
    destruct (state !! (a + activation.value (Act N) + 1)) as [q|];
      cbn [mbind option_bind]; [|done].
    rewrite insert_app_l by lia.
    rewrite activation_apply_app.
    + by destruct (activation.apply _ _ _ _).
    + rewrite length_insert.
      destruct (Act N); cbn [activation.value] in *; (by left) || (right; lia).
Qed.

Lemma feed_length (N : Neuron) (inp state state' : list T) (y : T) :
  feed N inp state = Some (y, state') → length state' = length state.
Proof.
  intros Hfeed.
  destruct (feed_changes_scratch_only N inp state state' y Hfeed)
    as [->|(_ & r & ->)]; [done|]. apply length_insert.
Qed.

End NeuronBounds.

Section LayerProperties.
Import ann ann.activation ann.feedback.
Context {T : Type} `{Arithmetic T}.

Lemma layer_loop_spec (N : Neuron) (inp : list T) :
  input_size N ≤ length inp →
  ∀ (count p : nat) (state : list T),
    p + count * state_size N ≤ length state →
    ∃ ys state',
      layer_loop N inp p count state = Some (ys, state')
      ∧ length ys = count
      ∧ length state' = length state
      ∧ take p state' = take p state
      ∧ drop (p + count * state_size N) state' = drop (p + count * state_size N) state
      ∧ ∀ k, k < count →
          ∃ y slice',
            feed N inp (neuron_slice N p k state) = Some (y, slice')
            ∧ ys !! k = Some y
            ∧ neuron_slice N p k state' = slice'.
Proof.
  intros Hin. set (ss := state_size N).
  induction count as [|count IH]; intros p state Hlen; cbn [layer_loop].
  - exists [], state. repeat split; try done. lia.
  - (* the neuron at [p] *)
    assert (drop p state = take ss (drop p state) ++ drop (p + ss) state) as Hsplit.
    { rewrite <- (take_drop ss (drop p state)) at 1. by rewrite drop_drop. }
    assert (length (take ss (drop p state)) = ss) as Hls.
    { rewrite length_take, length_drop. simpl in Hlen. fold ss in Hlen. lia. }
    destruct (proj2 (feed_defined N inp (take ss (drop p state))))
      as [[y slice'] Hfeed]; [fold ss; lia|].
    pose proof (feed_length _ _ _ _ _ Hfeed) as Hlslice.
    rewrite Hsplit, feed_app by (fold ss; lia).
    rewrite Hfeed. cbn [mbind option_bind]. fold ss.
    set (state1 := take p state ++ slice' ++ drop (p + ss) state).
    assert (length state1 = length state) as Hl1.
    { unfold state1. rewrite !length_app, length_take, length_drop.
      simpl in Hlen. fold ss in Hlen. lia. }
    destruct (IH (p + ss) state1) as (ys & state' & -> & Hlys & Hlst & Htake & Hdrop & Hk).
    { simpl in Hlen. fold ss in Hlen. lia. }
    cbn [mbind option_bind]. exists (y :: ys), state'.
    assert (take p state1 = take p state) as Htp.
    { unfold state1. rewrite take_app_le by (rewrite length_take; lia).
      rewrite take_take. f_equal. lia. }
    assert (drop (p + ss) state1 = drop (p + ss) state) as Hdp.
    { unfold state1. rewrite app_assoc.
      rewrite drop_app_length'; [done|].
      rewrite length_app, length_take. simpl in Hlen. fold ss in Hlen. lia. }
    assert (∀ (l : list T) m, drop (p + ss + m) l = drop m (drop (p + ss) l)) as Hdd.
    { intros l m. by rewrite drop_drop. }
    split; [done|]. split; [simpl; lia|]. split; [lia|].
    split; [|split].
    + assert (∀ l : list T, take p l = take p (take (p + ss) l)) as Htt.
      { intros l. rewrite take_take. f_equal. lia. }
      rewrite (Htt state'), Htake, <- Htt. exact Htp.
    + replace (p + S count * ss) with (p + ss + count * ss) by lia.
      rewrite Hdrop. by rewrite !Hdd, Hdp.
    + intros k Hk'. destruct k as [|k].
      * exists y, slice'. unfold neuron_slice. fold ss.
        rewrite Nat.mul_0_l, Nat.add_0_r. split; [done|]. split; [done|].
        rewrite take_drop_commute, Htake, <- take_drop_commute.
        unfold state1. rewrite drop_app_length'; [|rewrite length_take; lia].
        rewrite take_app_length'; [done | lia].
      * destruct (Hk k) as (y' & s' & Hf & Hy & Hs); [lia|].
        exists y', s'. unfold neuron_slice in *. fold ss in Hf, Hs. fold ss.
        replace (p + S k * ss) with (p + ss + k * ss) by lia.
        split; [|done].
        rewrite <- Hf. do 2 f_equal. by rewrite !Hdd, Hdp.
Qed.

Lemma layer_loop_none (N : Neuron) (inp : list T) :
  Fb N = none →
  ∀ (count p : nat) (state state' ys : list T),
    layer_loop N inp p count state = Some (ys, state') → state' = state.
Proof.
  intros Hnone. induction count as [|count IH]; intros p state state' ys;
    cbn [layer_loop].
  - by intros [= _ <-].
  - destruct (feed N inp (drop p state)) as [[y rest]|] eqn:Hfeed;
      cbn [mbind option_bind]; [|done].
    destruct (feed_changes_scratch_only _ _ _ _ _ Hfeed) as [->|[Hd _]];
      [|congruence].
    rewrite take_drop.
    destruct (layer_loop N inp _ count state) as [[ys' st']|] eqn:Hloop;
      cbn [mbind option_bind]; [|done].
    intros [= _ <-]. by eapply IH.
Qed.

End LayerProperties.

Section NetworkLayout.
Import ann ann.activation ann.feedback.

Lemma accum_state_size_sum (C : list Layer) (I : nat) :
  I < length C → accum_state_size I C = Some (layers_size (take (S I) C)).
Proof.
  unfold layers_size. induction I as [|I IH]; intros HI; cbn [accum_state_size].
  - destruct C as [|L C]; [simpl in HI; lia|]. simpl. f_equal. lia.
  - destruct (lookup_lt_is_Some_2 C (S I)) as [L HL]; [lia|].
    rewrite HL, IH by lia. cbn [mbind option_bind].
    rewrite (take_S_r C (S I) L HL), fmap_app, sum_list_with_app.
    simpl. f_equal. lia.
Qed.

Lemma accum_state_ofs_sum (C : list Layer) (I : nat) :
  I < length C → accum_state_ofs I C = Some (layers_size (take I C)).
Proof.
  intros HI. unfold accum_state_ofs. rewrite accum_state_size_sum by done.
  destruct (lookup_lt_is_Some_2 C I) as [L HL]; [lia|].
  rewrite HL. cbn [mbind option_bind]. unfold layers_size.
  rewrite (take_S_r C I L HL), fmap_app, sum_list_with_app. simpl. f_equal. lia.
Qed.

Lemma accum_state_ofs_defined (C : list Layer) (I : nat) :
  is_Some (accum_state_ofs I C) ↔ I < length C.
Proof.
  split; [|intros HI; rewrite accum_state_ofs_sum by done; eauto].
  unfold accum_state_ofs. intros [o Ho].
  destruct (accum_state_size I C); cbn [mbind option_bind] in Ho; [|done].
  destruct (C !! I) eqn:HL; [|done]. by apply lookup_lt_Some in HL.
Qed.

Lemma network_state_size_sum (C : list Layer) :
  C ≠ [] → network_state_size C = Some (layers_size C).
Proof.
  intros HC. destruct C as [|L C]; [done|]. unfold network_state_size.
  rewrite accum_state_size_sum by (simpl; lia).
  f_equal. f_equal. apply take_ge. simpl. lia.
Qed.

Lemma layers_size_take_le (C : list Layer) (I : nat) :
  layers_size (take I C) ≤ layers_size C.
Proof.
  unfold layers_size. rewrite <- (take_drop I C) at 2.
  rewrite fmap_app, sum_list_with_app. lia.
Qed.

Lemma layers_size_take_S (C : list Layer) (I : nat) (L : Layer) :
  C !! I = Some L →
  layers_size (take (S I) C) = layers_size (take I C) + layer_state_size L.
Proof.
  intros HL. unfold layers_size.
  rewrite (take_S_r C I L HL), fmap_app, sum_list_with_app. simpl. lia.
Qed.

Lemma interfaces_match_cons (L0 L1 : Layer) (C : list Layer) :
  interfaces_match (L0 :: L1 :: C)
  ↔ layer_output_size L0 = layer_input_size L1 ∧ interfaces_match (L1 :: C).
Proof.
  unfold interfaces_match. split.
  - intros Hm. split; [by apply (Hm 0)|].
    intros I A B HA HB. by apply (Hm (S I)).
  - intros [H0 Hm] [|I] A B HA HB; simpl in *.
    + by simplify_eq.
    + by apply (Hm I).
Qed.

Lemma match_interface_impl_spec (C : list Layer) :
  2 ≤ length C →
  ∃ b, match_interface_impl C = Some b ∧ (b = true ↔ interfaces_match C).
Proof.
  induction C as [|L0 C IH]; [simpl; lia|].
  destruct C as [|L1 C]; [simpl; lia|]. intros _.
  destruct C as [|L2 C].
  - cbn [match_interface_impl]. eexists. split; [done|].
    rewrite Nat.eqb_eq, interfaces_match_cons.
    split; [|by intros [? _]]. intros Heq. split; [done|].
    intros [|I] A B HA HB; simpl in *; done.
  - destruct IH as (b & Hb & Hspec); [simpl; lia|].
    change (match_interface_impl (L0 :: L1 :: L2 :: C))
      with (b' ← match_interface_impl (L1 :: L2 :: C);
            Some ((layer_output_size L0 =? layer_input_size L1) && b')).
    rewrite Hb. cbn [mbind option_bind]. eexists. split; [done|].
    rewrite andb_true_iff, Nat.eqb_eq, interfaces_match_cons, Hspec. done.
Qed.

End NetworkLayout.

Section NetworkFeedProperties.
Import ann ann.activation ann.feedback.
Context {T : Type} `{Arithmetic T}.

Lemma network_well_formed_iff (C : list Layer) :
  network_well_formed C ↔ C ≠ [] ∧ interfaces_match C.
Proof.
  unfold network_well_formed, match_interface.
  destruct C as [|L0 [|L1 C]].
  - simpl. split; [done | by intros [? _]].
  - simpl. split; [|done]. intros _. split; [done|].
    intros [|I] A B HA HB; simpl in *; done.
  - destruct (match_interface_impl_spec (L0 :: L1 :: C)) as (b & Hb & Hspec);
      [simpl; lia|].
    change (length (L0 :: L1 :: C) =? 1) with false. cbv iota. rewrite Hb.
    split.
    + intros [= ->]. split; [done | by apply Hspec].
    + intros [_ Hm]. f_equal. by apply Hspec.
Qed.

Lemma do_feed_forward_spec (C : list Layer) :
  interfaces_match C →
  ∀ (remaining I : nat) (L Llast : Layer) (inp state : list T),
    C !! I = Some L →
    C !! (I + remaining) = Some Llast →
    layer_input_size L ≤ length inp →
    layers_size C ≤ length state →
    ∃ out state',
      do_feed_forward C I remaining inp state = Some (out, state')
      ∧ length out = layer_output_size Llast
      ∧ length state' = length state
      ∧ take (layers_size (take I C)) state' = take (layers_size (take I C)) state
      ∧ drop (layers_size C) state' = drop (layers_size C) state
      ∧ ((∀ L', L' ∈ C → Fb (neuron_t L') = none) → state' = state).
Proof.
  intros Hm. induction remaining as [|remaining IH];
    intros I L Llast inp state HL Hlast Hin Hst.
  - rewrite Nat.add_0_r in Hlast. assert (Llast = L) as -> by congruence.
    cbn [do_feed_forward]. rewrite HL. cbn [mbind option_bind].
    rewrite accum_state_ofs_sum by (by eapply lookup_lt_Some).
    cbn [mbind option_bind].
    pose proof (layers_size_take_S C I L HL) as HS.
    pose proof (layers_size_take_le C (S I)) as Hle.
    destruct (layer_loop_spec (neuron_t L) inp Hin (size L)
                (layers_size (take I C)) state)
      as (out & state' & Hrun & Hlo & Hls & Htake & Hdrop & _).
    { unfold layer_state_size in HS. lia. }
    unfold layer_feed. rewrite Hrun. cbn [mbind option_bind].
    exists out, state'. split; [done|]. split; [done|]. split; [done|].
    split; [done|]. split.
    + fold (layer_state_size L) in Hdrop. rewrite <- HS in Hdrop.
      assert (∀ l : list T, drop (layers_size C) l
                = drop (layers_size C - layers_size (take (S I) C))
                       (drop (layers_size (take (S I) C)) l)) as Hdd.
      { intros l. rewrite drop_drop. f_equal. lia. }
      by rewrite (Hdd state'), Hdrop, <- Hdd.
    + intros Hnone. eapply layer_loop_none; [|exact Hrun].
      apply Hnone. by eapply list_elem_of_lookup_2.
  - destruct (lookup_lt_is_Some_2 C (S I)) as [L1 HL1].
    { apply lookup_lt_Some in Hlast. lia. }
    cbn [do_feed_forward]. rewrite HL. cbn [mbind option_bind].
    rewrite accum_state_ofs_sum by (by eapply lookup_lt_Some).
    cbn [mbind option_bind].
    pose proof (layers_size_take_S C I L HL) as HS.
    pose proof (layers_size_take_le C (S I)) as Hle.
    destruct (layer_loop_spec (neuron_t L) inp Hin (size L)
                (layers_size (take I C)) state)
      as (out & state1 & Hrun & Hlo & Hls & Htake & Hdrop & _).
    { unfold layer_state_size in HS. lia. }
    unfold layer_feed. rewrite Hrun. cbn [mbind option_bind].
    destruct (IH (S I) L1 Llast out state1) as (out' & state' & Hrun' & Hlo' & Hls' & Htake' & Hdrop' & Hnone').
    { done. }
    { by replace (S I + remaining) with (I + S remaining) by lia. }
    { rewrite Hlo. rewrite <- (Hm I L L1 HL HL1). done. }
    { lia. }
    exists out', state'. split; [done|]. split; [done|]. split; [lia|].
    split; [|split].
    + assert (∀ l : list T, take (layers_size (take I C)) l
                = take (layers_size (take I C))
                       (take (layers_size (take (S I) C)) l)) as Htt.
      { intros l. rewrite take_take. f_equal. lia. }
      by rewrite (Htt state'), Htake', <- Htt.
    + fold (layer_state_size L) in Hdrop. rewrite <- HS in Hdrop.
      assert (∀ l : list T, drop (layers_size C) l
                = drop (layers_size C - layers_size (take (S I) C))
                       (drop (layers_size (take (S I) C)) l)) as Hdd.
      { intros l. rewrite drop_drop. f_equal. lia. }
      by rewrite Hdrop', (Hdd state1), Hdrop, <- Hdd.
    + intros Hnone. rewrite (Hnone' Hnone).
      eapply layer_loop_none; [|exact Hrun].
      apply Hnone. by eapply list_elem_of_lookup_2.
Qed.

End NetworkFeedProperties.

Section Visiting.
Import ann ann.activation ann.feedback.

Lemma tiles_app (vs ws : list (Neuron * nat * nat * nat)) :
  ∀ a b c, tiles a vs b → tiles b ws c → tiles a (vs ++ ws) c.
Proof.
  induction vs as [|[[[n ofs] I] J] vs IH]; intros a b c; simpl.
  - by intros ->.
  - intros [-> Hvs] Hws. split; [done|]. by eapply IH.
Qed.

Lemma layer_visits_tiles (L : Layer) (o I : nat) :
  ∀ count J,
    tiles (o + J * state_size (neuron_t L)) (layer_visits L o I J count)
          (o + (J + count) * state_size (neuron_t L)).
Proof.
  unfold layer_visits. induction count as [|count IH]; intros J; simpl.
  - f_equal. lia.
  - split; [done|].
    replace (o + J * state_size (neuron_t L) + state_size (neuron_t L))
      with (o + S J * state_size (neuron_t L)) by lia.
    replace (J + S count) with (S J + count) by lia. apply IH.
Qed.

Lemma do_visit_neuron_spec (C : list Layer) (I : nat) (L : Layer) :
  C !! I = Some L →
  ∀ (remaining J : nat) (v : list (Neuron * nat * nat * nat)),
    J + remaining ≤ size L →
    do_visit_neuron record_visit C I J remaining v
    = Some (rev (layer_visits L (layers_size (take I C)) I J remaining) ++ v).
Proof.
  intros HL. induction remaining as [|remaining IH]; intros J v HJ;
    cbn [do_visit_neuron]; [done|].
  unfold get_neuron. rewrite HL. cbn [mbind option_bind].
  destruct (decide (J < size L)) as [_|?]; [|lia].
  rewrite accum_state_ofs_sum by (by eapply lookup_lt_Some).
  cbn [mbind option_bind]. rewrite IH by lia.
  unfold layer_visits, record_visit. simpl. by rewrite <- app_assoc.
Qed.

Lemma do_visit_layer_spec (C : list Layer) :
  ∀ (remaining I : nat) (v : list (Neuron * nat * nat * nat)),
    I + remaining < length C →
    ∃ w, do_visit_layer record_visit C I remaining v = Some (rev w ++ v)
         ∧ tiles (layers_size (take I C)) w (layers_size (take (S (I + remaining)) C))
         ∧ fst ∘ fst ∘ fst <$> w = flat_neurons (take (S remaining) (drop I C))
         ∧ ∀ n ofs I' J, (n, ofs, I', J) ∈ w →
             ∃ L, C !! I' = Some L ∧ J < size L ∧ n = neuron_t L.
Proof.
  induction remaining as [|remaining IH]; intros I v HI.
  - destruct (lookup_lt_is_Some_2 C I) as [L HL]; [lia|].
    cbn [do_visit_layer]. rewrite HL. cbn [mbind option_bind].
    rewrite (do_visit_neuron_spec C I L HL) by lia. cbn [mbind option_bind].
    exists (layer_visits L (layers_size (take I C)) I 0 (size L)).
    split; [done|]. rewrite Nat.add_0_r. split; [|split].
    + rewrite (layers_size_take_S C I L HL).
      pose proof (layer_visits_tiles L (layers_size (take I C)) I (size L) 0) as Ht.
      rewrite Nat.mul_0_l, Nat.add_0_r in Ht. exact Ht.
    + rewrite (drop_S C L I HL). simpl. rewrite take_0. simpl.
      unfold flat_neurons. simpl. rewrite app_nil_r.
      unfold layer_visits. rewrite <- list_fmap_compose.
      generalize 0. induction (size L) as [|k IHk]; intros j; simpl; [done|].
      by rewrite IHk.
    + intros n ofs I' J Hin. unfold layer_visits in Hin.
      apply list_elem_of_fmap in Hin as (j & [= -> -> -> ->] & Hj).
      apply elem_of_seq in Hj. exists L. split; [done|]. split; [lia | done].
  - destruct (lookup_lt_is_Some_2 C I) as [L HL]; [lia|].
    cbn [do_visit_layer]. rewrite HL. cbn [mbind option_bind].
    rewrite (do_visit_neuron_spec C I L HL) by lia. cbn [mbind option_bind].
    set (w0 := layer_visits L (layers_size (take I C)) I 0 (size L)).
    destruct (IH (S I) (rev w0 ++ v)) as (w & -> & Ht & Hn & Hw); [lia|].
    exists (w0 ++ w). split; [by rewrite rev_app_distr, <- app_assoc|].
    split; [|split].
    + eapply tiles_app; [|replace (I + S remaining) with (S I + remaining) by lia;
                          exact Ht].
      rewrite (layers_size_take_S C I L HL).
      pose proof (layer_visits_tiles L (layers_size (take I C)) I (size L) 0) as Ht0.
      rewrite Nat.mul_0_l, Nat.add_0_r in Ht0. exact Ht0.
    + rewrite fmap_app, Hn. rewrite (drop_S C L I HL).
      change (take (S (S remaining)) (L :: drop (S I) C))
        with (L :: take (S remaining) (drop (S I) C)).
      unfold flat_neurons at 2. simpl. fold (flat_neurons (take (S remaining) (drop (S I) C))).
      f_equal. unfold w0, layer_visits. rewrite <- list_fmap_compose.
      generalize 0. induction (size L) as [|k IHk]; intros j; simpl; [done|].
      by rewrite IHk.
    + intros n ofs I' J [Hin|Hin]%elem_of_app; [|by eapply Hw].
      unfold w0, layer_visits in Hin.
      apply list_elem_of_fmap in Hin as (j & [= -> -> -> ->] & Hj).
      apply elem_of_seq in Hj. exists L. split; [done|]. split; [lia | done].
Qed.

End Visiting.

(** ** The statements *)

Section EngineStatements.
Import ann ann.activation ann.feedback.
Context {T : Type} `{Arithmetic T}.

(** X1. The layout of a neuron's state slice: the input weights, the
    activation parameters, the feedback parameters and the feedback scratch
    follow each other without gap or overlap and make up the whole slice
    of [state_size] values. *)
Theorem neuron_ranges_partition_slice (N : Neuron) (state : list T) :
  length state = state_size N →
  input_weights_range N state ++ activation_range N state
    ++ feedback_range N state ++ scratch_range N state = state
  ∧ length (input_weights_range N state) = input_size N + (if biased N then 1 else 0)
  ∧ length (activation_range N state) = activation.value (Act N)
  ∧ length (feedback_range N state) = feedback.value (Fb N)
  ∧ length (scratch_range N state) = feedback.scratch (Fb N).
Proof.
  intros Hlen.
  unfold input_weights_range, activation_range, feedback_range, scratch_range.
  unfold state_size, total_weights, feedback_scratch_begin, feedback_begin,
    activation_begin, feedback_scratch, feedback_state, activation_state,
    input_weights in *.
  set (w := input_size N + (if biased N then 1 else 0)) in *.
  set (a := activation.value (Act N)) in *.
  set (f := feedback.value (Fb N)) in *.
  set (c := feedback.scratch (Fb N)) in *.
  split.
  - rewrite (take_ge (drop (w + a + f) state)) by (rewrite length_drop; lia).
    rewrite <- (drop_drop state f (w + a)), take_drop.
    rewrite <- (drop_drop state a w), take_drop.
    apply take_drop.
  - rewrite !length_take, !length_drop. lia.
Qed.

(** X2. [Neuron::feed] reads the first [state_size] values behind its
    state pointer and [input_size] inputs, and nothing else: it is defined
    exactly when that many are there, and what lies behind the slice
    neither changes the result nor is changed. *)
Theorem feed_reads_its_slice_only (N : Neuron) (inp state : list T) :
  (is_Some (feed N inp state)
   ↔ state_size N ≤ length state ∧ input_size N ≤ length inp)
  ∧ ∀ rest, state_size N ≤ length state →
      feed N inp (state ++ rest)
      = ('(y, state') ← feed N inp state; Some (y, state' ++ rest)).
Proof. split; [apply feed_defined | intros rest; apply feed_app]. Qed.

(** X3. [Neuron::feed] never writes a weight or a parameter: the state it
    leaves has the length of the state it got and differs from it at most
    in the scratch element, at [feedback_scratch_begin]. *)
Theorem feed_writes_scratch_only (N : Neuron) (inp state state' : list T) (y : T) :
  feed N inp state = Some (y, state') →
  length state' = length state
  ∧ ∀ j, j ≠ feedback_scratch_begin N → state' !! j = state !! j.
Proof.
  intros Hfeed. split; [by eapply feed_length|].
  intros j Hj.
  destruct (feed_changes_scratch_only N inp state state' y Hfeed)
    as [->|(_ & r & ->)]; [done|].
  by apply list_lookup_insert_ne.
Qed.

(** X4. [Layer::feed<Ofs>] on an array that holds the layer's state behind
    [Ofs]: it returns one output per neuron; output [k] is what
    [Neuron::feed] returns on the [k]-th slice of the array as it was
    before the call, so no neuron sees what another has written; the array
    keeps its length and is unchanged before [Ofs] and behind the layer's
    state. *)
Theorem layer_feed_slices (L : Layer) (Ofs : nat) (inp state : list T) :
  layer_input_size L ≤ length inp →
  Ofs + layer_state_size L ≤ length state →
  ∃ out state',
    layer_feed L Ofs inp state = Some (out, state')
    ∧ length out = layer_output_size L
    ∧ length state' = length state
    ∧ take Ofs state' = take Ofs state
    ∧ drop (Ofs + layer_state_size L) state' = drop (Ofs + layer_state_size L) state
    ∧ ∀ k, k < size L →
        ∃ y slice',
          feed (neuron_t L) inp (neuron_slice (neuron_t L) Ofs k state) = Some (y, slice')
          ∧ out !! k = Some y
          ∧ neuron_slice (neuron_t L) Ofs k state' = slice'.
Proof.
  intros Hin Hst. unfold layer_feed.
  by apply (layer_loop_spec (neuron_t L) inp Hin (size L) Ofs state).
Qed.

(** X5. The [static_assert] on the layer interfaces holds exactly for the
    networks of at least one layer in which every layer has as many outputs
    as the next has inputs; a network of one layer always passes. *)
Theorem network_well_formed_characterised (C : list Layer) :
  network_well_formed C
  ↔ C ≠ [] ∧ ∀ I L0 L1, C !! I = Some L0 → C !! S I = Some L1 →
                         layer_output_size L0 = layer_input_size L1.
Proof. apply network_well_formed_iff. Qed.

(** X6. Feed-forward evaluation of a network that passes the
    [static_assert], on an input of [input_size] values and a state array
    of [state_size] values or more: it returns [output_size] values, the
    array keeps its length and is unchanged behind [state_size], and when
    no neuron has feedback the whole array is unchanged, so that the
    evaluation can be repeated with the same result. *)
Theorem network_feed_safe (C : list Layer) (inp state : list T) (ni n : nat) :
  network_well_formed C →
  network_input_size C = Some ni →
  ni ≤ length inp →
  network_state_size C = Some n →
  n ≤ length state →
  ∃ out state',
    network_feed C inp state = Some (out, state')
    ∧ network_output_size C = Some (length out)
    ∧ length state' = length state
    ∧ drop n state' = drop n state
    ∧ ((∀ L, L ∈ C → Fb (neuron_t L) = none) →
       state' = state ∧ network_feed C inp state' = Some (out, state')).
Proof.
  intros [HC Hm]%network_well_formed_iff Hni Hin Hn Hst.
  rewrite network_state_size_sum in Hn by done. injection Hn as <-.
  unfold network_input_size in Hni.
  destruct (C !! 0) as [L|] eqn:HL; cbn [mbind option_bind] in Hni; [|done].
  injection Hni as <-.
  destruct (lookup_lt_is_Some_2 C (output_layer C)) as [Llast Hlast].
  { unfold output_layer. destruct C; [done | simpl; lia]. }
  destruct (do_feed_forward_spec C Hm (output_layer C) 0 L Llast inp state)
    as (out & state' & Hrun & Hlo & Hls & _ & Hdrop & Hnone); try done.
  exists out, state'. unfold network_feed. split; [done|].
  unfold network_output_size. rewrite Hlast. cbn [mbind option_bind].
  split; [by rewrite Hlo|]. split; [done|]. split; [done|].
  intros Hall. rewrite (Hnone Hall) in *. done.
Qed.

(** X7. A network constructed by [Network(val)] holds [state_size] copies
    of [val] and can be evaluated on every input of [input_size] values. *)
Theorem new_network_can_be_fed (C : list Layer) (val : T) (inp : list T) (ni : nat) :
  network_well_formed C →
  network_input_size C = Some ni →
  ni ≤ length inp →
  ∃ state n,
    Network_new C val = Some state
    ∧ network_state_size C = Some n
    ∧ state = replicate n val
    ∧ ∃ out state', network_feed C inp state = Some (out, state')
                    ∧ network_output_size C = Some (length out).
Proof.
  intros Hwf Hni Hin.
  pose proof Hwf as [HC Hm]%network_well_formed_iff.
  unfold Network_new. rewrite network_state_size_sum by done.
  cbn [mbind option_bind].
  exists (replicate (layers_size C) val), (layers_size C).
  do 3 (split; [done|]).
  unfold network_input_size in Hni.
  destruct (C !! 0) as [L|] eqn:HL; cbn [mbind option_bind] in Hni; [|done].
  injection Hni as <-.
  destruct (lookup_lt_is_Some_2 C (output_layer C)) as [Llast Hlast].
  { unfold output_layer. destruct C; [done | simpl; lia]. }
  destruct (do_feed_forward_spec C Hm (output_layer C) 0 L Llast inp
              (replicate (layers_size C) val))
    as (out & state' & Hrun & Hlo & _); try done.
  { by rewrite length_replicate. }
  exists out, state'. split; [done|].
  unfold network_output_size. rewrite Hlast. cbn [mbind option_bind].
  by rewrite Hlo.
Qed.

End EngineStatements.

Section LayoutStatements.
Import ann ann.activation ann.feedback.

Lemma layers_size_take_mono (C : list Layer) (I I' : nat) :
  I ≤ I' → layers_size (take I C) ≤ layers_size (take I' C).
Proof.
  intros Hle. replace (take I C) with (take I (take I' C)).
  - apply layers_size_take_le.
  - rewrite take_take. f_equal. lia.
Qed.

Lemma get_neuron_Some (C : list Layer) (I J : nat) (n : Neuron) (ofs : nat) :
  get_neuron C I J = Some (n, ofs) →
  ∃ L, C !! I = Some L ∧ J < size L ∧ n = neuron_t L
       ∧ ofs = layers_size (take I C) + J * state_size (neuron_t L)
       ∧ ofs + state_size n ≤ layers_size (take (S I) C).
Proof.
  unfold get_neuron. destruct (C !! I) as [L|] eqn:HL; cbn [mbind option_bind]; [|done].
  destruct (decide (J < size L)) as [HJ|]; [|done].
  rewrite accum_state_ofs_sum by (by eapply lookup_lt_Some).
  cbn [mbind option_bind]. intros [= <- <-]. exists L.
  do 4 (split; [done|]).
  rewrite (layers_size_take_S C I L HL). unfold layer_state_size. nia.
Qed.

(** X8. The state slices that [Network::get_neuron<I, J>] hands out:
    [get_neuron] is defined exactly for the layers of the network and the
    nodes of the layer; the slice of every neuron lies inside the state
    array of [state_size] values; the slices of two different neurons do
    not overlap. *)
Theorem get_neuron_slices_disjoint (C : list Layer) (total : nat) :
  network_state_size C = Some total →
  (∀ I J, is_Some (get_neuron C I J) ↔ ∃ L, C !! I = Some L ∧ J < size L)
  ∧ (∀ I J n ofs, get_neuron C I J = Some (n, ofs) → ofs + state_size n ≤ total)
  ∧ (∀ I J I' J' n ofs n' ofs',
       get_neuron C I J = Some (n, ofs) →
       get_neuron C I' J' = Some (n', ofs') →
       (I, J) ≠ (I', J') →
       ofs + state_size n ≤ ofs' ∨ ofs' + state_size n' ≤ ofs).
Proof.
  intros Htotal.
  assert (C ≠ []) as HC by (by destruct C).
  rewrite network_state_size_sum in Htotal by done. injection Htotal as <-.
  split; [|split].
  - intros I J. split.
    + intros [[n ofs] Hg]. destruct (get_neuron_Some _ _ _ _ _ Hg) as (L & ? & ? & _).
      eauto.
    + intros (L & HL & HJ). unfold get_neuron. rewrite HL. cbn [mbind option_bind].
      destruct (decide (J < size L)); [|done].
      rewrite accum_state_ofs_sum by (by eapply lookup_lt_Some). eauto.
  - intros I J n ofs Hg. destruct (get_neuron_Some _ _ _ _ _ Hg) as (L & _ & _ & _ & _ & Hle).
    pose proof (layers_size_take_le C (S I)). lia.
  - intros I J I' J' n ofs n' ofs' Hg Hg' Hne.
    destruct (get_neuron_Some _ _ _ _ _ Hg) as (L & HL & HJ & -> & Ho & Hle).
    destruct (get_neuron_Some _ _ _ _ _ Hg') as (L' & HL' & HJ' & -> & Ho' & Hle').
    destruct (lt_eq_lt_dec I I') as [[Hlt| ->]|Hgt].
    + left. pose proof (layers_size_take_mono C (S I) I' ltac:(lia)). lia.
    + assert (L' = L) as -> by congruence.
      assert (J ≠ J') as HJne by congruence.
      destruct (lt_eq_lt_dec J J') as [[?|?]|?]; [left; nia | done | right; nia].
    + right. pose proof (layers_size_take_mono C (S I') I ltac:(lia)). lia.
Qed.

(** X9. [visit_neurons] calls the visitor once for every neuron, layer by
    layer and node by node; the state pointers it passes tile the state
    array: the first slice begins at 0, each slice begins where the slice
    of the previous call ends, and the last one ends at [state_size]. *)
Theorem visit_neurons_tiles_state (C : list Layer) (total : nat) :
  network_state_size C = Some total →
  ∃ calls,
    visit_neurons record_visit C [] = Some (rev calls)
    ∧ tiles 0 calls total
    ∧ fst ∘ fst ∘ fst <$> calls = flat_neurons C
    ∧ ∀ n ofs I J, (n, ofs, I, J) ∈ calls →
        ∃ L, C !! I = Some L ∧ J < size L ∧ n = neuron_t L.
Proof.
  intros Htotal.
  assert (C ≠ []) as HC by (by destruct C).
  rewrite network_state_size_sum in Htotal by done. injection Htotal as <-.
  assert (0 + output_layer C < length C) as Hlt.
  { unfold output_layer. destruct C; [done | simpl; lia]. }
  destruct (do_visit_layer_spec C (output_layer C) 0 [] Hlt)
    as (w & Hrun & Ht & Hn & Hw).
  exists w. unfold visit_neurons. rewrite Hrun, app_nil_r. split; [done|].
  assert (take (S (0 + output_layer C)) C = C) as HtC.
  { apply take_ge. unfold output_layer. lia. }
  rewrite HtC in Ht. rewrite drop_0 in Hn.
  replace (S (output_layer C)) with (S (0 + output_layer C)) in Hn by done.
  rewrite HtC in Hn. done.
Qed.

End LayoutStatements.

(** * Further properties of the simulation driver *)

Section ConflictPhases.
Import cine2.
Context `{Collaborators}.

Lemma forage_agents (rate : Q) (d : Z) :
  ∀ (agents agents1 : list Individual) (its its1 : list Q) (g g1 : reng),
    forage rate d agents its g = Some (agents1, its1, g1) →
    length agents1 = length agents
    ∧ ∀ j a, agents !! j = Some a →
        ∃ a1, agents1 !! j = Some a1
              ∧ (a1 = a ∨ (handle a = false ∧ foraging a = true ∧ a1 = pick_item a)).
Proof.
  intros agents. induction agents as [|a agents IH];
    intros agents1 its its1 g g1; cbn [forage].
  - intros [= <- <- <-]. split; [done|]. intros j a Hj. by destruct j.
  - destruct (forage_one rate d a its g) as [[[a1 its0] g0]|] eqn:Hone;
      cbn [mbind option_bind]; [|done].
    destruct (forage rate d agents its0 g0) as [[[rest its2] g2]|] eqn:Hrest;
      cbn [mbind option_bind]; [|done].
    intros [= <- <- <-]. destruct (IH _ _ _ _ _ Hrest) as [Hlen Hj].
    split; [simpl; lia|]. intros [|j] b Hb; simpl in *; [|by apply Hj].
    injection Hb as ->. exists a1. split; [done|].
    unfold forage_one in Hone.
    destruct (handle b) eqn:Hh, (foraging b) eqn:Hf; cbn [negb andb] in Hone;
      try (injection Hone as <- _ _; by left).
    destruct (cell d (pos b)); cbn [mbind option_bind] in Hone; [|done].
    destruct (its !! n) as [it|]; cbn [mbind option_bind] in Hone; [|done].
    destruct (geb it 1); [|injection Hone as <- _ _; by left].
    destruct (bernoulli _ g) as [[|] g']; injection Hone as <- _ _; [by right | by left].
Qed.

Lemma geb_spec (a b : Q) : geb a b = true ↔ (b <= a)%Q.
Proof.
  unfold geb. destruct (Qlt_le_dec a b); split; try done. intros Hle. lra.
Qed.

Lemma collect_attackers_spec (d : Z) (hl : list Q) :
  ∀ (rest : list Individual) (i : nat) (attackers : list nat),
    collect_attackers d hl i rest = Some attackers →
    (∀ k, k ∈ attackers ↔ ∃ a, i ≤ k ∧ rest !! (k - i) = Some a ∧ attacks d hl a)
    ∧ StronglySorted lt attackers.
Proof.
  induction rest as [|a rest IH]; intros i attackers; cbn [collect_attackers].
  - intros [= <-]. split; [|constructor].
    intros k. split; [by intros ?%elem_of_nil|]. by intros (a & _ & Ha & _).
  - destruct (if negb (handling a) && negb (foraging a) then _ else _)
      as [b|] eqn:Hb; cbn [mbind option_bind]; [|done].
    destruct (collect_attackers d hl (S i) rest) as [tl|] eqn:Htl;
      cbn [mbind option_bind]; [|done].
    intros [= <-]. destruct (IH _ _ Htl) as [Hin Hsorted].
    assert (b = true ↔ attacks d hl a) as Hba.
    { unfold attacks.
      destruct (handling a), (foraging a); simpl in Hb;
        try (injection Hb as <-; split; [done | by intros (? & ? & _)]).
      destruct (at_cell d hl (pos a)) as [h|]; cbn [mbind option_bind] in Hb; [|done].
      injection Hb as <-. rewrite geb_spec.
      split; [by eauto|]. by intros (_ & _ & h' & [= <-] & ?). }
    assert (∀ k, k ∈ tl ↔ ∃ a', i ≤ k ∧ k ≠ i ∧ (a :: rest) !! (k - i) = Some a'
                               ∧ attacks d hl a') as Htl'.
    { intros k. rewrite Hin. split.
      - intros (a' & Hk & Ha' & Hatt). exists a'.
        replace (k - i) with (S (k - S i)) by lia. split; [lia|]. split; [lia|done].
      - intros (a' & Hk & Hne & Ha' & Hatt). exists a'.
        replace (k - i) with (S (k - S i)) in Ha' by lia. split; [lia | done]. }
    split.
    + intros k. destruct b.
      * rewrite elem_of_cons, Htl'. split.
        -- intros [->|(a' & ? & ? & ? & ?)]; [|by eauto].
           exists a. rewrite Nat.sub_diag. split; [done|]. split; [done|].
           by apply Hba.
        -- intros (a' & Hk & Ha' & Hatt).
           destruct (decide (k = i)) as [->|]; [by left | right; eauto].
      * rewrite Htl'. split; [intros (a' & ? & ? & ? & ?); by eauto|].
        intros (a' & Hk & Ha' & Hatt). exists a'.
        destruct (decide (k = i)) as [->|]; [|done].
        rewrite Nat.sub_diag in Ha'. injection Ha' as ->.
        apply Hba in Hatt. done.
    + destruct b; [|done]. constructor; [done|].
      apply Forall_forall. intros k Hk. apply Hin in Hk as (? & ? & _). lia.
Qed.

Lemma potentially_attacked_complete (ai : Individual) (i : nat) :
  ∀ (rest : list Individual) (j v : nat) (av : Individual),
    rest !! (v - j) = Some av → j ≤ v → v ≠ i →
    pos av = pos ai → handling av = true →
    v ∈ potentially_attacked ai i j rest.
Proof.
  induction rest as [|aj rest IH]; intros j v av Hav Hle Hne Hp Hh;
    cbn [potentially_attacked]; [done|].
  destruct (decide (v = j)) as [->|Hvj].
  - rewrite Nat.sub_diag in Hav. injection Hav as ->.
    rewrite bool_decide_eq_true_2 by done.
    rewrite (proj2 (Nat.eqb_neq i j)) by done. rewrite Hh. simpl. by left.
  - replace (v - j) with (S (v - S j)) in Hav by lia. simpl in Hav.
    assert (v ∈ potentially_attacked ai i (S j) rest) as Hin
      by (eapply IH; eauto; lia).
    destruct (_ && _ && _); [by right | done].
Qed.

Lemma has_victim_potentially (agents : list Individual) (i : nat) (ai : Individual) :
  agents !! i = Some ai →
  has_victim agents i ↔ potentially_attacked ai i 0 agents ≠ [].
Proof.
  intros Hai. split.
  - intros (ai' & v & av & Hai' & Hav & Hne & Hp & Hh) Hnil.
    assert (ai' = ai) as -> by congruence.
    assert (v ∈ potentially_attacked ai i 0 agents) as Hin.
    { eapply potentially_attacked_complete; eauto; [|lia].
      by rewrite Nat.sub_0_r. }
    rewrite Hnil in Hin. by apply elem_of_nil in Hin.
  - intros Hne. destruct (potentially_attacked ai i 0 agents) as [|v vs] eqn:Hpot; [done|].
    destruct (potentially_attacked_sound ai i agents 0 v) as (av & Hav & _ & ? & ? & ?).
    { rewrite Hpot. by left. }
    rewrite Nat.sub_0_r in Hav. by exists ai, v, av.
Qed.

Lemma select_victims_defined (agents : list Individual) :
  ∀ (attackers : list nat) (g : reng),
    Forall (λ i, i < length agents) attackers →
    ∃ victims g',
      select_victims agents attackers g = Some (victims, g')
      ∧ ((Forall (has_victim agents) attackers ∧ length victims = length attackers)
         ∨ (¬ Forall (has_victim agents) attackers
            ∧ length victims < length attackers)).
Proof.
  induction attackers as [|i attackers IH]; intros g Hlt; cbn [select_victims].
  - exists [], g. split; [done|]. left. split; [constructor | done].
  - apply Forall_cons in Hlt as [Hi Hlt].
    destruct (lookup_lt_is_Some_2 agents i Hi) as [ai Hai].
    rewrite Hai. cbn [mbind option_bind].
    pose proof (has_victim_potentially agents i ai Hai) as Hhv.
    destruct (potentially_attacked ai i 0 agents) as [|p ps] eqn:Hpot.
    + destruct (IH g Hlt) as (victims & g' & Hrun & _).
      exists victims, g'. split; [done|].
      pose proof (select_victims_sound agents attackers victims g g' Hrun) as [Hle _].
      right. split; [|simpl; lia].
      intros [Hv _]%Forall_cons. apply Hhv in Hv. done.
    + pose proof (uniform_int_range 0 (Z.of_nat (length (p :: ps) - 1)) g ltac:(lia))
        as Hfocal.
      destruct (uniform_int 0 _ g) as [focal g1]. simpl in Hfocal.
      destruct (lookup_lt_is_Some_2 (p :: ps) (Z.to_nat focal)) as [v Hv].
      { simpl. simpl in Hfocal. lia. }
      rewrite Hv. cbn [mbind option_bind].
      destruct (IH g1 Hlt) as (victims & g' & -> & Hcases).
      cbn [mbind option_bind]. exists (v :: victims), g'. split; [done|].
      assert (has_victim agents i) as Hi' by (by apply Hhv).
      destruct Hcases as [[Hall Hlen]|[Hnot Hlen]].
      * left. split; [by constructor | simpl; lia].
      * right. split; [|simpl; lia]. by intros [_ ?]%Forall_cons.
Qed.

Lemma fight_one_defined (L : Landscape) (r : Z) (ai vi : nat)
    (agents : list Individual) (g : reng) :
  ai < length agents → vi < length agents →
  ∃ agents' g',
    fight_one L r ai vi agents g = Some (agents', g')
    ∧ length agents' = length agents
    ∧ ∀ j, j ≠ ai → j ≠ vi → agents' !! j = agents !! j.
Proof.
  intros Hai Hvi. unfold fight_one.
  destruct (lookup_lt_is_Some_2 agents vi Hvi) as [v Hv].
  destruct (lookup_lt_is_Some_2 agents ai Hai) as [a Ha].
  rewrite Hv. cbn [mbind option_bind].
  destruct (handling v); [|by eauto].
  rewrite !bernoulli_1, Ha. cbn [mbind option_bind].
  rewrite store_lt by done. cbn [mbind option_bind].
  destruct (lookup_lt_is_Some_2
              (<[ai := set_handling a true (handle_time v)]> agents) vi) as [v1 Hv1].
  { by rewrite length_insert. }
  rewrite Hv1. cbn [mbind option_bind].
  destruct (flee L r v1 _) as [v2 g3].
  rewrite store_lt by (by rewrite length_insert). cbn [mbind option_bind].
  eexists _, _. split; [done|]. split; [by rewrite !length_insert|].
  intros j Hja Hjv. by rewrite !list_lookup_insert_ne.
Qed.

Lemma fights_defined (L : Landscape) (r : Z) (attackers attacked : list nat) :
  ∀ (count i : nat) (agents : list Individual) (g : reng),
    i + count ≤ length attackers →
    i + count ≤ length attacked →
    Forall (λ k, k < length agents) attackers →
    Forall (λ k, k < length agents) attacked →
    ∃ agents' g',
      fights L r attackers attacked i count agents g = Some (agents', g')
      ∧ length agents' = length agents
      ∧ ∀ j, j ∉ attackers → j ∉ attacked → agents' !! j = agents !! j.
Proof.
  induction count as [|count IH]; intros i agents g Hatk Hvic Hla Hlv; cbn [fights].
  - by eauto.
  - destruct (lookup_lt_is_Some_2 attacked i) as [vi Hvi]; [lia|].
    destruct (lookup_lt_is_Some_2 attackers i) as [ai Hai]; [lia|].
    rewrite Hvi, Hai. cbn [mbind option_bind].
    destruct (fight_one_defined L r ai vi agents g) as (agents1 & g1 & -> & Hlen & Hframe).
    { by eapply (proj1 (Forall_lookup _ _) Hla). }
    { by eapply (proj1 (Forall_lookup _ _) Hlv). }
    cbn [mbind option_bind].
    destruct (IH (S i) agents1 g1) as (agents' & g' & -> & Hlen' & Hframe');
      [lia | lia | by rewrite Hlen | by rewrite Hlen |].
    exists agents', g'. split; [done|]. split; [lia|].
    intros j Hja Hjv. rewrite Hframe' by done. apply Hframe.
    + intros ->. apply Hja. by eapply list_elem_of_lookup_2.
    + intros ->. apply Hjv. by eapply list_elem_of_lookup_2.
Qed.

Lemma make_conflicts_defined (attackers attacked : list nat) :
  length attackers ≤ length attacked → is_Some (make_conflicts attackers attacked).
Proof.
  intros Hle. unfold make_conflicts. apply mapM_is_Some, Forall_forall.
  intros i Hi%elem_of_seq. simpl.
  destruct (lookup_lt_is_Some_2 attackers i) as [a ->]; [lia|].
  destruct (lookup_lt_is_Some_2 attacked i) as [v ->]; [lia|]. simpl. eauto.
Qed.

Lemma attackers_phase_facts (agents : list Individual) (attackers victims : list nat)
    (d : Z) (hl : list Q) (g g' : reng) :
  collect_attackers d hl 0 agents = Some attackers →
  select_victims agents attackers g = Some (victims, g') →
  (∀ i, i ∈ attackers ↔ ∃ a, agents !! i = Some a ∧ attacks d hl a)
  ∧ length victims ≤ length attackers
  ∧ ∀ v, v ∈ victims →
      ∃ i ai av, i ∈ attackers ∧ agents !! i = Some ai ∧ agents !! v = Some av
                 ∧ v ≠ i ∧ pos av = pos ai ∧ handling av = true.
Proof.
  intros Hcollect Hselect.
  destruct (collect_attackers_spec d hl agents 0 attackers Hcollect) as [Hin Hsorted].
  destruct (select_victims_sound agents attackers victims g g' Hselect) as [Hlen Hall].
  split; [|split; [done|]].
  - intros i. rewrite Hin. split.
    + intros (a & _ & Ha & Hatt). rewrite Nat.sub_0_r in Ha. eauto.
    + intros (a & Ha & Hatt). exists a. rewrite Nat.sub_0_r. split; [lia | done].
  - intros v Hv. by apply (proj1 (Forall_forall _ _) Hall).
Qed.

Lemma forage_items_length (rate : Q) (d : Z) :
  ∀ (agents agents1 : list Individual) (its its1 : list Q) (g g1 : reng),
    forage rate d agents its g = Some (agents1, its1, g1) → length its1 = length its.
Proof.
  intros agents. induction agents as [|a agents IH];
    intros agents1 its its1 g g1; cbn [forage].
  - by intros [= _ <- _].
  - destruct (forage_one rate d a its g) as [[[a1 its0] g0]|] eqn:Hone;
      cbn [mbind option_bind]; [|done].
    destruct (forage rate d agents its0 g0) as [[[rest its2] g2]|] eqn:Hrest;
      cbn [mbind option_bind]; [|done].
    intros [= _ <- _]. rewrite (IH _ _ _ _ _ Hrest).
    destruct (forage_one_items _ _ _ _ _ _ _ _ Hone) as [->|(c & it & _ & _ & _ & ->)];
      [done | apply length_insert].
Qed.

(** X13. The attackers that [resolve_grazing_and_attacks] collects are,
    in ascending order and without repetition, exactly the indices of the
    agents that neither handle nor forage and read 1 or more in the
    [handlers] layer at their cell; every victim selected is another
    agent, on the cell of one of the attackers, that handles; there is at
    most one victim per attacker. *)
Theorem attackers_and_victims (d : Z) (hl : list Q) (agents : list Individual)
    (attackers victims : list nat) (g g' : reng) :
  collect_attackers d hl 0 agents = Some attackers →
  select_victims agents attackers g = Some (victims, g') →
  (∀ i, i ∈ attackers ↔ ∃ a, agents !! i = Some a ∧ attacks d hl a)
  ∧ StronglySorted lt attackers
  ∧ length victims ≤ length attackers
  ∧ ∀ v, v ∈ victims →
      ∃ i ai av, i ∈ attackers ∧ agents !! i = Some ai ∧ agents !! v = Some av
                 ∧ v ≠ i ∧ pos av = pos ai ∧ handling av = true.
Proof.
  intros Hcollect Hselect.
  destruct (attackers_phase_facts agents attackers victims d hl g g' Hcollect Hselect)
    as (Hin & Hlen & Hvic).
  destruct (collect_attackers_spec d hl agents 0 attackers Hcollect) as [_ Hsorted].
  done.
Qed.

(** X14. When the first loop of [resolve_grazing_and_attacks] has run
    and the attackers are collected, the call has a defined result exactly
    when every attacker shares its cell with an agent that handles;
    otherwise the attacked list is read past its end. *)
Theorem resolve_defined_iff_every_attacker_has_victim (param : Param) (L : Landscape)
    (agents agents1 : list Individual) (its : list Q) (attackers : list nat)
    (g g1 : reng) :
  forage (detection_rate (landscape param)) (dim L) agents (items L) g
  = Some (agents1, its, g1) →
  collect_attackers (dim L) (handlers L) 0 agents1 = Some attackers →
  is_Some (resolve_grazing_and_attacks param L agents g)
  ↔ ∀ i, i ∈ attackers → has_victim agents1 i.
Proof.
  intros Hforage Hcollect.
  destruct (collect_attackers_spec _ _ _ _ _ Hcollect) as [Hin _].
  assert (Forall (λ i, i < length agents1) attackers) as Hlt.
  { apply Forall_forall. intros i (a & _ & Ha & _)%Hin.
    apply lookup_lt_Some in Ha. lia. }
  destruct (select_victims_defined agents1 attackers g1 Hlt)
    as (victims & g2 & Hselect & [[Hv Hall]|[Hnot Hshort]]).
  2: { rewrite (resolve_undefined_when_victim_missing param L agents agents1 its
                  attackers victims g g1 g2) by done.
       split; [by intros [? ?]|]. intros Hv.
       destruct Hnot. by apply Forall_forall. }
  - split; [intros _; by apply Forall_forall|]. intros _.
    unfold resolve_grazing_and_attacks. cbn [dim items handlers set_temp set_items].
    rewrite Hforage. cbn [mbind option_bind].
    rewrite Hcollect. cbn [mbind option_bind].
    rewrite Hselect. cbn [mbind option_bind].
    destruct (make_conflicts_defined attackers victims) as [cv ->]; [lia|].
    cbn [mbind option_bind]. destruct (std_shuffle cv g2) as [cv' g3].
    destruct (select_victims_sound _ _ _ _ _ Hselect) as [_ Hsound].
    destruct (fights_defined
                (set_items (set_temp L (handlers L)) its)
                (flee_radius (cine2.agents param)) attackers victims
                (length attackers) 0 agents1 g3)
      as (agents2 & g4 & -> & _); [lia | lia | done | |].
    { eapply Forall_impl; [exact Hsound|]. simpl.
      intros v (_ & _ & av & _ & _ & Hav & _). by eapply lookup_lt_Some. }
    cbn [mbind option_bind]. eauto.
Qed.

(** X15. What a call of [resolve_grazing_and_attacks] that returns leaves
    alone: the number of agents; every layer of the landscape except the
    items and the scratch layer, which receives a copy of the [handlers]
    layer; the number of cells of the item layer; and every agent that
    neither handles nor forages and reads less than 1 in the [handlers]
    layer at its cell. *)
Theorem resolve_leaves_alone (param : Param) (L L' : Landscape)
    (agents agents' : list Individual) (g g' : reng) :
  resolve_grazing_and_attacks param L agents g = Some (L', agents', g') →
  length agents' = length agents
  ∧ L' = set_items (set_temp L (handlers L)) (items L')
  ∧ length (items L') = length (items L)
  ∧ ∀ j a h, agents !! j = Some a →
      handling a = false → foraging a = false →
      at_cell (dim L) (handlers L) (pos a) = Some h → (h < 1)%Q →
      agents' !! j = Some a.
Proof.
  unfold resolve_grazing_and_attacks. cbn [dim items handlers set_temp set_items].
  intros Hrun.
  destruct (forage _ _ agents _ g) as [[[agents1 its] g1]|] eqn:Hforage;
    cbn [mbind option_bind] in Hrun; [|done].
  destruct (collect_attackers _ _ 0 agents1) as [attackers|] eqn:Hcollect;
    cbn [mbind option_bind] in Hrun; [|done].
  destruct (select_victims agents1 attackers g1) as [[victims g2]|] eqn:Hselect;
    cbn [mbind option_bind] in Hrun; [|done].
  destruct (make_conflicts attackers victims) as [cv|] eqn:Hcv;
    cbn [mbind option_bind] in Hrun; [|done].
  destruct (std_shuffle cv g2) as [cv' g3].
  destruct (fights _ _ attackers victims 0 _ agents1 g3) as [[agents2 g4]|] eqn:Hfights;
    cbn [mbind option_bind] in Hrun; [|done].
  injection Hrun as <- <- <-.
  destruct (forage_agents _ _ _ _ _ _ _ _ Hforage) as [Hlen1 Hsame].
  destruct (attackers_phase_facts agents1 attackers victims (dim L) (handlers L)
              g1 g2 Hcollect Hselect) as (Hatk & Hvlen & Hvic).
  assert (length victims = length attackers) as Hveq.
  { destruct (decide (length victims < length attackers)) as [Hshort|?]; [|lia].
    by rewrite make_conflicts_short in Hcv. }
  destruct (fights_defined
              (set_items (set_temp L (handlers L)) its)
              (flee_radius (cine2.agents param)) attackers victims
              (length attackers) 0 agents1 g3)
    as (agents2' & g4' & Hfights' & Hlen2 & Hframe); [lia | lia | | |].
  { apply Forall_forall. intros i (a & Ha & _)%Hatk. by eapply lookup_lt_Some. }
  { apply Forall_forall. intros v (_ & _ & av & _ & _ & Hav & _)%Hvic.
    by eapply lookup_lt_Some. }
  rewrite Hfights in Hfights'. injection Hfights' as <- <-.
  split; [lia|]. split; [done|]. cbn [items set_items].
  split; [by eapply forage_items_length|].
  intros j a h Ha Hh Hf Hcell Hlt.
  destruct (Hsame j a Ha) as (a1 & Ha1 & [->|(_ & Hf' & _)]); [|congruence].
  rewrite Hframe; [done | |].
  - intros (a' & Ha' & _ & _ & h' & Hcell' & Hge)%Hatk.
    assert (a' = a) as -> by congruence.
    assert (h' = h) as -> by congruence. lra.
  - intros (_ & _ & av & _ & _ & Hav & _ & _ & Hhv)%Hvic. congruence.
Qed.

End ConflictPhases.

Section GrowthAndConstruction.
Import cine2.
Context `{Collaborators}.

Lemma bernoulli_draws (p : Q) (g : reng) : snd (bernoulli p g) = snd (next g).
Proof. reflexivity. Qed.

Lemma bernoulli_never (p : Q) (g : reng) : (p <= 0)%Q → fst (bernoulli p g) = false.
Proof.
  intros Hp. unfold bernoulli. simpl.
  destruct (canonical_range (tape g (cursor g))) as [H0 _].
  destruct (Qlt_le_dec _ p); [lra | done].
Qed.

Lemma bernoulli_always (p : Q) (g : reng) : (1 <= p)%Q → fst (bernoulli p g) = true.
Proof.
  intros Hp. unfold bernoulli. simpl.
  destruct (canonical_range (tape g (cursor g))) as [_ H1].
  destruct (Qlt_le_dec _ p); [done | lra].
Qed.

Lemma grow_items_draws (cap : list Q) (m growth : Q) :
  ∀ (count i : nat) (its its' : list Q) (g g' : reng),
    grow_items cap m growth i count its g = Some (its', g') →
    g' = advance g count.
Proof.
  induction count as [|count IH]; intros i its its' g g'; cbn [grow_items].
  - intros [= _ <-]. by rewrite advance_0.
  - pose proof (bernoulli_draws growth g) as Hd.
    destruct (bernoulli growth g) as [b g1]. cbn [fst snd] in Hd. subst g1.
    rewrite <- advance_next. destruct b; [|by apply IH].
    destruct (cap !! i); cbn [mbind option_bind]; [|done].
    destruct (its !! i); cbn [mbind option_bind]; [|done].
    destruct (store its i _); cbn [mbind option_bind]; [|done].
    by apply IH.
Qed.

Lemma grow_items_never (cap : list Q) (m growth : Q) :
  (growth <= 0)%Q →
  ∀ (count i : nat) (its : list Q) (g : reng),
    grow_items cap m growth i count its g = Some (its, advance g count).
Proof.
  intros Hp. induction count as [|count IH]; intros i its g; cbn [grow_items].
  - by rewrite advance_0.
  - pose proof (bernoulli_never growth g Hp) as Hb.
    pose proof (bernoulli_draws growth g) as Hd.
    destruct (bernoulli growth g) as [b g1]. cbn [fst snd] in Hb, Hd. subst.
    by rewrite IH, advance_next.
Qed.

Lemma grow_items_always (cap : list Q) (m growth : Q) :
  (1 <= growth)%Q →
  ∀ (count i : nat) (its : list Q) (g : reng),
    i + count ≤ length cap →
    i + count ≤ length its →
    ∃ its', grow_items cap m growth i count its g = Some (its', advance g count)
      ∧ length its' = length its
      ∧ ∀ j, its' !! j
             = if decide (i ≤ j < i + count)
               then c ← cap !! j; it ← its !! j;
                    Some (Qmin (floor (c * m)) (floor (it + 1)))
               else its !! j.
Proof.
  intros Hp. induction count as [|count IH]; intros i its g Hcap Hits;
    cbn [grow_items].
  - exists its. rewrite advance_0. split; [done|]. split; [done|].
    intros j. case_decide; [lia | done].
  - pose proof (bernoulli_always growth g Hp) as Hb.
    pose proof (bernoulli_draws growth g) as Hd.
    destruct (bernoulli growth g) as [b g1]. cbn [fst snd] in Hb, Hd. subst.
    destruct (lookup_lt_is_Some_2 cap i) as [c Hc]; [lia|].
    destruct (lookup_lt_is_Some_2 its i) as [it Hit]; [lia|].
    rewrite Hc, Hit. cbn [mbind option_bind].
    rewrite store_lt by lia. cbn [mbind option_bind].
    destruct (IH (S i) (<[i := Qmin (floor (c * m)) (floor (it + 1))]> its)
                (snd (next g))) as (its' & -> & Hlen & Hj).
    { lia. } { rewrite length_insert. lia. }
    exists its'. rewrite advance_next. split; [done|].
    rewrite length_insert in Hlen. split; [done|].
    intros j. rewrite Hj. destruct (decide (j = i)) as [->|Hne].
    + rewrite list_lookup_insert_eq by lia. rewrite Hc, Hit.
      repeat case_decide; (done || lia).
    + rewrite list_lookup_insert_ne by done.
      repeat case_decide; (done || lia).
Qed.

Lemma Qmin_floor_full (q : Q) : Qmin (floor q) (floor (floor q + 1)) = floor q.
Proof.
  unfold Qmin, GenericMinMax.gmin.
  destruct (floor q ?= floor (floor q + 1))%Q eqn:Hcmp; try done.
  apply Qgt_alt in Hcmp. pose proof (floor_gt (floor q + 1)). lra.
Qed.

(** X16. Item growth draws exactly one raw number per cell, whether or
    not the cell grows.  With [item_growth] at most 0 it changes no cell;
    with [item_growth] at least 1 it sets every cell to
    [min(floor(capacity × max_item_cap), floor(items + 1))]. *)
Theorem growth_draws_and_extremes (S : Simulation) (g : reng) :
  let L := landscape_ S in
  let m := max_item_cap (landscape (param_ S)) in
  let DD := Z.to_nat (dim L * dim L) in
  (∀ S' g', growth_phase S g = Some (S', g') → g' = advance g DD)
  ∧ ((item_growth (landscape (param_ S)) <= 0)%Q →
     growth_phase S g = Some (set_landscape S (set_items L (items L)), advance g DD))
  ∧ ((1 <= item_growth (landscape (param_ S)))%Q →
     DD ≤ length (capacity L) → DD ≤ length (items L) →
     ∃ S', growth_phase S g = Some (S', advance g DD)
       ∧ length (items (landscape_ S')) = length (items L)
       ∧ ∀ j c it, j < DD → capacity L !! j = Some c → items L !! j = Some it →
           items (landscape_ S') !! j = Some (Qmin (floor (c * m)) (floor (it + 1)))).
Proof.
  intros L m DD. unfold growth_phase. fold L. fold DD. fold m.
  split; [|split].
  - intros S' g'.
    destruct (grow_items _ _ _ 0 DD (items L) g) as [[its g1]|] eqn:Hrun;
      cbn [mbind option_bind]; [|done].
    intros [= _ <-]. by eapply grow_items_draws.
  - intros Hp. by rewrite grow_items_never.
  - intros Hp Hcap Hits.
    destruct (grow_items_always (capacity L) m _ Hp DD 0 (items L) g)
      as (its' & -> & Hlen & Hj); [lia | lia |].
    cbn [mbind option_bind]. eexists. split; [done|]. simpl.
    split; [done|]. intros j c it Hlt Hc Hit.
    rewrite Hj, Hc, Hit. case_decide; [done | lia].
Qed.

(** X17. Full item cover is a fixed point of item growth: on a landscape
    in which every cell holds [floor(capacity × max_item_cap)] items, as
    the constructor leaves it, the growth loop changes no cell. *)
Theorem growth_keeps_full_cover (S : Simulation) (g : reng) :
  let L := landscape_ S in
  let m := max_item_cap (landscape (param_ S)) in
  Z.to_nat (dim L * dim L) = length (capacity L) →
  items L = (λ c, floor (c * m)) <$> capacity L →
  ∃ S' g', growth_phase S g = Some (S', g')
           ∧ items (landscape_ S') = items L.
Proof.
  intros L m Hdim Hfull. unfold growth_phase. fold L. fold m. rewrite Hdim.
  destruct (grow_items_spec (capacity L) m (item_growth (landscape (param_ S)))
              (length (capacity L)) 0 (items L) g)
    as (its' & g' & -> & Hlen & Hj); [lia | rewrite Hfull, length_fmap; lia |].
  cbn [mbind option_bind]. eexists _, g'. split; [done|]. simpl.
  apply list_eq. intros j.
  destruct (decide (j < length (capacity L))) as [Hlt|Hge].
  - destruct (Hj j) as [_ Hin].
    destruct Hin as (c & it & it' & Hc & Hit & -> & [->| ->]); [lia | done |].
    rewrite Hit. f_equal.
    rewrite Hfull, list_lookup_fmap, Hc in Hit. injection Hit as <-.
    apply Qmin_floor_full.
  - destruct (Hj j) as [Hout _]. apply Hout. lia.
Qed.

Lemma on_grid_cell (d : Z) (a : Individual) : on_grid d a ↔ is_Some (cell d (pos a)).
Proof.
  unfold on_grid, cell.
  destruct (decide (0 ≤ x (pos a) < d ∧ 0 ≤ y (pos a) < d)%Z) as [Hin|Hout].
  - split; [eauto | done].
  - split; [done | by intros [? ?]].
Qed.

Lemma uniform_int_draws (lo hi : Z) (g : reng) :
  snd (uniform_int lo hi g) = snd (next g).
Proof. reflexivity. Qed.

Lemma init_positions_spec (d : Z) :
  ∀ (agents agents' : list Individual) (g g' : reng),
    init_positions d agents g = (agents', g') →
    length agents' = length agents
    ∧ g' = advance g (2 * length agents)
    ∧ ((0 < d)%Z → Forall (on_grid d) agents').
Proof.
  intros agents. induction agents as [|a agents IH]; intros agents' g g';
    cbn [init_positions].
  - intros [= <- <-]. rewrite advance_0. split; [done|]. split; [done|]. constructor.
  - pose proof (uniform_int_draws 0 (d - 1) g) as Hd1.
    pose proof (λ Hd, uniform_int_range 0 (d - 1) g Hd) as Hx.
    destruct (uniform_int 0 (d - 1) g) as [px g1]. cbn [fst snd] in Hd1, Hx. subst g1.
    pose proof (uniform_int_draws 0 (d - 1) (snd (next g))) as Hd2.
    pose proof (λ Hd, uniform_int_range 0 (d - 1) (snd (next g)) Hd) as Hy.
    destruct (uniform_int 0 (d - 1) (snd (next g))) as [py g2].
    cbn [fst snd] in Hd2, Hy. subst g2.
    destruct (init_positions d agents _) as [rest g3] eqn:Hrest.
    intros [= <- <-]. destruct (IH _ _ _ Hrest) as (Hlen & -> & Hgrid).
    split; [simpl; lia|]. split.
    + rewrite !advance_next. f_equal. simpl. lia.
    + intros Hpos. constructor; [|by apply Hgrid].
      unfold on_grid. simpl. specialize (Hx ltac:(lia)). specialize (Hy ltac:(lia)). lia.
Qed.

(** X18. A simulation that the constructor returns: the landscape has
    side 32 or more; the generation and timestep counters are -1; every
    cell holds [floor(capacity × max_item_cap)] items; there are
    [param.agents.N] agents, all of them on the grid, with fitness 0;
    two raw numbers were drawn per agent. *)
Theorem constructor_establishes (param : Param) (L0 : Landscape) (g g' : reng)
    (S : Simulation) :
  length (capacity L0) = Z.to_nat (dim L0 * dim L0) →
  length (items L0) = Z.to_nat (dim L0 * dim L0) →
  Simulation_new param L0 g = Some (S, g') →
  (32 ≤ dim (landscape_ S))%Z
  ∧ g_ S = (-1)%Z ∧ t_ S = (-1)%Z ∧ param_ S = param
  ∧ capacity (landscape_ S) = capacity L0
  ∧ items (landscape_ S)
    = (λ c, floor (c * max_item_cap (landscape param))) <$> capacity L0
  ∧ length (pop (agents_ S)) = agents_N (agents param)
  ∧ Forall (on_grid (dim (landscape_ S))) (pop (agents_ S))
  ∧ fitness (agents_ S) = replicate (agents_N (agents param)) 0%Q
  ∧ length (tmp_pop (agents_ S)) = agents_N (agents param)
  ∧ g' = advance g (2 * agents_N (agents param)).
Proof.
  intros Hcap Hits. unfold Simulation_new.
  case_decide as Hdim; [done|].
  destruct (init_items_spec (capacity L0) (max_item_cap (landscape param))
              (Z.to_nat (dim L0 * dim L0)) 0 (items L0))
    as (its & -> & Hlen & Hj); [lia | lia |].
  cbn [mbind option_bind].
  destruct (init_positions _ _ g) as [agents1 g1] eqn:Hpos.
  destruct (init_positions_spec _ _ _ _ _ Hpos) as (Hlen1 & -> & Hgrid).
  cbn [pop] in Hlen1. rewrite length_replicate in Hlen1.
  assert (its = (λ c, floor (c * max_item_cap (landscape param))) <$> capacity L0)
    as Hfull.
  { apply list_eq. intros j. rewrite Hj, list_lookup_fmap.
    case_decide as Hin; [done|].
    rewrite (lookup_ge_None_2 (capacity L0)) by lia.
    rewrite (lookup_ge_None_2 (items L0)) by lia. done. }
  destruct (init_agents_ann param) as [ia|].
  - unfold init_anns_from_archive.
    repeat case_decide; cbn [mbind option_bind]; try done;
      (intros [= <- <-]; simpl in *; rewrite length_replicate;
       repeat split; try done; try lia; apply Hgrid; lia).
  - cbn [mbind option_bind]. intros [= <- <-]. simpl in *. rewrite length_replicate.
    repeat split; try done; try lia. apply Hgrid. lia.
Qed.

(** X19. The constructor throws or returns: on a landscape whose layers
    have [dim × dim] cells it returns exactly when the side is 32 or more
    and, if an archive is given, the generation extracted from it (never a
    generation after the last, [G - 1]) holds as many networks as there
    are agents, of the state size of the live networks. *)
Theorem constructor_returns_iff (param : Param) (L0 : Landscape) (g : reng) :
  length (capacity L0) = Z.to_nat (dim L0 * dim L0) →
  length (items L0) = Z.to_nat (dim L0 * dim L0) →
  (archive_generation param ≤ G param - 1)%Z
  ∧ (is_Some (Simulation_new param L0 g)
     ↔ (32 ≤ dim L0)%Z
       ∧ ∀ ia, init_agents_ann param = Some ia →
           let live := make_any_ann (agents_L (agents param)) (agents_N (agents param)) in
           un (ia (archive_generation param)) = length (blocks live)
           ∧ usize (ia (archive_generation param)) = type_size live).
Proof.
  intros Hcap Hits. split.
  { unfold archive_generation. case_decide; lia. }
  unfold Simulation_new.
  destruct (init_items_spec (capacity L0) (max_item_cap (landscape param))
              (Z.to_nat (dim L0 * dim L0)) 0 (items L0))
    as (its & -> & _); [lia | lia |].
  cbn [mbind option_bind].
  destruct (init_positions _ _ g) as [agents1 g1].
  case_decide as Hdim.
  { split; [by intros [? ?] | intros [? _]; lia]. }
  destruct (init_agents_ann param) as [ia|].
  - unfold init_anns_from_archive. fold (archive_generation param).
    cbn [ann set_pop]. split.
    + intros Hsome. split; [lia|]. intros ia' [= <-]. simpl.
      repeat case_decide; cbn [mbind option_bind] in Hsome;
        try (by destruct Hsome); done.
    + intros [_ Hia]. destruct (Hia ia eq_refl) as [Hun Hus]. simpl in Hun, Hus.
      repeat case_decide; cbn [mbind option_bind]; try done; eauto.
  - cbn [mbind option_bind]. split; [|by eauto].
    intros _. split; [lia | done].
Qed.

End GrowthAndConstruction.

Section GenerationsAndTimesteps.
Import cine2.
Context `{Collaborators}.

Lemma wrap_on_grid (d : Z) (p : Coordinate) :
  (0 < d)%Z → (0 ≤ x (wrap d p) < d)%Z ∧ (0 ≤ y (wrap d p) < d)%Z.
Proof.
  intros Hd. unfold wrap. simpl.
  split; apply Z.mod_pos_bound; lia.
Qed.

Lemma create_new_generation_spec (L : Landscape) (P : Population)
    (iparam : ind_param) (fixed : bool) (g : reng) :
  (0 ≤ sprout_radius iparam)%Z →
  (0 < Qsum (rdist P))%Q →
  length (rdist P) = length (pop P) →
  length (tmp_pop P) = length (pop P) →
  length (blocks (ann P)) = length (pop P) →
  length (blocks (tmp_ann P)) = length (pop P) →
  ∃ P' g',
    create_new_generation L P iparam fixed g = Some (P', g')
    ∧ length (pop P') = length (pop P)
    ∧ tmp_pop P' = pop P ∧ tmp_ann P' = ann P
    ∧ fitness P' = fitness P ∧ rdist P' = rdist P
    ∧ ∀ i o, pop P' !! i = Some o →
        ∃ t p k, o = sprout t (wrap (dim L) p) k ∧ k < length (pop P).
Proof.
  intros Hr Hws Hlw Hltp Hla Hlta.
  destruct (reproduce_spec (dim L) (sprout_radius iparam) (pop P) (rdist P) (ann P)
              Hws Hlw Hla (length (pop P)) 0 (tmp_pop P) (tmp_ann P) g)
    as (tp & ta & Hrun & Hlt & _ & _ & Hj); [lia | lia |].
  unfold create_new_generation, stage_offspring. rewrite Hrun.
  cbn [mbind option_bind]. unfold mutate_staging. cbn [tmp_ann tmp_pop set_staging].
  destruct (mutate ta iparam fixed _) as [ta2 g2].
  eexists _, _. split; [done|]. cbn [swap_buffers set_staging pop tmp_pop ann tmp_ann
                                     fitness rdist].
  split; [lia|]. do 4 (split; [done|]).
  intros i o Ho. destruct (Hj i) as [_ Hslot].
  unfold offspring_of in Hslot. cbv zeta in Hslot.
  destruct Hslot as (a & t & Ha & _ & Ho' & _).
  { apply lookup_lt_Some in Ho. lia. }
  rewrite Ho in Ho'. injection Ho' as ->.
  eexists _, _, _. split; [done|]. by eapply lookup_lt_Some.
Qed.

(** X20. A population that [create_new_generation] returns has as many
    agents as the one before, every agent on the grid (when [sprout]
    places the offspring where it is told and the landscape has a positive
    side), a staging array of that size again, and the fitness values and
    the distribution of the one before. *)
Theorem new_generation_on_grid (L : Landscape) (P : Population)
    (iparam : ind_param) (fixed : bool) (g : reng) :
  (0 < dim L)%Z →
  (0 ≤ sprout_radius iparam)%Z →
  (0 < Qsum (rdist P))%Q →
  length (rdist P) = length (pop P) →
  length (tmp_pop P) = length (pop P) →
  length (blocks (ann P)) = length (pop P) →
  length (blocks (tmp_ann P)) = length (pop P) →
  (∀ t p k, pos (sprout t p k) = p) →
  ∃ P' g',
    create_new_generation L P iparam fixed g = Some (P', g')
    ∧ length (pop P') = length (pop P)
    ∧ Forall (on_grid (dim L)) (pop P')
    ∧ length (tmp_pop P') = length (pop P')
    ∧ fitness P' = fitness P ∧ rdist P' = rdist P.
Proof.
  intros Hd Hr Hws Hlw Hltp Hla Hlta Hsprout.
  destruct (create_new_generation_spec L P iparam fixed g Hr Hws Hlw Hltp Hla Hlta)
    as (P' & g' & Hrun & Hlen & Htp & _ & Hf & Hrd & Ho).
  exists P', g'. split; [done|]. split; [done|]. split; [|split; [|done]].
  - apply Forall_lookup. intros i o Hi.
    destruct (Ho i o Hi) as (t & p & k & -> & _).
    unfold on_grid. rewrite Hsprout. by apply wrap_on_grid.
  - rewrite Htp. lia.
Qed.

Lemma simulate_timestep_frame (S S' : Simulation) (g g' : reng) :
  simulate_timestep S g = Some (S', g') →
  param_ S' = param_ S ∧ g_ S' = g_ S ∧ t_ S' = t_ S
  ∧ dim (landscape_ S') = dim (landscape_ S)
  ∧ capacity (landscape_ S') = capacity (landscape_ S)
  ∧ tmp_pop (agents_ S') = tmp_pop (agents_ S)
  ∧ tmp_ann (agents_ S') = tmp_ann (agents_ S)
  ∧ fitness (agents_ S') = fitness (agents_ S)
  ∧ rdist (agents_ S') = rdist (agents_ S).
Proof.
  unfold simulate_timestep, before_conflicts. intros Hrun.
  destruct (growth_phase S g) as [[S1 g1]|] eqn:Hgrow;
    cbn [mbind option_bind] in Hrun; [|done].
  destruct (move_phase _ g1) as [S3 g3] eqn:Hmove.
  cbn [mbind option_bind] in Hrun.
  destruct (conflict_phase S3 g3) as [[S4 g4]|] eqn:Hconf;
    cbn [mbind option_bind] in Hrun; [|done].
  injection Hrun as <- <-.
  unfold growth_phase in Hgrow.
  destruct (grow_items _ _ _ _ _ _ _) as [[its1 g1']|];
    cbn [mbind option_bind] in Hgrow; [|done].
  injection Hgrow as <- <-.
  unfold move_phase in Hmove. simpl in Hmove.
  destruct (move _ _ _ _ _) as [[a agents3] g3'].
  injection Hmove as <- <-.
  unfold conflict_phase in Hconf. simpl in Hconf.
  destruct (resolve_grazing_and_attacks _ _ _ _) as [[[L4 agents4] g4']|] eqn:Hres;
    cbn [mbind option_bind] in Hconf; [|done].
  injection Hconf as <- <-.
  destruct (resolve_items _ _ _ _ _ _ _ Hres) as (Hc & Hdim & _).
  simpl in *. done.
Qed.

(** X21. A timestep that returns leaves the bookkeeping of the
    evolutionary loop alone: the parameters, the generation and timestep
    counters, the side and the capacity layer of the landscape, the
    staging arrays, the fitness values and the sampling distribution. *)
Theorem timestep_leaves_bookkeeping (S S' : Simulation) (g g' : reng) :
  simulate_timestep S g = Some (S', g') →
  param_ S' = param_ S ∧ g_ S' = g_ S ∧ t_ S' = t_ S
  ∧ dim (landscape_ S') = dim (landscape_ S)
  ∧ capacity (landscape_ S') = capacity (landscape_ S)
  ∧ tmp_pop (agents_ S') = tmp_pop (agents_ S)
  ∧ tmp_ann (agents_ S') = tmp_ann (agents_ S)
  ∧ fitness (agents_ S') = fitness (agents_ S)
  ∧ rdist (agents_ S') = rdist (agents_ S).
Proof. apply simulate_timestep_frame. Qed.

End GenerationsAndTimesteps.

(** * Further properties of fitness assessment and of the run *)

Section FitnessAssessment.
Import cine2.
Context `{Collaborators} `{Surroundings}.

Lemma assess_loop_spec (ff : Individual → Q → Q → Q) (cp : Q) (pop : list Individual)
    (ann : AnyANN) :
  ∀ (count i : nat) (fitness : list Q),
    i + count ≤ length pop →
    i + count ≤ length fitness →
    ∃ f, assess_loop ff cp pop ann i count fitness = Some f
         ∧ length f = length fitness
         ∧ ∀ j, f !! j = if decide (i ≤ j < i + count)
                         then a ← pop !! j; Some (ff a (complexity ann j) cp)
                         else fitness !! j.
Proof.
  intros count. induction count as [|n IH]; intros i fitness Hp Hf; cbn [assess_loop].
  - exists fitness. split; [done|]. split; [done|]. intros j. case_decide; [lia|done].
  - destruct (lookup_lt_is_Some_2 pop i) as [a Ha]; [lia|].
    rewrite Ha. cbn [mbind option_bind].
    rewrite store_lt by lia. cbn [mbind option_bind].
    destruct (IH (S i) (<[i := ff a (complexity ann i) cp]> fitness))
      as (f & Hrun & Hlen & Hj).
    { lia. } { rewrite length_insert. lia. }
    exists f. split; [done|]. split; [by rewrite Hlen, length_insert|].
    intros j. rewrite Hj.
    destruct (decide (j = i)) as [->|Hne].
    + rewrite decide_False by lia. rewrite decide_True by lia.
      rewrite list_lookup_insert_eq by lia. by rewrite Ha.
    + rewrite list_lookup_insert_ne by done.
      repeat case_decide; try lia; done.
Qed.

Lemma assess_loop_none (ff : Individual → Q → Q → Q) (cp : Q) (pop : list Individual)
    (ann : AnyANN) :
  ∀ (count i : nat) (fitness : list Q),
    i + count ≤ length pop → 0 < count → length fitness < i + count →
    assess_loop ff cp pop ann i count fitness = None.
Proof.
  intros count. induction count as [|n IH]; intros i fitness Hp Hc Hf; [lia|].
  cbn [assess_loop].
  destruct (lookup_lt_is_Some_2 pop i) as [a Ha]; [lia|].
  rewrite Ha. cbn [mbind option_bind].
  unfold store. case_decide as Hi; [|done]. cbn [mbind option_bind].
  apply IH; [lia | lia | rewrite length_insert; lia].
Qed.

(** X22. [detail::assess_fitness] writes [fitness[i]] for every agent [i]:
    it has a defined result exactly when [fitness] has an entry for every
    agent.  Then entry [i] is the fitness function at agent [i], at the
    complexity of network [i] and at the penalty of the parameters; the
    entries past the last agent, the agents and the networks are as
    before. *)
Theorem assess_fitness_bounds_and_values (P : Population) (iparam : ind_param)
    (ff : Individual → Q → Q → Q) :
  (is_Some (detail_assess_fitness P iparam ff) ↔ length (pop P) ≤ length (fitness P))
  ∧ ∀ P', detail_assess_fitness P iparam ff = Some P' →
      pop P' = pop P ∧ ann P' = ann P
      ∧ tmp_pop P' = tmp_pop P ∧ tmp_ann P' = tmp_ann P
      ∧ length (fitness P') = length (fitness P)
      ∧ (∀ i a, pop P !! i = Some a →
           fitness P' !! i = Some (ff a (complexity (ann P) i) (cmplx_penalty iparam)))
      ∧ (∀ i, length (pop P) ≤ i → fitness P' !! i = fitness P !! i).
Proof.
  unfold detail_assess_fitness.
  destruct (decide (length (pop P) ≤ length (fitness P))) as [Hle|Hgt].
  - destruct (assess_loop_spec ff (cmplx_penalty iparam) (pop P) (ann P)
                (length (pop P)) 0 (fitness P)) as (f & -> & Hlen & Hj); [lia | lia |].
    cbn [mbind option_bind]. split; [done|].
    intros P' [= <-]. cbn [set_fitness pop ann tmp_pop tmp_ann fitness].
    do 4 (split; [done|]). split; [done|]. split.
    + intros i a Ha. rewrite Hj. apply lookup_lt_Some in Ha as Hi.
      rewrite decide_True by lia. by rewrite Ha.
    + intros i Hi. rewrite Hj. by rewrite decide_False by lia.
  - rewrite assess_loop_none by lia. cbn [mbind option_bind].
    split; [|done]. split; [by intros [? ?] | lia].
Qed.

(** X23. Clearing the fitness values before they are assessed, as the
    burn-in generations do, changes nothing when [fitness] has no more
    entries than there are agents: the assessment overwrites every
    entry. *)
Theorem clearing_before_assessment_is_void (S : Simulation) :
  length (fitness (agents_ S)) ≤ length (pop (agents_ S)) →
  assess_fitness (clear_fitness S) = assess_fitness S.
Proof.
  intros Hle. unfold assess_fitness, detail_assess_fitness, clear_fitness.
  cbn [set_agents agents_ param_ pop ann fitness].
  set (P := agents_ S) in *. set (cp := cmplx_penalty (agents (param_ S))).
  destruct (decide (length (pop P) ≤ length (fitness P))) as [Hge|Hlt].
  - destruct (assess_loop_spec agents_fitness cp (pop P) (ann P) (length (pop P)) 0
                (fitness P)) as (f & -> & Hlen & Hj); [lia | lia |].
    destruct (assess_loop_spec agents_fitness cp (pop P) (ann P) (length (pop P)) 0
                (replicate (length (fitness P)) 0%Q)) as (f0 & -> & Hlen0 & Hj0);
      [lia | rewrite length_replicate; lia |].
    assert (f0 = f) as ->.
    { apply list_eq. intros j. rewrite Hj, Hj0. case_decide as Hin; [done|].
      rewrite !lookup_ge_None_2; [done | lia | rewrite length_replicate; lia]. }
    reflexivity.
  - rewrite !assess_loop_none; [done | lia | lia | lia | lia | lia |
                                 rewrite length_replicate; lia].
Qed.

Lemma assess_fitness_frame (S S' : Simulation) :
  assess_fitness S = Some S' →
  g_ S' = g_ S ∧ t_ S' = t_ S ∧ param_ S' = param_ S ∧ landscape_ S' = landscape_ S.
Proof.
  unfold assess_fitness.
  destruct (detail_assess_fitness _ _ _); cbn [mbind option_bind]; [|done].
  by intros [= <-].
Qed.

Lemma create_new_generations_frame (S S' : Simulation) (g g' : reng) :
  create_new_generations S g = Some (S', g') →
  g_ S' = g_ S ∧ t_ S' = t_ S ∧ param_ S' = param_ S ∧ landscape_ S' = landscape_ S.
Proof.
  unfold create_new_generations.
  destruct (create_new_generation _ _ _ _ _) as [[P g1]|]; cbn [mbind option_bind]; [|done].
  by intros [= <- <-].
Qed.

Lemma same_setup_refl (S : Simulation) : same_setup S S.
Proof. by unfold same_setup. Qed.

Lemma same_setup_trans (S1 S2 S3 : Simulation) :
  same_setup S1 S2 → same_setup S2 S3 → same_setup S1 S3.
Proof. unfold same_setup. intros (-> & -> & ->) (-> & -> & ->). done. Qed.

Lemma simulate_timestep_setup (S S' : Simulation) (g g' : reng) :
  simulate_timestep S g = Some (S', g') →
  same_setup S S' ∧ g_ S' = g_ S ∧ t_ S' = t_ S.
Proof.
  intros Hrun. apply simulate_timestep_frame in Hrun.
  unfold same_setup. tauto.
Qed.

Lemma generation_setup (S S1 S2 : Simulation) (g g' : reng) :
  assess_fitness S = Some S1 →
  create_new_generations S1 g = Some (S2, g') →
  same_setup S S2 ∧ g_ S2 = g_ S ∧ t_ S2 = t_ S.
Proof.
  intros (? & ? & ? & ?)%assess_fitness_frame (? & ? & ? & ?)%create_new_generations_frame.
  unfold same_setup. repeat split; congruence.
Qed.

End FitnessAssessment.

Section RunProperties.
Import cine2.
Context `{Collaborators} `{Surroundings}.
Context {Obs : Type} (notify : Obs → Simulation → msg_type → bool * Obs).

Lemma notify_cases (msg : msg_type) (sim : Simulation) (o : option Obs) (g : reng) :
  (∃ o0 o', o = Some o0 ∧ notify o0 sim msg = (true, o')
     ∧ simulation_observer_notify notify msg (sim, o, g) = Next (sim, Some o', g))
  ∨ (∃ o', simulation_observer_notify notify msg (sim, o, g) = Returned (sim, o', g)
       ∧ (o = None ∨ ∃ o0 o1, o = Some o0 ∧ notify o0 sim msg = (false, o1))).
Proof.
  unfold simulation_observer_notify. destruct o as [o0|].
  - destruct (notify o0 sim msg) as [[|] o'] eqn:Hn.
    + left. by exists o0, o'.
    + right. exists (Some o'). split; [done|]. right. by exists o0, o'.
  - right. exists None. split; [done|]. by left.
Qed.

Lemma burnin_timesteps_setup :
  ∀ (n : nat) (S : Simulation) (o : option Obs) (g : reng) (f : flow),
    burnin_timesteps notify n (S, o, g) = Some f → same_setup S (flow_sim f).
Proof.
  intros n. induction n as [|n IH]; intros S o g f; cbn [burnin_timesteps].
  - intros [= <-]. apply same_setup_refl.
  - destruct (simulate_timestep S g) as [[S1 g1]|] eqn:Hts; cbn [mbind option_bind]; [|done].
    apply simulate_timestep_setup in Hts as [Hts _].
    destruct (notify_cases WATCHDOG S1 o g1) as [(o0 & o' & _ & _ & ->) | (o' & -> & _)].
    + intros Hrec%IH. by eapply same_setup_trans.
    + by intros [= <-].
Qed.

Lemma burnin_generations_setup (rp : run_param) :
  ∀ (n : nat) (S : Simulation) (o : option Obs) (g : reng) (f : flow),
    burnin_generations notify rp n (S, o, g) = Some f → same_setup S (flow_sim f).
Proof.
  intros n. induction n as [|n IH]; intros S o g f; cbn [burnin_generations].
  - intros [= <-]. apply same_setup_refl.
  - destruct (burnin_timesteps notify _ (S, o, g)) as [[[[S1 o1] g1]|w]|] eqn:Hts;
      cbn [mbind option_bind]; [| |done].
    + apply burnin_timesteps_setup in Hts. cbn in Hts.
      destruct (assess_fitness (clear_fitness S1)) as [S2|] eqn:Has;
        cbn [mbind option_bind]; [|done].
      destruct (create_new_generations S2 g1) as [[S3 g3]|] eqn:Hcr;
        cbn [mbind option_bind]; [|done].
      destruct (generation_setup _ _ _ _ _ Has Hcr) as [Hgen _].
      intros Hrec%IH. eapply same_setup_trans; [exact Hts|].
      eapply same_setup_trans; [|exact Hrec].
      destruct Hgen as (? & ? & ?). by unfold same_setup.
    + apply burnin_timesteps_setup in Hts. by intros [= <-].
Qed.

Lemma main_timesteps_setup :
  ∀ (n : nat) (S : Simulation) (o : option Obs) (g : reng) (f : flow),
    main_timesteps notify n (S, o, g) = Some f →
    same_setup S (flow_sim f) ∧ g_ (flow_sim f) = g_ S
    ∧ ∀ w, f = Next w → t_ (flow_sim f) = (t_ S + Z.of_nat n)%Z.
Proof.
  intros n. induction n as [|n IH]; intros S o g f; cbn [main_timesteps].
  - intros [= <-]. split; [apply same_setup_refl|]. split; [done|].
    intros _ _. cbn. lia.
  - destruct (simulate_timestep S g) as [[S1 g1]|] eqn:Hts; cbn [mbind option_bind]; [|done].
    apply simulate_timestep_setup in Hts as (Hts & Hg & Ht).
    destruct (notify_cases POST_TIMESTEP S1 o g1) as [(o0 & o' & _ & _ & ->) | (o' & -> & _)].
    + intros (Hs & Hg' & Ht')%IH. cbn [set_t_ g_ t_] in *.
      split. { eapply same_setup_trans; [exact Hts|]. exact Hs. }
      split; [congruence|]. intros w Hw. rewrite (Ht' w Hw). lia.
    + intros [= <-]. split; [done|]. split; [done|]. intros w [=].
Qed.

Lemma main_generations_setup (rp : run_param) :
  ∀ (n : nat) (S : Simulation) (o : option Obs) (g : reng) (f : flow),
    main_generations notify rp n (S, o, g) = Some f →
    same_setup S (flow_sim f)
    ∧ ∀ w, f = Next w →
        g_ (flow_sim f) = (g_ S + Z.of_nat n)%Z
        ∧ (0 < n → t_ (flow_sim f) = Z.max 0 (T rp)
                   ∨ t_ (flow_sim f) = Z.max 0 (Tfix rp)).
Proof.
  intros n. induction n as [|n IH]; intros S o g f; cbn [main_generations].
  - intros [= <-]. split; [apply same_setup_refl|]. intros _ _. cbn. split; lia.
  - destruct (notify_cases NEW_GENERATION S o g) as [(o0 & o' & _ & _ & ->) | (o' & -> & _)].
    2: { intros [= <-]. split; [apply same_setup_refl|]. intros w [=]. }
    set (Tg := if fixed S then Tfix rp else T rp).
    destruct (main_timesteps notify _ _) as [[[[S1 o1] g1]|w1]|] eqn:Hts;
      cbn [mbind option_bind]; [| |done].
    2: { apply main_timesteps_setup in Hts as (Hs & _). intros [= <-]. split; [|intros w [=]].
         eapply same_setup_trans; [|exact Hs]. by unfold same_setup. }
    apply main_timesteps_setup in Hts as (Hs1 & Hg1 & Ht1).
    specialize (Ht1 _ eq_refl). cbn in Hs1, Hg1, Ht1.
    destruct (assess_fitness S1) as [S2|] eqn:Has; cbn [mbind option_bind]; [|done].
    apply assess_fitness_frame in Has as (Hg2 & Ht2 & Hp2 & Hl2).
    destruct (notify_cases GENERATION S2 o1 g1) as [(o2 & o3 & _ & _ & ->) | (o3 & -> & _)].
    2: { intros [= <-]. split; [|intros w [=]]. cbn.
         destruct Hs1 as (? & ? & ?). unfold same_setup. cbn in *.
         repeat split; congruence. }
    destruct (create_new_generations S2 g1) as [[S4 g4]|] eqn:Hcr;
      cbn [mbind option_bind]; [|done].
    apply create_new_generations_frame in Hcr as (Hg4 & Ht4 & Hp4 & Hl4).
    assert (same_setup S S4) as Hs4.
    { destruct Hs1 as (? & ? & ?). unfold same_setup. cbn in *. repeat split; congruence. }
    intros Hrec. destruct (IH _ _ _ _ Hrec) as (Hs & Hnext). cbn [set_g_ g_ t_] in *.
    split. { eapply same_setup_trans; [exact Hs4|]. exact Hs. }
    intros w Hw. destruct (Hnext w Hw) as (Hg & Ht). split; [lia|]. intros _.
    destruct n as [|n]; [|apply Ht; lia].
    cbn [main_generations] in Hrec. injection Hrec as <-.
    assert (t_ S4 = Z.max 0 Tg) as Hmax by (cbn [set_t_ t_] in Ht1; lia).
    cbn. rewrite Hmax.
    unfold Tg. destruct (fixed S); [by right | by left].
Qed.

(** X24. [run] needs an observer: called without one, or with one that
    refuses the first notification, it returns [false] at once and leaves
    the simulation and the random engine as they were. *)
Theorem run_needs_an_observer (rp : run_param) (S : Simulation) (g : reng) :
  run notify rp (S, None, g) = Some (false, (S, None, g))
  ∧ ∀ o o', notify o S INITIALIZED = (false, o') →
      run notify rp (S, Some o, g) = Some (false, (S, Some o', g)).
Proof.
  split; [done|]. intros o o' Hn. unfold run, simulation_observer_notify.
  by rewrite Hn.
Qed.

(** X25. Whatever [run] returns, the simulation has the parameters, the
    side and the capacity layer it started with.  When [run] returns
    [true] there was an observer, the generation counter is [G] (0 when
    [G] is negative), and, after at least one generation, the timestep
    counter is [T] or [Tfix] (0 when that is negative). *)
Theorem run_keeps_setup_and_counts (rp : run_param) (S S' : Simulation)
    (o o' : option Obs) (g g' : reng) (b : bool) :
  run notify rp (S, o, g) = Some (b, (S', o', g')) →
  same_setup S S'
  ∧ (b = true →
       is_Some o ∧ is_Some o'
       ∧ g_ S' = Z.max 0 (G (param_ S))
       ∧ ((0 < G (param_ S))%Z →
            t_ S' = Z.max 0 (T rp) ∨ t_ S' = Z.max 0 (Tfix rp))).
Proof.
  unfold run.
  destruct (notify_cases INITIALIZED S o g) as [(o0 & o1 & -> & _ & ->) | (o1 & -> & _)].
  2: { intros ?; simplify_eq. split; [apply same_setup_refl | done]. }
  destruct (burnin_generations notify rp _ _) as [[[[S1 ob1] g1]|w1]|] eqn:Hb;
    cbn [mbind option_bind]; [| |done].
  2: { apply burnin_generations_setup in Hb. intros ?; simplify_eq. by split. }
  apply burnin_generations_setup in Hb. cbn in Hb.
  destruct (main_generations notify rp _ _) as [[[[S2 ob2] g2]|w2]|] eqn:Hm;
    cbn [mbind option_bind]; [| |done].
  2: { apply main_generations_setup in Hm as [Hm _]. intros ?; simplify_eq. split; [|done].
       eapply same_setup_trans; [exact Hb|]. eapply same_setup_trans; [|exact Hm].
       by unfold same_setup. }
  apply main_generations_setup in Hm as [Hm Hcount].
  destruct (Hcount _ eq_refl) as [Hg Ht]. cbn in Hm, Hg, Ht.
  assert (same_setup S S2) as Hs.
  { eapply same_setup_trans; [exact Hb|]. eapply same_setup_trans; [|exact Hm].
    by unfold same_setup. }
  assert (param_ S1 = param_ S) as HG by apply Hb.
  rewrite HG in Hg, Ht.
  destruct (notify_cases FINISHED S2 ob2 g2) as [(o2 & o3 & -> & _ & ->) | (o3 & -> & _)].
  - intros ?; simplify_eq. split; [done|]. intros _.
    split; [done|]. split; [done|]. split; [lia|]. intros HGpos. apply Ht. lia.
  - intros ?; simplify_eq. by split.
Qed.

End RunProperties.

Section RunProtocol.
Import cine2.
Context `{Collaborators} `{Surroundings}.
Context {Obs : Type} (notify : Obs → Simulation → msg_type → bool * Obs).

Lemma recorder_next (msg : msg_type) (sim : Simulation)
    (ob : option (Obs * list msg_type)) (g : reng) (w : world) :
  simulation_observer_notify (recorder notify) msg (sim, ob, g) = Next w →
  ∃ o log o', ob = Some (o, log) ∧ w = (sim, Some (o', log ++ [msg]), g).
Proof.
  unfold simulation_observer_notify, recorder. destruct ob as [[o log]|]; [|done].
  cbn [fst snd]. destruct (notify o sim msg) as [[|] o']; [|done].
  intros [= <-]. by exists o, log, o'.
Qed.

Lemma burnin_timesteps_log :
  ∀ (n : nat) (S : Simulation) (o : Obs) (log : list msg_type) (g : reng)
    (S' : Simulation) (ob' : option (Obs * list msg_type)) (g' : reng),
    burnin_timesteps (recorder notify) n (S, Some (o, log), g) = Some (Next (S', ob', g')) →
    ∃ o', ob' = Some (o', log ++ replicate n WATCHDOG).
Proof.
  intros n. induction n as [|n IH]; intros S o log g S' ob' g'; cbn [burnin_timesteps].
  - intros [= <- <- <-]. exists o. by rewrite app_nil_r.
  - destruct (simulate_timestep S g) as [[S1 g1]|]; cbn [mbind option_bind]; [|done].
    destruct (simulation_observer_notify _ _ _) as [w|w] eqn:Hn; [|done].
    apply recorder_next in Hn as (o0 & log0 & o1 & [= <- <-] & ->).
    intros (o' & ->)%IH. exists o'. by rewrite <- app_assoc.
Qed.

Lemma burnin_generations_log (rp : run_param) :
  ∀ (n : nat) (S : Simulation) (o : Obs) (log : list msg_type) (g : reng)
    (S' : Simulation) (ob' : option (Obs * list msg_type)) (g' : reng),
    burnin_generations (recorder notify) rp n (S, Some (o, log), g)
    = Some (Next (S', ob', g')) →
    ∃ o', ob' = Some (o', log ++ replicate (n * Z.to_nat (T rp)) WATCHDOG).
Proof.
  intros n. induction n as [|n IH]; intros S o log g S' ob' g'; cbn [burnin_generations].
  - intros [= <- <- <-]. exists o. by rewrite app_nil_r.
  - destruct (burnin_timesteps _ _ _) as [[[[S1 ob1] g1]|w]|] eqn:Hts;
      cbn [mbind option_bind]; [| done | done].
    apply burnin_timesteps_log in Hts as (o1 & ->).
    destruct (assess_fitness _) as [S2|]; cbn [mbind option_bind]; [|done].
    destruct (create_new_generations S2 g1) as [[S3 g3]|]; cbn [mbind option_bind]; [|done].
    intros (o' & ->)%IH. exists o'.
    by rewrite <- app_assoc, <- replicate_add.
Qed.

Lemma main_timesteps_log :
  ∀ (n : nat) (S : Simulation) (o : Obs) (log : list msg_type) (g : reng)
    (S' : Simulation) (ob' : option (Obs * list msg_type)) (g' : reng),
    main_timesteps (recorder notify) n (S, Some (o, log), g) = Some (Next (S', ob', g')) →
    ∃ o', ob' = Some (o', log ++ replicate n POST_TIMESTEP).
Proof.
  intros n. induction n as [|n IH]; intros S o log g S' ob' g'; cbn [main_timesteps].
  - intros [= <- <- <-]. exists o. by rewrite app_nil_r.
  - destruct (simulate_timestep S g) as [[S1 g1]|]; cbn [mbind option_bind]; [|done].
    destruct (simulation_observer_notify _ _ _) as [w|w] eqn:Hn; [|done].
    apply recorder_next in Hn as (o0 & log0 & o1 & [= <- <-] & ->).
    intros (o' & ->)%IH. exists o'. by rewrite <- app_assoc.
Qed.

Lemma main_generations_log (rp : run_param) :
  ∀ (n : nat) (S : Simulation) (o : Obs) (log : list msg_type) (g : reng)
    (S' : Simulation) (ob' : option (Obs * list msg_type)) (g' : reng),
    main_generations (recorder notify) rp n (S, Some (o, log), g)
    = Some (Next (S', ob', g')) →
    ∃ o' ts, ob' = Some (o', log ++ concat (map generation_messages ts))
             ∧ length ts = n
             ∧ Forall (λ t, t = Z.to_nat (T rp) ∨ t = Z.to_nat (Tfix rp)) ts.
Proof.
  intros n. induction n as [|n IH]; intros S o log g S' ob' g'; cbn [main_generations].
  - intros [= <- <- <-]. exists o, []. by rewrite app_nil_r.
  - destruct (simulation_observer_notify _ NEW_GENERATION _) as [w|w] eqn:Hn; [|done].
    apply recorder_next in Hn as (o0 & log0 & o1 & [= <- <-] & ->).
    set (Tg := if fixed S then Tfix rp else T rp).
    destruct (main_timesteps _ _ _) as [[[[S1 ob1] g1]|w]|] eqn:Hts;
      cbn [mbind option_bind]; [| done | done].
    apply main_timesteps_log in Hts as (o2 & ->).
    destruct (assess_fitness S1) as [S2|]; cbn [mbind option_bind]; [|done].
    destruct (simulation_observer_notify _ GENERATION _) as [w|w] eqn:Hn; [|done].
    apply recorder_next in Hn as (o3 & log3 & o4 & [= <- <-] & ->).
    destruct (create_new_generations S2 g1) as [[S4 g4]|]; cbn [mbind option_bind]; [|done].
    intros (o' & ts & -> & Hlen & Hts)%IH.
    exists o', (Z.to_nat Tg :: ts). split; [|split].
    + f_equal. f_equal. cbn [map concat]. unfold generation_messages.
      rewrite <- !app_assoc. simpl. by rewrite <- !app_assoc.
    + simpl. by rewrite Hlen.
    + constructor; [|done]. unfold Tg. destruct (fixed S); [by right | by left].
Qed.

(** X26. The notifications of a run that returns [true], in the order in
    which the observer got them: INITIALIZED; one WATCHDOG for every
    timestep of the [Gburnin] burn-in generations of [T] timesteps; for
    each of the [G] generations NEW_GENERATION, one POST_TIMESTEP for each
    of its [T] or [Tfix] timesteps, and GENERATION; FINISHED. *)
Theorem run_notification_protocol (rp : run_param) (S S' : Simulation) (o : Obs)
    (ob' : option (Obs * list msg_type)) (g g' : reng) :
  run (recorder notify) rp (S, Some (o, []), g) = Some (true, (S', ob', g')) →
  ∃ o' ts,
    ob' = Some (o', INITIALIZED
                      :: replicate (Z.to_nat (Gburnin rp) * Z.to_nat (T rp)) WATCHDOG
                      ++ concat (map generation_messages ts) ++ [FINISHED])
    ∧ length ts = Z.to_nat (G (param_ S))
    ∧ Forall (λ t, t = Z.to_nat (T rp) ∨ t = Z.to_nat (Tfix rp)) ts.
Proof.
  unfold run.
  destruct (simulation_observer_notify _ INITIALIZED _) as [w|w] eqn:Hn; [|done].
  apply recorder_next in Hn as (o0 & log0 & o1 & [= <- <-] & ->).
  destruct (burnin_generations _ rp _ _) as [[[[S1 ob1] g1]|w1]|] eqn:Hb;
    cbn [mbind option_bind]; [| done | done].
  pose proof (burnin_generations_setup _ _ _ _ _ _ _ Hb) as (HG & _).
  cbn in HG. rewrite HG.
  apply burnin_generations_log in Hb as (o2 & ->).
  destruct (main_generations _ rp _ _) as [[[[S2 ob2] g2]|w2]|] eqn:Hm;
    cbn [mbind option_bind]; [| done | done].
  apply main_generations_log in Hm as (o3 & ts & -> & Hlen & Hts).
  destruct (simulation_observer_notify _ FINISHED _) as [w|w] eqn:Hn; [|done].
  apply recorder_next in Hn as (o4 & log4 & o5 & [= <- <-] & ->).
  intros ?; simplify_eq. exists o5, ts. split; [|done].
  f_equal. f_equal. rewrite <- !app_assoc. simpl. by rewrite <- ?app_assoc.
Qed.

End RunProtocol.

(** * The further properties at concrete inputs *)

Section ConcreteNetworks.
Import ann ann.activation ann.feedback examples.
Local Open Scope R_scope.

Lemma neuron_ranges_partition_slice_witness :
  input_weights_range recurrent_neuron [1; 2; 3; 1 / 2; 4]
    ++ activation_range recurrent_neuron [1; 2; 3; 1 / 2; 4]
    ++ feedback_range recurrent_neuron [1; 2; 3; 1 / 2; 4]
    ++ scratch_range recurrent_neuron [1; 2; 3; 1 / 2; 4]
  = [1; 2; 3; 1 / 2; 4]
  ∧ length (input_weights_range recurrent_neuron [1; 2; 3; 1 / 2; 4]) = 3%nat.
Proof.
  destruct (neuron_ranges_partition_slice recurrent_neuron [1; 2; 3; 1 / 2; 4] eq_refl)
    as (Hall & Hw & _).
  split; [exact Hall | exact Hw].
Defined.

Lemma feed_reads_its_slice_only_witness :
  is_Some (feed recurrent_neuron [1; 1] [1; 2; 3; 1 / 2; 4])
  ∧ feed recurrent_neuron [1; 1] ([1; 2; 3; 1 / 2; 4] ++ [7; 7])
    = ('(y, state') ← feed recurrent_neuron [1; 1] [1; 2; 3; 1 / 2; 4];
       Some (y, state' ++ [7; 7])).
Proof.
  destruct (feed_reads_its_slice_only recurrent_neuron [1; 1] [1; 2; 3; 1 / 2; 4])
    as [Hdef Happ].
  split.
  - apply Hdef. vm_compute. lia.
  - apply Happ. vm_compute. lia.
Defined.

Lemma feed_writes_scratch_only_witness :
  length [1; 2; 3; 1 / 2; 1 + 2 * 1 + 3 * 1 + 1 / 2 * 4] = length [1; 2; 3; 1 / 2; 4]
  ∧ [1; 2; 3; 1 / 2; 1 + 2 * 1 + 3 * 1 + 1 / 2 * 4] !! 3%nat
    = [1; 2; 3; 1 / 2; 4] !! 3%nat.
Proof.
  assert (feed recurrent_neuron [1; 1] [1; 2; 3; 1 / 2; 4]
          = Some (1 + 2 * 1 + 3 * 1 + 1 / 2 * 4,
                  [1; 2; 3; 1 / 2; 1 + 2 * 1 + 3 * 1 + 1 / 2 * 4])) as Hfeed
    by reflexivity.
  destruct (feed_writes_scratch_only _ _ _ _ _ Hfeed) as [Hlen Hrest].
  split; [exact Hlen|]. apply Hrest. vm_compute. lia.
Defined.

Lemma layer_feed_slices_witness :
  ∃ out state',
    layer_feed {| neuron_t := recurrent_neuron; size := 2 |} 1 [1; 1]
               (replicate 12 (1 / 2)) = Some (out, state')
    ∧ length out = 2%nat
    ∧ take 1 state' = [1 / 2]
    ∧ drop 11 state' = [1 / 2].
Proof.
  destruct (layer_feed_slices {| neuron_t := recurrent_neuron; size := 2 |} 1 [1; 1]
              (replicate 12 (1 / 2)))
    as (out & state' & Hrun & Hout & _ & Htake & Hdrop & _).
  - vm_compute. lia.
  - vm_compute. lia.
  - exists out, state'. split; [exact Hrun|]. split; [exact Hout|].
    split; [exact Htake | exact Hdrop].
Defined.

Lemma network_feed_safe_witness :
  ∃ out state',
    network_feed example_network [1; 1] (replicate 13 (1 / 2)) = Some (out, state')
    ∧ network_output_size example_network = Some (length out)
    ∧ drop 12 state' = [1 / 2].
Proof.
  destruct (network_feed_safe example_network [1; 1] (replicate 13 (1 / 2)) 2 12)
    as (out & state' & Hrun & Hout & _ & Hdrop & _).
  - reflexivity.
  - reflexivity.
  - vm_compute. lia.
  - reflexivity.
  - vm_compute. lia.
  - exists out, state'. split; [exact Hrun|]. split; [exact Hout | exact Hdrop].
Defined.

Lemma new_network_can_be_fed_witness :
  ∃ state n,
    Network_new example_network (1 / 2) = Some state
    ∧ network_state_size example_network = Some n
    ∧ state = replicate n (1 / 2)
    ∧ ∃ out state', network_feed example_network [1; 1] state = Some (out, state')
                    ∧ network_output_size example_network = Some (length out).
Proof.
  apply (new_network_can_be_fed example_network (1 / 2) [1; 1] 2).
  - reflexivity.
  - reflexivity.
  - vm_compute. lia.
Defined.

Lemma get_neuron_slices_disjoint_witness :
  (is_Some (get_neuron example_network 1 0) ↔
     ∃ L, example_network !! 1%nat = Some L ∧ (0 < size L)%nat)
  ∧ ∀ I J n ofs, get_neuron example_network I J = Some (n, ofs) →
      (ofs + state_size n ≤ 12)%nat.
Proof.
  destruct (get_neuron_slices_disjoint example_network 12 eq_refl) as (Hdef & Hin & _).
  split; [apply Hdef | exact Hin].
Defined.

Lemma visit_neurons_tiles_state_witness :
  ∃ calls,
    visit_neurons record_visit example_network [] = Some (rev calls)
    ∧ tiles 0 calls 12
    ∧ fst ∘ fst ∘ fst <$> calls = [recurrent_neuron; recurrent_neuron; plain_neuron].
Proof.
  destruct (visit_neurons_tiles_state example_network 12 eq_refl)
    as (calls & Hrun & Htiles & Hneurons & _).
  exists calls. split; [exact Hrun|]. split; [exact Htiles | exact Hneurons].
Defined.

End ConcreteNetworks.

Section ConcreteLayout.
Import ann ann.activation ann.feedback examples.

Lemma network_well_formed_characterised_witness : network_well_formed example_network.
Proof.
  apply (proj2 (network_well_formed_characterised example_network)).
  split; [discriminate|].
  intros [|[|I]] L0 L1 H0 H1; simpl in H0, H1; try discriminate.
  injection H0 as <-. injection H1 as <-. reflexivity.
Defined.

End ConcreteLayout.

Section ConcreteDriver.
Import cine2 examples.

Lemma attackers_and_victims_witness :
  ∃ victims g',
    select_victims [klept_at origin; handler_at origin 5] [0] example_reng
    = Some (victims, g')
    ∧ StronglySorted lt [0]
    ∧ length victims ≤ 1
    ∧ ∀ v, v ∈ victims → ∃ av, [klept_at origin; handler_at origin 5] !! v = Some av
                                ∧ handling av = true.
Proof.
  destruct (select_victims [klept_at origin; handler_at origin 5] [0] example_reng)
    as [[victims g']|] eqn:E.
  2: { vm_compute in E. discriminate E. }
  exists victims, g'. split; [reflexivity|].
  destruct (attackers_and_victims 32 (handlers example_landscape)
              [klept_at origin; handler_at origin 5] [0] victims example_reng g')
    as (_ & Hsorted & Hlen & Hvictims).
  - vm_compute. reflexivity.
  - exact E.
  - split; [exact Hsorted|]. split; [exact Hlen|].
    intros v Hv. destruct (Hvictims v Hv) as (i & ai & av & _ & _ & Hav & _ & _ & Hh).
    exists av. split; [exact Hav | exact Hh].
Defined.

Lemma resolve_defined_iff_every_attacker_has_victim_witness :
  ∃ agents1 attackers,
    collect_attackers 32 (handlers example_landscape) 0 agents1 = Some attackers
    ∧ (is_Some (resolve_grazing_and_attacks example_param example_landscape
                  [klept_at origin; handler_at origin 5] example_reng)
       ↔ ∀ i, i ∈ attackers → has_victim agents1 i).
Proof.
  destruct (forage (detection_rate (landscape example_param)) (dim example_landscape)
              [klept_at origin; handler_at origin 5] (items example_landscape)
              example_reng) as [[[agents1 its] g1]|] eqn:Hforage.
  2: { vm_compute in Hforage. discriminate Hforage. }
  destruct (collect_attackers (dim example_landscape) (handlers example_landscape) 0 agents1)
    as [attackers|] eqn:Hcollect.
  2: { vm_compute in Hforage. injection Hforage as <- _ _.
       vm_compute in Hcollect. discriminate Hcollect. }
  exists agents1, attackers. split; [exact Hcollect|].
  exact (resolve_defined_iff_every_attacker_has_victim example_param example_landscape
           _ _ _ _ _ _ Hforage Hcollect).
Defined.

Lemma resolve_leaves_alone_witness :
  ∃ L' agents' g',
    resolve_grazing_and_attacks example_param example_landscape
      [klept_at origin; klept_at {| x := 5; y := 5 |}; handler_at origin 5] example_reng
    = Some (L', agents', g')
    ∧ length agents' = 3
    ∧ agents' !! 1 = Some (klept_at {| x := 5; y := 5 |}).
Proof.
  destruct (resolve_grazing_and_attacks example_param example_landscape
              [klept_at origin; klept_at {| x := 5; y := 5 |}; handler_at origin 5]
              example_reng) as [[[L' agents'] g']|] eqn:E.
  2: { vm_compute in E. discriminate E. }
  exists L', agents', g'. split; [reflexivity|].
  destruct (resolve_leaves_alone _ _ _ _ _ _ _ E) as (Hlen & _ & _ & Hkeep).
  split; [exact Hlen|].
  apply (Hkeep 1 (klept_at {| x := 5; y := 5 |}) 0%Q);
    [reflexivity | reflexivity | reflexivity | vm_compute; reflexivity | reflexivity].
Defined.

Lemma growth_draws_and_extremes_witness :
  growth_phase example_simulation example_reng
  = Some (set_landscape example_simulation
            (set_items example_landscape (items example_landscape)),
          advance example_reng 1024).
Proof.
  apply (proj1 (proj2 (growth_draws_and_extremes example_simulation example_reng))).
  vm_compute. discriminate.
Defined.

Lemma growth_keeps_full_cover_witness :
  ∃ S' g', growth_phase example_simulation example_reng = Some (S', g')
           ∧ items (landscape_ S') = items example_landscape.
Proof.
  apply (growth_keeps_full_cover example_simulation example_reng).
  - reflexivity.
  - vm_compute. reflexivity.
Defined.

Lemma constructor_establishes_witness :
  ∃ S g', Simulation_new example_param example_landscape example_reng = Some (S, g')
          ∧ g_ S = (-1)%Z ∧ t_ S = (-1)%Z
          ∧ length (pop (agents_ S)) = 3
          ∧ Forall (on_grid (dim (landscape_ S))) (pop (agents_ S))
          ∧ g' = advance example_reng 6.
Proof.
  destruct (Simulation_new example_param example_landscape example_reng)
    as [[S g']|] eqn:E.
  2: { vm_compute in E. discriminate E. }
  exists S, g'. split; [reflexivity|].
  destruct (constructor_establishes example_param example_landscape example_reng g' S
              eq_refl eq_refl E)
    as (_ & Hg & Ht & _ & _ & _ & Hlen & Hgrid & _ & _ & Hdraws).
  split; [exact Hg|]. split; [exact Ht|]. split; [exact Hlen|].
  split; [exact Hgrid | exact Hdraws].
Defined.

Lemma constructor_returns_iff_witness :
  is_Some (Simulation_new example_param example_landscape example_reng).
Proof.
  destruct (constructor_returns_iff example_param example_landscape example_reng
              eq_refl eq_refl) as [_ Hiff].
  apply Hiff. split; [simpl; lia|]. intros ia Hia. discriminate Hia.
Defined.

Lemma new_generation_on_grid_witness :
  ∃ P' g',
    create_new_generation example_landscape example_population
      (agents example_param) false example_reng = Some (P', g')
    ∧ length (pop P') = 3
    ∧ Forall (on_grid 32) (pop P').
Proof.
  destruct (new_generation_on_grid example_landscape example_population
              (agents example_param) false example_reng)
    as (P' & g' & Hrun & Hlen & Hgrid & _).
  - reflexivity.
  - simpl. lia.
  - vm_compute. reflexivity.
  - reflexivity.
  - reflexivity.
  - reflexivity.
  - reflexivity.
  - intros t p k. reflexivity.
  - exists P', g'. split; [exact Hrun|]. split; [exact Hlen | exact Hgrid].
Defined.

Lemma timestep_leaves_bookkeeping_witness :
  ∃ S' g', simulate_timestep calm_simulation example_reng = Some (S', g')
           ∧ param_ S' = calm_param ∧ t_ S' = (-1)%Z
           ∧ fitness (agents_ S') = [0; 0]%Q.
Proof.
  destruct (simulate_timestep calm_simulation example_reng) as [[S' g']|] eqn:E.
  2: { vm_compute in E. discriminate E. }
  exists S', g'. split; [reflexivity|].
  destruct (timestep_leaves_bookkeeping _ _ _ _ E)
    as (Hp & _ & Ht & _ & _ & _ & _ & Hf & _).
  split; [exact Hp|]. split; [exact Ht | exact Hf].
Defined.

Lemma assess_fitness_bounds_and_values_witness :
  is_Some (detail_assess_fitness calm_population (agents calm_param) agents_fitness)
  ∧ ∀ P', detail_assess_fitness calm_population (agents calm_param) agents_fitness
          = Some P' →
          fitness P' !! 0 = Some (agents_fitness (forager_at origin) 0%Q 0%Q).
Proof.
  destruct (assess_fitness_bounds_and_values calm_population (agents calm_param)
              agents_fitness) as [Hdef Hval].
  split.
  - apply Hdef. simpl. lia.
  - intros P' HP'. destruct (Hval P' HP') as (_ & _ & _ & _ & _ & Hfit & _).
    exact (Hfit 0 (forager_at origin) eq_refl).
Defined.

Lemma clearing_before_assessment_is_void_witness :
  assess_fitness (clear_fitness calm_simulation) = assess_fitness calm_simulation.
Proof.
  apply (clearing_before_assessment_is_void calm_simulation). simpl. lia.
Defined.

Lemma run_needs_an_observer_witness :
  run unwilling_observer example_run_param (calm_simulation, Some tt, example_reng)
  = Some (false, (calm_simulation, Some tt, example_reng)).
Proof.
  apply (proj2 (run_needs_an_observer unwilling_observer example_run_param
                  calm_simulation example_reng)).
  reflexivity.
Defined.

Lemma run_keeps_setup_and_counts_witness :
  ∃ S' o' g',
    run willing_observer example_run_param (calm_simulation, Some tt, example_reng)
    = Some (true, (S', o', g'))
    ∧ param_ S' = calm_param
    ∧ g_ S' = 2%Z
    ∧ t_ S' = 2%Z.
Proof.
  destruct (run willing_observer example_run_param
              (calm_simulation, Some tt, example_reng))
    as [[[|] [[S' o'] g']]|] eqn:E.
  2: { vm_compute in E. discriminate E. }
  2: { vm_compute in E. discriminate E. }
  exists S', o', g'. split; [reflexivity|].
  destruct (run_keeps_setup_and_counts _ _ _ _ _ _ _ _ _ E) as [Hsetup Htrue].
  destruct (Htrue eq_refl) as (_ & _ & Hg & Ht).
  split; [apply Hsetup|]. split; [exact Hg|].
  destruct (Ht ltac:(simpl; lia)) as [Ht2|Ht3]; [exact Ht2|].
  exfalso. vm_compute in E. injection E as <- _ _. discriminate Ht3.
Defined.

Lemma run_notification_protocol_witness :
  ∃ S' o' ts g',
    run (recorder willing_observer) example_run_param
        (calm_simulation, Some (tt, []), example_reng)
    = Some (true, (S', Some (o', INITIALIZED :: replicate 2 WATCHDOG
                                   ++ concat (map generation_messages ts)
                                   ++ [FINISHED]), g'))
    ∧ length ts = 2.
Proof.
  destruct (run (recorder willing_observer) example_run_param
              (calm_simulation, Some (tt, []), example_reng))
    as [[[|] [[S' ob'] g']]|] eqn:E.
  2: { vm_compute in E. discriminate E. }
  2: { vm_compute in E. discriminate E. }
  destruct (run_notification_protocol _ _ _ _ _ _ _ _ E) as (o' & ts & -> & Hlen & _).
  exists S', o', ts, g'. split; [reflexivity | exact Hlen].
Defined.

End ConcreteDriver.

Section ConcreteFloats.
Import ann ann.activation ann.feedback examples.

Lemma sig_midpoint_and_overflow_witness :
  (float_apply example_exp example_tanh (sig_bipolar 1 1) (float_zero false) [] 0
   = Some (float_zero false)
   ∧ float_apply example_exp example_tanh (sig_unipolar 1 1) (float_zero false) [] 0
     = Some float_half)
  ∧ float_le (float_of_Z (-1000)) (float_zero false) = true
  ∧ float_apply example_exp example_tanh (sig_bipolar 1 1) (float_of_Z (-1000)) [] 0
    = Some float_nan
  ∧ float_le float_nan (float_zero false) = false.
Proof.
  destruct (sig_midpoint_and_overflow example_exp example_tanh 1 1 (float_of_Z (-1000)) [] 0)
    as [Hmid Hover].
  destruct (Hmid eq_refl eq_refl eq_refl) as [[Hbi _] [Huni _]].
  destruct (Hover eq_refl) as (Hnan & _ & Horder).
  split; [split; [exact Hbi | exact Huni]|].
  split; [reflexivity|]. split; [exact Hnan|].
  exact (proj1 (Horder (float_zero false) float_nan (float_zero false) Hnan Hbi)).
Defined.

Lemma sigmoids_where_exp_saturates_witness :
  float_apply example_exp example_tanh varsig_bipolar (float_of_Z (-1000))
              [float_of_Z 1] 0 = Some float_nan
  ∧ float_apply example_exp example_tanh varsig_unipolar (float_of_Z (-1000))
                [float_of_Z 1] 0 = Some (float_zero false).
Proof.
  exact (proj1 (sigmoids_where_exp_saturates example_exp example_tanh 1 1
                  (float_of_Z 1) (float_of_Z (-1000)) [float_of_Z 1] 0 eq_refl) eq_refl).
Defined.

(** The sigmoids of slope 1 at three net inputs, evaluated: -1000 (NaN
    and 0), 0 (0 and 0.5), 1000 (1 and 1). *)
Example sig_evaluated :
  (λ u, (float_apply example_exp example_tanh (sig_bipolar 1 1) (float_of_Z u) [] 0,
         float_apply example_exp example_tanh (sig_unipolar 1 1) (float_of_Z u) [] 0))
    <$> [-1000; 0; 1000]%Z
  = [(Some float_nan, Some (float_zero false));
     (Some (float_zero false), Some float_half);
     (Some (float_of_Z 1), Some (float_of_Z 1))].
Proof. reflexivity. Qed.

End ConcreteFloats.
